(** * FlowBeat: the pattern store, the playlist and the song scheduler

    A shallow embedding of the state logic of the FlowBeat sequencer
    (src/App.tsx, src/services/exportService.ts, the SongMode component and
    the constants module), together with the properties the design document
    states about it.

    Conventions of the embedding.
    - JavaScript numbers that are array indices, bar and track numbers or
      pattern lengths are [nat]; step values are [Z]; every other number
      (times, tempo, swing, note start and duration, volume, pan) is a
      canonical rational [Qc].  Every arithmetic operation the modelled code
      applies to such numbers (division by 16, division and multiplication
      by a power of two, [Math.round], [Math.max]) is exact on doubles of
      ordinary size, so the rational model computes the same values.
    - A JavaScript array of numbers is a [list (option Z)]: [None] is a hole
      or an [undefined] element, which reads as [undefined].
    - A [Map<string,string>] is a [gmap string string]; the iteration order
      of the map is not represented.
    - The React state setters are modelled by the pure updater functions
      that are passed to them; calls into the audio engine are modelled by
      the list of calls they issue. *)

From Stdlib Require Import ZArith QArith Qcanon Qround Qabs Qcabs Ascii String DecimalString DecimalNat Lia Lqa.
From stdpp Require Import gmap strings list numbers.

Open Scope string_scope.

(** ** JavaScript primitives used by the modelled code *)

Module Js.

(** [value ? ... : ...] on a string: only the empty string is falsy. *)
Definition truthyString (s : string) : bool := negb (String.eqb s EmptyString).

(** [!!flag] on an optional boolean field. *)
Definition truthy (b : option bool) : bool := default false b.

(** [`${n}`] for a non-negative integer [n]. *)
Definition numToString (n : nat) : string :=
  NilZero.string_of_uint (Nat.to_uint n).

Definition digitValue (c : ascii) : option nat :=
  let n := nat_of_ascii c in
  if bool_decide (48 ≤ n ≤ 57)%nat then Some (n - 48)%nat else None.

Fixpoint digitsValue (acc : nat) (s : string) : option nat :=
  match s with
  | EmptyString => Some acc
  | String c rest =>
      match digitValue c with
      | Some d => digitsValue (10 * acc + d) rest
      | None => None
      end
  end.

(** [Number(s)] on a string of decimal digits (the empty string converts
    to 0).  Any other string is reported as [None]: for the keys of the
    playlist, which are written by [`${track}:${bar}`] only, that is the
    [NaN] case. *)
Definition Number (s : string) : option nat := digitsValue 0 s.

(** [s.split(':')]. *)
Fixpoint splitColon (s : string) : list string :=
  match s with
  | EmptyString => [EmptyString]
  | String c rest =>
      if Ascii.eqb c ":"%char then EmptyString :: splitColon rest
      else match splitColon rest with
           | [] => [String c EmptyString]
           | w :: ws => String c w :: ws
           end
  end.

(** [Math.round]: the nearest integer, ties towards plus infinity. *)
Definition round (x : Qc) : Z := Qfloor (x + Q2Qc (1 # 2))%Qc.

(** [Math.max] on two numbers. *)
Definition max (x y : Qc) : Qc := if bool_decide (x < y)%Qc then y else x.

(** [a[i]] on an array of numbers. *)
Definition get (a : list (option Z)) (i : nat) : option Z := mjoin (a !! i).

(** [a[i] = v]: in range the element is replaced; out of range the array
    is extended, the elements in between being holes. *)
Definition set (a : list (option Z)) (i : nat) (v : Z) : list (option Z) :=
  if bool_decide (i < length a)%nat then <[i := Some v]> a
  else a ++ replicate (i - length a) None ++ [Some v].

(** [Array(n).fill(0)]. *)
Definition zeros (n : nat) : list (option Z) := replicate n (Some 0%Z).

End Js.

(** ** Data model (src/types.ts) *)

Record Sample := { sample_name : string; sample_url : string }.

Record Note := {
  note_id : string;
  pitch : Z;
  start : Qc;
  duration : Qc;
  velocity : Qc
}.

Record EQState := {
  low : Qc; mid : Qc; high : Qc; lowFrequency : Qc; highFrequency : Qc
}.

Inductive EffectType := Reverb | Delay | Chorus | Distortion | Filter | Compressor.

Inductive FilterKind := lowpass | highpass | bandpass.

Inductive EffectParams :=
| ReverbParams (decay wet : Qc)
| DelayParams (delayTime feedback wet : Qc)
| ChorusParams (frequency delayTime depth wet : Qc)
| DistortionParams (distortion wet : Qc)
| FilterParams (kind : FilterKind) (frequency q : Qc) (rolloff : Z)
| CompressorParams (threshold ratio attack release : Qc).

Record EffectState := {
  effect_id : string;
  effect_type : EffectType;
  enabled : bool;
  params : EffectParams
}.

Record ChannelState := {
  ch_id : string;
  ch_name : string;
  sample : Sample;
  steps : list (option Z);
  notes : option (list Note);
  volume : Qc;
  pan : Qc;
  cutItself : bool;
  ch_eq : EQState;
  effects : list (option EffectState);
  isAudioClipChannel : option bool;
  isMuted : option bool;
  isSoloed : option bool
}.

Record Pattern := {
  pat_id : string;
  pat_name : string;
  channels : list ChannelState;
  pat_length : nat
}.

Inductive QuantizeSnapValue := Snap64 | Snap32 | Snap16 | Snap8 | Snap4 | Snap2 | SnapNone.

(** [Partial<ChannelState>]: the fields an update carries. *)
Record ChannelPartial := {
  new_id : option string;
  new_name : option string;
  new_sample : option Sample;
  new_steps : option (list (option Z));
  new_notes : option (list Note);
  new_volume : option Qc;
  new_pan : option Qc;
  new_cutItself : option bool;
  new_eq : option EQState;
  new_effects : option (list (option EffectState));
  new_isAudioClipChannel : option bool;
  new_isMuted : option bool;
  new_isSoloed : option bool
}.

(** [{ ...ch, ...newProps }] *)
Definition spread (ch : ChannelState) (newProps : ChannelPartial) : ChannelState :=
  {| ch_id := default (ch_id ch) (new_id newProps);
     ch_name := default (ch_name ch) (new_name newProps);
     sample := default (sample ch) (new_sample newProps);
     steps := default (steps ch) (new_steps newProps);
     notes := match new_notes newProps with Some n => Some n | None => notes ch end;
     volume := default (volume ch) (new_volume newProps);
     pan := default (pan ch) (new_pan newProps);
     cutItself := default (cutItself ch) (new_cutItself newProps);
     ch_eq := default (ch_eq ch) (new_eq newProps);
     effects := default (effects ch) (new_effects newProps);
     isAudioClipChannel :=
       match new_isAudioClipChannel newProps with
       | Some b => Some b | None => isAudioClipChannel ch end;
     isMuted := match new_isMuted newProps with Some b => Some b | None => isMuted ch end;
     isSoloed := match new_isSoloed newProps with Some b => Some b | None => isSoloed ch end |}.

(** Record updates [{ ...ch, steps: s }], [{ ...p, channels: cs }] and the like. *)
Definition withSteps (ch : ChannelState) (s : list (option Z)) : ChannelState :=
  {| ch_id := ch_id ch; ch_name := ch_name ch; sample := sample ch; steps := s;
     notes := notes ch; volume := volume ch; pan := pan ch; cutItself := cutItself ch;
     ch_eq := ch_eq ch; effects := effects ch; isAudioClipChannel := isAudioClipChannel ch;
     isMuted := isMuted ch; isSoloed := isSoloed ch |}.

Definition withMuteSolo (ch : ChannelState) (m s : bool) : ChannelState :=
  {| ch_id := ch_id ch; ch_name := ch_name ch; sample := sample ch; steps := steps ch;
     notes := notes ch; volume := volume ch; pan := pan ch; cutItself := cutItself ch;
     ch_eq := ch_eq ch; effects := effects ch; isAudioClipChannel := isAudioClipChannel ch;
     isMuted := Some m; isSoloed := Some s |}.

Definition withChannels (p : Pattern) (cs : list ChannelState) : Pattern :=
  {| pat_id := pat_id p; pat_name := pat_name p; channels := cs; pat_length := pat_length p |}.

Definition withLengthChannels (p : Pattern) (n : nat) (cs : list ChannelState) : Pattern :=
  {| pat_id := pat_id p; pat_name := pat_name p; channels := cs; pat_length := n |}.

(** [patterns.find(p => p.id === id)] *)
Definition findPattern (patterns : list Pattern) (id : string) : option Pattern :=
  List.find (λ p, String.eqb (pat_id p) id) patterns.

(** [channels.findIndex(c => c.id === id)]; [None] stands for -1. *)
Fixpoint findIndex (cs : list ChannelState) (id : string) : option nat :=
  match cs with
  | [] => None
  | c :: rest => if String.eqb (ch_id c) id then Some 0%nat else S <$> findIndex rest id
  end.

(** [xs.map((x, index) => ...)] *)
Definition mapi {A B} (f : nat → A → B) (l : list A) : list B := imap f l.

(** A non-negative integer read as a number. *)
Definition num (n : nat) : Qc := Qc_of_Z (Z.of_nat n).

(** ** The pattern store (src/App.tsx) *)

(** The roll cycle of [handleStepToggle]; [None] is an [undefined] step. *)
Definition nextStepValue (currentStepValue : option Z) : Z :=
  match currentStepValue with
  | Some 0%Z => 1
  | Some 1%Z => 2
  | Some 2%Z => 4
  | Some 4%Z => 3
  | Some 3%Z => 1
  | _ => 1
  end.

(** The updater of [handleStepToggle]; [activePatternId] is the value of
    [activePatternIdRef.current]. *)
Definition handleStepToggle (activePatternId channelId : string) (stepIndex : nat)
    (currentPatterns : list Pattern) : list Pattern :=
  map (λ p,
    if negb (String.eqb (pat_id p) activePatternId) then p
    else withChannels p
      (map (λ ch,
         if negb (String.eqb (ch_id ch) channelId) then ch
         else
           let newSteps := steps ch in
           let currentStepValue := Js.get newSteps stepIndex in
           withSteps ch (Js.set newSteps stepIndex (nextStepValue currentStepValue)))
         (channels p)))
    currentPatterns.

(** The updater of [handleStepSubdivide]. *)
Definition handleStepSubdivide (activePatternId channelId : string) (stepIndex : nat)
    (currentPatterns : list Pattern) : list Pattern :=
  map (λ p,
    if negb (String.eqb (pat_id p) activePatternId) then p
    else withChannels p
      (map (λ ch,
         if negb (String.eqb (ch_id ch) channelId) then ch
         else withSteps ch (Js.set (steps ch) stepIndex 0))
         (channels p)))
    currentPatterns.

(** The updater of [handlePatternLengthChange]. *)
Definition handlePatternLengthChange (activePatternId : string) (newLength : nat)
    (currentPatterns : list Pattern) : list Pattern :=
  map (λ p,
    if negb (String.eqb (pat_id p) activePatternId) then p
    else
      let updatedChannels :=
        map (λ channel,
          if Js.truthy (isAudioClipChannel channel) then channel
          else
            let currentSteps := steps channel in
            if bool_decide (length currentSteps < newLength)%nat then
              let diff := (newLength - length currentSteps)%nat in
              withSteps channel (currentSteps ++ Js.zeros diff)
            else channel)
          (channels p) in
      withLengthChannels p newLength updatedChannels)
    currentPatterns.

(** The updater of [handleChannelChange].  [None] is the [TypeError] thrown
    by [currentPatterns[0].channels] on an empty store.  The calls that
    retune the audio nodes of the channel are not part of the state. *)
Definition handleChannelChange (id : string) (newProps : ChannelPartial)
    (currentPatterns : list Pattern) : option (list Pattern) :=
  match currentPatterns with
  | [] => None
  | first :: _ =>
      match findIndex (channels first) id with
      | None => Some currentPatterns
      | Some channelIndex =>
          Some (map (λ p,
            withChannels p
              (mapi (λ index ch,
                 if negb (Nat.eqb index channelIndex) then ch
                 else spread ch newProps)
                 (channels p)))
            currentPatterns)
      end
  end.

Inductive MuteSoloType := mute | solo.

(** The flags [handleChannelMuteSoloChange] computes from the master channel. *)
Definition newMuteSoloState (type : MuteSoloType) (currentChannelState : ChannelState)
    : bool * bool :=
  let newMutedState := Js.truthy (isMuted currentChannelState) in
  let newSoloState := Js.truthy (isSoloed currentChannelState) in
  match type with
  | mute =>
      let newMutedState := negb (Js.truthy (isMuted currentChannelState)) in
      (newMutedState, if newMutedState then false else newSoloState)
  | solo =>
      let newSoloState := negb (Js.truthy (isSoloed currentChannelState)) in
      (if newSoloState then false else newMutedState, newSoloState)
  end.

(** The updater of [handleChannelMuteSoloChange]; [None] as above. *)
Definition handleChannelMuteSoloChange (channelId : string) (type : MuteSoloType)
    (currentPatterns : list Pattern) : option (list Pattern) :=
  match currentPatterns with
  | [] => None
  | first :: _ =>
      match findIndex (channels first) channelId with
      | None => Some currentPatterns
      | Some channelIndex =>
          match channels first !! channelIndex with
          | None => None
          | Some currentChannelState =>
              let '(newMutedState, newSoloState) :=
                newMuteSoloState type currentChannelState in
              Some (map (λ p,
                withChannels p
                  (mapi (λ index ch,
                     if negb (Nat.eqb index channelIndex) then ch
                     else withMuteSolo ch newMutedState newSoloState)
                     (channels p)))
                currentPatterns)
          end
      end
  end.

Definition defaultEQ : EQState :=
  {| low := 0; mid := 0; high := 0; lowFrequency := num 250; highFrequency := num 4000 |}.

(** [createNewChannel] of the constants module; [stamp] is the text of
    [`${Date.now()}-${Math.random()}`]. *)
Definition createNewChannel (stamp : string) (s : Sample) (isAudioClip : bool)
    : ChannelState :=
  {| ch_id := "channel-" ++ stamp;
     ch_name := if Js.truthyString (sample_name s) then sample_name s else "New Channel";
     sample := s;
     steps := Js.zeros 128;
     notes := Some [];
     volume := 0; pan := 0; cutItself := false;
     ch_eq := defaultEQ;
     effects := replicate 6 None;
     isAudioClipChannel := Some isAudioClip;
     isMuted := Some false; isSoloed := Some false |}.

(** The updater of [handleAddChannel]: the one new channel is appended to
    every pattern. *)
Definition handleAddChannel (newChannel : ChannelState) (currentPatterns : list Pattern)
    : list Pattern :=
  map (λ p, withChannels p (channels p ++ [newChannel])) currentPatterns.

(** ** Undo and redo: the [useHistory] hook (src/App.tsx) *)

Section UseHistory.
Context {T : Type}.
(** [JSON.stringify] on the state type. *)
Context (stringify : T → string).

Record HistoryState := {
  past : list T;
  present : T;
  future : list T
}.

(** The argument of [set]: a new value or an updater function. *)
Inductive SetArg :=
| NewValue (v : T)
| Updater (f : T → T).

Definition set (newPresent : SetArg) (fromHistory : bool) (currentState : HistoryState)
    : HistoryState :=
  let newPresentValue :=
    match newPresent with
    | Updater f => f (present currentState)
    | NewValue v => v
    end in
  if String.eqb (stringify newPresentValue) (stringify (present currentState))
  then currentState
  else if fromHistory then
    {| past := past currentState; present := newPresentValue;
       future := future currentState |}
  else
    {| past := past currentState ++ [present currentState];
       present := newPresentValue;
       future := [] |}.

Definition setInitial (initialState : T) : HistoryState :=
  {| past := []; present := initialState; future := [] |}.

(** [canUndo] and [canRedo] are read from the state the hook last
    rendered, which is the state the updater receives when the commands
    are issued one render apart. *)
Definition canUndo (state : HistoryState) : bool :=
  bool_decide (0 < length (past state))%nat.
Definition canRedo (state : HistoryState) : bool :=
  bool_decide (0 < length (future state))%nat.

Definition undo (currentState : HistoryState) : HistoryState :=
  if negb (canUndo currentState) then currentState
  else
    match past currentState !! (length (past currentState) - 1)%nat with
    | None => currentState
    | Some newPresent =>
        let newPast := take (length (past currentState) - 1) (past currentState) in
        {| past := newPast; present := newPresent;
           future := present currentState :: future currentState |}
    end.

Definition redo (currentState : HistoryState) : HistoryState :=
  if negb (canRedo currentState) then currentState
  else
    match future currentState !! 0%nat with
    | None => currentState
    | Some newPresent =>
        let newFuture := drop 1 (future currentState) in
        {| past := past currentState ++ [present currentState];
           present := newPresent;
           future := newFuture |}
    end.



End UseHistory.

Arguments HistoryState : clear implicits.
Arguments SetArg : clear implicits.

(** ** Quantization of recorded notes (src/App.tsx) *)

Definition getSnapStepFromQuantizeValue (snap : QuantizeSnapValue) : Qc :=
  match snap with
  | Snap2 => num 8
  | Snap4 => num 4
  | Snap8 => num 2
  | Snap16 => num 1
  | Snap32 => Q2Qc (1 # 2)
  | Snap64 => Q2Qc (1 # 4)
  | SnapNone => 0
  end.

Definition withStartDuration (n : Note) (s d : Qc) : Note :=
  {| note_id := note_id n; pitch := pitch n; start := s; duration := d;
     velocity := velocity n |}.

Definition quantizeNotes (notes : list Note) (snapValue : QuantizeSnapValue) : list Note :=
  let snapStep := getSnapStepFromQuantizeValue snapValue in
  if bool_decide (snapStep = 0)%Qc then notes
  else
    map (λ note,
      withStartDuration note
        (Qc_of_Z (Js.round (start note / snapStep)) * snapStep)%Qc
        (Js.max snapStep (Qc_of_Z (Js.round (duration note / snapStep)) * snapStep))%Qc)
      notes.

(** ** The playlist (SongMode component) *)

Record AudioClip := {
  clip_id : string;
  channelId : string;
  clip_sample : Sample;
  track : nat;
  startBar : Qc;
  durationInBars : Qc;
  trimStartBars : Qc;
  trimDurationBars : Qc
}.

(** [`${track}:${bar}`] *)
Definition playlistKey (track bar : nat) : string :=
  Js.numToString track ++ ":" ++ Js.numToString bar.

(** [key.split(':').map(Number)], destructured into its first two
    elements; [None] is [NaN] or [undefined]. *)
Definition keyParts (key : string) : option nat * option nat :=
  let parts := map Js.Number (Js.splitColon key) in
  (mjoin (parts !! 0%nat), mjoin (parts !! 1%nat)).

(** [pattern.length / 16] *)
Definition lengthInBars (p : Pattern) : Qc := (num (pat_length p) / num 16)%Qc.

(** The overlap test of [handleGridClick]. *)
Definition overlaps (bar : nat) (lengthInBars : Qc) (entryBar : nat)
    (existingLengthInBars : Qc) : bool :=
  let newStart := num bar in
  let newEnd := (num bar + lengthInBars)%Qc in
  let existingStart := num entryBar in
  let existingEnd := (num entryBar + existingLengthInBars)%Qc in
  bool_decide (newStart < existingEnd)%Qc && bool_decide (existingStart < newEnd)%Qc.

(** Whether the loop of [handleGridClick] deletes the entry [key]. *)
Definition deletesEntry (patterns : list Pattern) (track bar : nat) (lengthInBars' : Qc)
    (key patternId : string) : bool :=
  match keyParts key with
  | (Some entryTrack, entryBar) =>
      if Nat.eqb entryTrack track then
        match findPattern patterns patternId with
        | None => false
        | Some existingPattern =>
            match entryBar with
            | Some entryBar =>
                overlaps bar lengthInBars' entryBar (lengthInBars existingPattern)
            | None => false
            end
        end
      else false
  | (None, _) => false
  end.

(** [handleGridClick]: the playlist handed to [onPlaylistChange], or the
    unchanged playlist when the brush pattern does not exist.  The loop
    visits every entry of the copy once and deletes the visited key only. *)
Definition handleGridClick (patterns : list Pattern) (brushPatternId : string)
    (playlist : gmap string string) (track bar : nat) : gmap string string :=
  match findPattern patterns brushPatternId with
  | None => playlist
  | Some brushPattern =>
      let lengthInBars' := lengthInBars brushPattern in
      let newPlaylist :=
        map_fold (λ key patternId newPlaylist,
          if deletesEntry patterns track bar lengthInBars' key patternId
          then delete key newPlaylist else newPlaylist)
          playlist playlist in
      let newKey := playlistKey track bar in
      <[newKey := brushPatternId]> newPlaylist
  end.


(** A run of grid clicks: brush pattern, track and bar of each. *)
Definition clicks (patterns : list Pattern) (cs : list (string * nat * nat))
    (playlist : gmap string string) : gmap string string :=
  foldl (λ pl '(brush, track, bar), handleGridClick patterns brush pl track bar) playlist cs.

(** ** The live scheduler (src/App.tsx) *)

(** Calls into the audio engine: [sampler.releaseAll(time)] and
    [sampler.triggerAttack("C3", time)] on the sampler registered under a
    sample name. *)
Inductive AudioCall :=
| ReleaseAll (sampler : string) (time : Qc)
| TriggerAttack (sampler : string) (time : Qc).

Global Instance AudioCall_eq_dec : EqDecision AudioCall.
Proof. solve_decision. Defined.

(** The roll loop: [subdivisions] attacks, [subNoteDuration] apart. *)
Definition rollHits (sampler : string) (time subNoteDuration : Qc) (subdivisions : Z)
    : list AudioCall :=
  map (λ i, TriggerAttack sampler (time + num i * subNoteDuration)%Qc)
      (seq 0 (Z.to_nat subdivisions)).

Section Live.
(** The sample names that have audio nodes ([audioNodes.current]) and the
    length of a 16th note in seconds ([Tone.Time('16n').toSeconds()]). *)
Context (audioNodes : gset string) (noteDuration : Qc).

Definition triggerStep (time : Qc) (stepValue : option Z) (channel : ChannelState)
    : list AudioCall :=
  if Js.truthy (isAudioClipChannel channel) then []
  else if match notes channel with
          | Some ns => bool_decide (0 < length ns)%nat
          | None => false
          end then []
  else
    match stepValue with
    | Some stepValue =>
        if bool_decide (0 < stepValue)%Z then
          let name := sample_name (sample channel) in
          if bool_decide (name ∈ audioNodes) then
            (if cutItself channel then [ReleaseAll name time] else [])
            ++ (if bool_decide (stepValue = 1)%Z then [TriggerAttack name time]
                else
                  let subdivisions := stepValue in
                  let subNoteDuration := (noteDuration / Qc_of_Z subdivisions)%Qc in
                  rollHits name time subNoteDuration subdivisions)
          else []
        else []
    | None => []
    end.

(** The inner loop of [songSequenceCallback]:
    [for (searchBar = currentBar; searchBar >= 0; searchBar--)]. *)
Fixpoint scanBars (patterns : list Pattern) (playlist : gmap string string)
    (track currentBar searchBar : nat) : option (Pattern * nat) :=
  let found :=
    match playlist !! playlistKey track searchBar with
    | Some patternId =>
        if Js.truthyString patternId then
          match findPattern patterns patternId with
          | Some candidatePattern =>
              let patternLengthInBars := lengthInBars candidatePattern in
              if bool_decide (num currentBar < num searchBar + patternLengthInBars)%Qc
              then Some (candidatePattern, searchBar)
              else None
          | None => None
          end
        else None
    | None => None
    end in
  match found with
  | Some r => Some r
  | None =>
      match searchBar with
      | O => None
      | S below => scanBars patterns playlist track currentBar below
      end
  end.

(** The outer loop: [count] tracks from [track] upward. *)
Fixpoint scanTracks (patterns : list Pattern) (playlist : gmap string string)
    (currentBar count track : nat) : option (Pattern * nat) :=
  match count with
  | O => None
  | S rest =>
      match scanBars patterns playlist track currentBar currentBar with
      | Some r => Some r
      | None => scanTracks patterns playlist currentBar rest (S track)
      end
  end.

(** The pattern to play at a bar and its start bar
    ([for (let track = 0; track < 32; track++)]). *)
Definition resolveActivePattern (patterns : list Pattern)
    (playlist : gmap string string) (currentBar : nat) : option (Pattern * nat) :=
  scanTracks patterns playlist currentBar 32 0.

Definition songSequenceCallback (patterns : list Pattern)
    (playlist : gmap string string) (time : Qc) (step : nat) : list AudioCall :=
  let currentBar := (step / 16)%nat in
  let stepInBar := (step mod 16)%nat in
  match resolveActivePattern patterns playlist currentBar with
  | Some (patternToPlay, patternStartBar) =>
      let stepInPattern := ((currentBar - patternStartBar) * 16 + stepInBar)%nat in
      flat_map (λ channel,
        let stepValue :=
          Js.get (steps channel) (stepInPattern mod length (steps channel))%nat in
        triggerStep time stepValue channel)
        (channels patternToPlay)
  | None => []
  end.

Definition songLengthBars : nat := 72.
Definition songLengthSteps : nat := songLengthBars * 16.

(** Every call of one pass of the song sequence, the callback of step
    [k] being given the time [stepTime k]. *)
Definition songCalls (stepTime : nat → Qc) (patterns : list Pattern)
    (playlist : gmap string string) : list AudioCall :=
  flat_map (λ step, songSequenceCallback patterns playlist (stepTime step) step)
           (seq 0 songLengthSteps).

End Live.

(** The swing handed to the transport:
    [Tone.Transport.swing = swing > 0.01 ? swing : 0]. *)
Definition transportSwing (swing : Qc) : Qc :=
  if bool_decide (Q2Qc (1 # 100) < swing)%Qc then swing else 0%Qc.

(** ** The export renderer (src/services/exportService.ts) *)

Definition secondsPer16th (bpm : Qc) : Qc := (num 60 / bpm / num 4)%Qc.
Definition secondsPerBar (bpm : Qc) : Qc := (num 60 / bpm * num 4)%Qc.
Definition swingDelay (bpm swing : Qc) : Qc := (swing * (secondsPer16th bpm / num 2))%Qc.

(** The time of a step that starts at [time], whose global index is
    [globalStepIndex]: [if (swing > 0 && index % 2 !== 0) time += swingDelay]. *)
Definition swung (bpm swing : Qc) (globalStepIndex : nat) (time : Qc) : Qc :=
  if bool_decide (0 < swing)%Qc && negb (Nat.eqb (globalStepIndex mod 2) 0)
  then (time + swingDelay bpm swing)%Qc else time.

(** The attacks scheduled for one step value at its time. *)
Definition scheduleStep (bpm : Qc) (name : string) (time : Qc) (stepValue : Z)
    : list AudioCall :=
  if bool_decide (stepValue = 1)%Z then [TriggerAttack name time]
  else
    let subdivisions := stepValue in
    let subNoteDuration := (secondsPer16th bpm / Qc_of_Z subdivisions)%Qc in
    rollHits name time subNoteDuration subdivisions.

(** [channel.steps.forEach((stepValue, stepIndex) => ...)] of both export
    functions; [startTime] and [startStep] are 0 for a pattern export. *)
Definition scheduleSteps (bpm swing : Qc) (patternLength : nat) (name : string)
    (startTime : Qc) (startStep : nat) (steps : list (option Z)) : list AudioCall :=
  concat (imap (λ stepIndex stepValue,
    match stepValue with
    | None => []
    | Some stepValue =>
        if bool_decide (patternLength ≤ stepIndex)%nat || bool_decide (stepValue ≤ 0)%Z
        then []
        else
          let time := (startTime + num stepIndex * secondsPer16th bpm)%Qc in
          scheduleStep bpm name (swung bpm swing (startStep + stepIndex) time) stepValue
    end) steps).

(** The samplers [exportPatternToWav] loads: one per sample with a url. *)
Definition patternSamplers (pattern : Pattern) : gset string :=
  list_to_set
    (map (λ c, sample_name (sample c))
         (filter (λ c, Js.truthyString (sample_url (sample c)) = true) (channels pattern))).

(** The attacks [exportPatternToWav] schedules. *)
Definition exportPatternToWav (pattern : Pattern) (bpm swing : Qc) : list AudioCall :=
  let patternDuration := (num (pat_length pattern) * secondsPer16th bpm)%Qc in
  if bool_decide (patternDuration ≤ 0)%Qc then []
  else
    flat_map (λ channel,
      let name := sample_name (sample channel) in
      if bool_decide (name ∈ patternSamplers pattern) then
        scheduleSteps bpm swing (pat_length pattern) name 0%Qc 0 (steps channel)
      else [])
      (channels pattern).

(** The samplers [renderSongToBuffer] loads. *)
Definition songSamplers (patterns : list Pattern) : gset string :=
  let allChannels := flat_map channels patterns in
  list_to_set
    (map (λ c, sample_name (sample c))
         (filter (λ c, (negb (Js.truthy (isAudioClipChannel c))
                        && Js.truthyString (sample_url (sample c))) = true)
                 allChannels)).

(** The end of the song in bars. *)
Definition songEndBar (patterns : list Pattern) (playlist : gmap string string)
    (audioClips : list AudioClip) : Qc :=
  let afterPlaylist :=
    map_fold (λ key patternId songEndBar,
      match (keyParts key).2, findPattern patterns patternId with
      | Some bar, Some pattern => Js.max songEndBar (num bar + lengthInBars pattern)%Qc
      | _, _ => songEndBar
      end) 0%Qc playlist in
  foldl (λ songEndBar clip, Js.max songEndBar (startBar clip + trimDurationBars clip)%Qc)
        afterPlaylist audioClips.

(** The attacks scheduled for one playlist entry. *)
Definition renderEntry (patterns : list Pattern) (bpm swing : Qc) (key patternId : string)
    : list AudioCall :=
  match (keyParts key).2, findPattern patterns patternId with
  | Some bar, Some pattern =>
      let patternStartTimeSeconds := (num bar * secondsPerBar bpm)%Qc in
      flat_map (λ channel,
        if Js.truthy (isAudioClipChannel channel) then []
        else
          let name := sample_name (sample channel) in
          if bool_decide (name ∈ songSamplers patterns) then
            scheduleSteps bpm swing (pat_length pattern) name
              patternStartTimeSeconds (bar * 16) (steps channel)
          else [])
        (channels pattern)
  | _, _ => []
  end.

(** The attacks [renderSongToBuffer] schedules on the samplers (the start
    of the audio clip players is not represented).  An entry whose key has
    no numeric bar schedules nothing here. *)
Definition renderSongToBuffer (patterns : list Pattern) (playlist : gmap string string)
    (audioClips : list AudioClip) (bpm swing : Qc) : list AudioCall :=
  let songDuration := (songEndBar patterns playlist audioClips * secondsPerBar bpm)%Qc in
  if bool_decide (songDuration ≤ 0)%Qc then []
  else
    flat_map (λ '(key, patternId), renderEntry patterns bpm swing key patternId)
             (map_to_list playlist).

(** ** Further updaters of the pattern store (src/App.tsx) *)

(** [{ ...ch, notes: n, steps: s }] *)
Definition withStepsNotes (ch : ChannelState) (s : list (option Z)) (n : list Note)
    : ChannelState :=
  {| ch_id := ch_id ch; ch_name := ch_name ch; sample := sample ch; steps := s;
     notes := Some n; volume := volume ch; pan := pan ch; cutItself := cutItself ch;
     ch_eq := ch_eq ch; effects := effects ch; isAudioClipChannel := isAudioClipChannel ch;
     isMuted := isMuted ch; isSoloed := isSoloed ch |}.

(** [{ ...ch, notes: n }] *)
Definition withNotes (ch : ChannelState) (n : list Note) : ChannelState :=
  withStepsNotes ch (steps ch) n.

(** The updater of [handleClearPattern]. *)
Definition handleClearPattern (activePatternId : string) (currentPatterns : list Pattern)
    : list Pattern :=
  map (λ p,
    if negb (String.eqb (pat_id p) activePatternId) then p
    else
      let clearedChannels :=
        map (λ channel, withStepsNotes channel (Js.zeros (length (steps channel))) [])
            (channels p) in
      withChannels p clearedChannels)
    currentPatterns.

(** The updater of [handleUpdateChannelNotes]. *)
Definition handleUpdateChannelNotes (activePatternId channelId : string) (notes : list Note)
    (currentPatterns : list Pattern) : list Pattern :=
  map (λ p,
    if negb (String.eqb (pat_id p) activePatternId) then p
    else withChannels p
      (map (λ ch,
         if String.eqb (ch_id ch) channelId
         then withStepsNotes ch (Js.zeros (length (steps ch))) notes
         else ch)
         (channels p)))
    currentPatterns.

(** The updater by which [handleToggleRecord] empties the channel it is
    about to record to. *)
Definition clearForRecording (activePatternId selectedChannelId : string)
    (patterns : list Pattern) : list Pattern :=
  map (λ p,
    if negb (String.eqb (pat_id p) activePatternId) then p
    else withChannels p
      (map (λ c,
         if String.eqb (ch_id c) selectedChannelId
         then withStepsNotes c (Js.zeros (length (steps c))) []
         else c)
         (channels p)))
    patterns.

(** The updater by which [stopPlayback] stores the recorded notes. *)
Definition storeRecording (activePatternId selectedChannelId : string)
    (finalNotes : list Note) (currentPatterns : list Pattern) : list Pattern :=
  map (λ p,
    if negb (String.eqb (pat_id p) activePatternId) then p
    else withChannels p
      (map (λ c, if String.eqb (ch_id c) selectedChannelId then withNotes c finalNotes else c)
         (channels p)))
    currentPatterns.

(** [{ ...ch, sample, name: sample.name, ...(cut !== undefined && { cutItself: cut }) }] *)
Definition withSample (ch : ChannelState) (s : Sample) (shouldCutItself : option bool)
    : ChannelState :=
  {| ch_id := ch_id ch; ch_name := sample_name s; sample := s; steps := steps ch;
     notes := notes ch; volume := volume ch; pan := pan ch;
     cutItself := default (cutItself ch) shouldCutItself;
     ch_eq := ch_eq ch; effects := effects ch; isAudioClipChannel := isAudioClipChannel ch;
     isMuted := isMuted ch; isSoloed := isSoloed ch |}.

(** [patterns.findIndex(p => p.id === id)]; [None] stands for -1. *)
Fixpoint findPatternIndex (ps : list Pattern) (id : string) : option nat :=
  match ps with
  | [] => None
  | p :: rest => if String.eqb (pat_id p) id then Some 0%nat else S <$> findPatternIndex rest id
  end.

(** The updater of [handleSampleDrop]; [shouldCutItself] is known when the
    duration of the sample could be read. *)
Definition handleSampleDrop (activePatternId channelId : string) (s : Sample)
    (shouldCutItself : option bool) (currentPatterns : list Pattern) : list Pattern :=
  match findPatternIndex currentPatterns activePatternId with
  | None => currentPatterns
  | Some patternIndex =>
      match currentPatterns !! patternIndex with
      | None => currentPatterns
      | Some active =>
          match findIndex (channels active) channelId with
          | None => currentPatterns
          | Some _ =>
              map (λ p,
                if negb (String.eqb (pat_id p) activePatternId) then p
                else
                  let newChannels :=
                    map (λ ch,
                      if String.eqb (ch_id ch) channelId
                      then withSample ch s shouldCutItself else ch)
                      (channels p) in
                  withChannels p newChannels)
                currentPatterns
          end
      end
  end.

(** The updater of [handleDeleteAudioClip]: the channel of the clip leaves
    every pattern. *)
Definition removeClipChannel (clipChannelId : string) (patterns : list Pattern)
    : list Pattern :=
  map (λ p,
    withChannels p
      (filter (λ ch, negb (String.eqb (ch_id ch) clipChannelId) = true) (channels p)))
    patterns.

(** ** New patterns (the constants module) *)

(** [initialSample] *)
Definition initialSample (name : string) : Sample :=
  {| sample_name := name; sample_url := EmptyString |}.

(** One channel of [createFreshChannels]: number [n] of pattern [patternId]. *)
Definition freshChannel (patternId : string) (n : nat) (vol pan' : Qc) (cut : bool)
    : ChannelState :=
  {| ch_id := "ch-" ++ patternId ++ "-" ++ Js.numToString n;
     ch_name := "Channel " ++ Js.numToString n;
     sample := initialSample ("Channel " ++ Js.numToString n);
     steps := Js.zeros 128;
     notes := Some [];
     volume := vol; pan := pan'; cutItself := cut;
     ch_eq := defaultEQ;
     effects := replicate 6 None;
     isAudioClipChannel := None;
     isMuted := Some false; isSoloed := Some false |}.

Definition createFreshChannels (patternId : string) : list ChannelState :=
  [ freshChannel patternId 1 0 0 false;
    freshChannel patternId 2 0 0 false;
    freshChannel patternId 3 0 0 false;
    freshChannel patternId 4 (Qc_of_Z (-10)) 0 true;
    freshChannel patternId 5 0 0 true;
    freshChannel patternId 6 (Qc_of_Z (-5)) (Q2Qc (1 # 10)) false ].

(** The copy [createNewPattern] makes of channel [index] of the cloned list. *)
Definition cloneChannel (patternId : string) (index : nat) (channel : ChannelState)
    : ChannelState :=
  {| ch_id := "ch-" ++ patternId ++ "-" ++ Js.numToString (index + 1);
     ch_name := ch_name channel; sample := sample channel;
     steps := Js.zeros (length (steps channel));
     notes := Some [];
     volume := volume channel; pan := pan channel; cutItself := cutItself channel;
     ch_eq := ch_eq channel; effects := effects channel;
     isAudioClipChannel := isAudioClipChannel channel;
     isMuted := isMuted channel; isSoloed := isSoloed channel |}.

(** [createNewPattern]; [stamp] is the text of
    [`${Date.now()}-${Math.random()}`]. *)
Definition createNewPattern (stamp name : string) (channelsToClone : option (list ChannelState))
    : Pattern :=
  let patternId := "pattern-" ++ stamp in
  let newChannels :=
    match channelsToClone with
    | Some cs => mapi (cloneChannel patternId) cs
    | None => createFreshChannels patternId
    end in
  {| pat_id := patternId; pat_name := name; channels := newChannels; pat_length := 16 |}.

(** [handleAddPattern]: the new store; the new pattern becomes the active one. *)
Definition handleAddPattern (stamp activePatternId : string) (patterns : list Pattern)
    : list Pattern :=
  let newPatternName := "Pattern " ++ Js.numToString (length patterns + 1) in
  let currentActivePattern := findPattern patterns activePatternId in
  let newPattern := createNewPattern stamp newPatternName (channels <$> currentActivePattern) in
  patterns ++ [newPattern].

(** ** Generated step patterns (the MIDI service) *)

Inductive MidiPattern :=
| HiHat | TrapHiHat | Clap | FourOnTheFloor | HalfTimeClap1 | HalfTimeClap2 | Erase.

(** [for (let i = from; i < length; i += stride) steps[i] = 1], with the
    iterations left as fuel. *)
Fixpoint strideLoop (fuel from stride length : nat) (steps : list (option Z))
    : list (option Z) :=
  match fuel with
  | O => steps
  | S fuel' =>
      if bool_decide (from < length)%nat
      then strideLoop fuel' (from + stride) stride length (Js.set steps from 1)
      else steps
  end.

Section Random.
(** The values [Math.random()] returns, by the number of earlier calls. *)
Context (random : nat → Qc).

(** The roll loop of the trap hi-hat; [calls] counts the calls of
    [Math.random()] so far. *)
Fixpoint rollLoop (fuel i calls length : nat) (steps : list (option Z))
    : list (option Z) :=
  match fuel with
  | O => steps
  | S fuel' =>
      if bool_decide (i < length)%nat then
        if bool_decide (random calls < Q2Qc (15 # 100))%Qc then
          let rollType := random (calls + 1) in
          let roll :=
            if bool_decide (rollType < Q2Qc (1 # 2))%Qc then 2%Z
            else if bool_decide (rollType < Q2Qc (85 # 100))%Qc then 3%Z
            else 4%Z in
          rollLoop fuel' (i + 1 + 1) (calls + 2) length (Js.set steps i roll)
        else rollLoop fuel' (i + 1) (calls + 1) length steps
      else steps
  end.

Definition generateMidiPattern (pattern : MidiPattern) (length : nat) : list (option Z) :=
  let steps := Js.zeros length in
  match pattern with
  | HiHat => strideLoop length 0 2 length steps
  | TrapHiHat => rollLoop length 0 0 length (strideLoop length 0 2 length steps)
  | Clap => strideLoop length 4 8 length steps
  | FourOnTheFloor => strideLoop length 0 4 length steps
  | HalfTimeClap1 => strideLoop length 8 16 length steps
  | HalfTimeClap2 =>
      foldl (λ steps step, if bool_decide (step < length)%nat then Js.set steps step 1 else steps)
            steps [4; 12; 20; 31]%nat
  | Erase => Js.zeros length
  end.

(** [for (let i = 0; i < patternLength; i++) newSteps[i] = generatedPart[i] || 0] *)
Fixpoint copySteps (fuel i patternLength : nat) (generatedPart newSteps : list (option Z))
    : list (option Z) :=
  match fuel with
  | O => newSteps
  | S fuel' =>
      if bool_decide (i < patternLength)%nat
      then copySteps fuel' (i + 1) patternLength generatedPart
             (Js.set newSteps i (default 0%Z (Js.get generatedPart i)))
      else newSteps
  end.

(** The updater of [applyMidiPattern]; [patternLength] is the length of the
    active pattern as last rendered. *)
Definition applyMidiPattern (activePatternId channelId : string) (pattern : MidiPattern)
    (patternLength : nat) (currentPatterns : list Pattern) : list Pattern :=
  map (λ p,
    if negb (String.eqb (pat_id p) activePatternId) then p
    else
      let newChannels :=
        map (λ ch,
          if negb (String.eqb (ch_id ch) channelId) then ch
          else
            let generatedPart := generateMidiPattern pattern patternLength in
            let newSteps := copySteps patternLength 0 patternLength generatedPart (steps ch) in
            withStepsNotes ch newSteps [])
          (channels p) in
      withChannels p newChannels)
    currentPatterns.

End Random.

(** ** Pattern-mode playback (src/App.tsx) *)

Definition patternSequenceCallback (audioNodes : gset string) (noteDuration : Qc)
    (currentActivePattern : Pattern) (time : Qc) (step : nat) : list AudioCall :=
  flat_map (λ channel,
    let stepValue := Js.get (steps channel) step in
    triggerStep audioNodes noteDuration time stepValue channel)
    (channels currentActivePattern).

(** Every call of one pass of the pattern sequence over the steps
    [0 .. length - 1] of the active pattern; no sequence is built when the
    active id names no pattern. *)
Definition patternCalls (audioNodes : gset string) (noteDuration : Qc)
    (stepTime : nat → Qc) (currentPatterns : list Pattern) (activePatternId : string)
    : list AudioCall :=
  match findPattern currentPatterns activePatternId with
  | None => []
  | Some currentActivePattern =>
      flat_map (λ step,
        patternSequenceCallback audioNodes noteDuration currentActivePattern
          (stepTime step) step)
        (seq 0 (pat_length currentActivePattern))
  end.

(** ** Audio clips (src/App.tsx) *)

(** What [stopPlayback] does to the store at the end of a recording whose
    notes, after quantization, are [finalNotes]. *)
Definition stopPlaybackStore (activePatternId selectedChannelId : string)
    (finalNotes : list Note) (currentPatterns : list Pattern) : list Pattern :=
  if bool_decide (0 < length finalNotes)%nat
  then storeRecording activePatternId selectedChannelId finalNotes currentPatterns
  else currentPatterns.

(** The [onload] callback of [handleAddAudioClip] on the pattern store and
    the clip list; the stamps are the texts of the two
    [`${Date.now()}-${Math.random()}`]. *)
Definition handleAddAudioClip (channelStamp clipStamp : string) (s : Sample)
    (track' : nat) (startBar' durationInSeconds bpm : Qc)
    (state : list Pattern * list AudioClip) : list Pattern * list AudioClip :=
  let newChannel := createNewChannel channelStamp s true in
  let durationInBars' := (durationInSeconds / secondsPerBar bpm)%Qc in
  let newClip :=
    {| clip_id := "audioclip-" ++ clipStamp; channelId := ch_id newChannel;
       clip_sample := s; track := track'; startBar := startBar';
       durationInBars := durationInBars';
       trimStartBars := 0; trimDurationBars := durationInBars' |} in
  (handleAddChannel newChannel state.1, (state.2 ++ [newClip])%list).

(** [handleDeleteAudioClip] on the pattern store and the clip list. *)
Definition handleDeleteAudioClip (clipId : string)
    (state : list Pattern * list AudioClip) : list Pattern * list AudioClip :=
  match List.find (λ c, String.eqb (clip_id c) clipId) state.2 with
  | None => state
  | Some clipToDelete =>
      (removeClipChannel (channelId clipToDelete) state.1,
       filter (λ c, negb (String.eqb (clip_id c) clipId) = true) state.2)
  end.

(** ** The piano roll (PianoRoll component) *)

(** Pixel positions and the zoom are rationals, and the quotients of the
    handlers are taken exactly. *)
Module PianoRoll.

Definition NUM_OCTAVES : Z := 7.
Definition NUM_NOTES : Z := NUM_OCTAVES * 12.
Definition MIN_PITCH : Z := 24.
Definition MAX_PITCH : Z := MIN_PITCH + NUM_NOTES - 1.

Inductive SnapValue := Bar1 | Eighth | Sixteenth | ThirtySecond | SnapOff.

Definition getSnapStep (snap : SnapValue) : Qc :=
  match snap with
  | Bar1 => num 16
  | Eighth => num 2
  | Sixteenth => num 1
  | ThirtySecond => Q2Qc (1 # 2)
  | SnapOff => 0
  end.

Definition snap (value snapStep : Qc) : Qc :=
  if bool_decide (snapStep = 0)%Qc then value
  else (Qc_of_Z (Js.round (value / snapStep)) * snapStep)%Qc.

(** The notes made of the steps of a channel when the piano roll opens on
    a channel without notes; [stamp] gives the text of [Math.random()] in
    the id of the note of a step. *)
Definition notesFromSteps (stamp : nat → string) (steps : list (option Z)) : list Note :=
  concat (imap (λ stepIndex stepValue,
    match stepValue with
    | Some stepValue =>
        if bool_decide (0 < stepValue)%Z then
          [ {| note_id := "note-from-step-" ++ Js.numToString stepIndex ++ "-"
                          ++ stamp stepIndex;
               pitch := 48; start := num stepIndex; duration := 1;
               velocity := Q2Qc (3 # 4) |} ]
        else []
    | None => []
    end) steps).

(** The initial value of the [notes] state. *)
Definition initialNotes (stamp : nat → string) (channel : ChannelState) : list Note :=
  let initialNotes := default [] (notes channel) in
  if bool_decide (0 < length initialNotes)%nat then initialNotes
  else notesFromSteps stamp (steps channel).

(** The updater of [handleQuantize]. *)
Definition handleQuantize (snapValue : SnapValue) (prevNotes : list Note) : list Note :=
  let snapStep := getSnapStep snapValue in
  if bool_decide (snapStep = 0)%Qc then prevNotes
  else
    map (λ note,
      withStartDuration note (snap (start note) snapStep)
        (Js.max snapStep (snap (duration note) snapStep)))
      prevNotes.

(** The updater of [addNote]; [stamp] is the text of
    [`${Date.now()}-${Math.random()}`]. *)
Definition addNote (stamp : string) (snapValue : SnapValue) (pitch' : Z) (start' : Qc)
    (prev : list Note) : list Note :=
  let snapStep := getSnapStep snapValue in
  let newNote :=
    {| note_id := "note-" ++ stamp; pitch := pitch';
       start := snap start' snapStep;
       duration := if bool_decide (0 < snapStep)%Qc then snapStep else 1%Qc;
       velocity := Q2Qc (3 # 4) |} in
  (prev ++ [newNote])%list.

Definition deleteNote (noteId : string) (prev : list Note) : list Note :=
  filter (λ n, negb (String.eqb (note_id n) noteId) = true) prev.

(** [handleGridClick]; [x] and [y] are the position of the click in the
    scrolled grid, [stepWidth] and [noteHeight] the zoom (the sliders keep
    them within 10 to 80 and 10 to 40). *)
Definition handleGridClick (stamp : string) (snapValue : SnapValue) (patternLength : nat)
    (stepWidth noteHeight x y : Qc) (prev : list Note) : list Note :=
  let pitch' := (MAX_PITCH - Qfloor (y / noteHeight)%Qc)%Z in
  let start' := (x / stepWidth)%Qc in
  if bool_decide (start' < num patternLength)%Qc
  then addNote stamp snapValue pitch' start' prev
  else prev.

Inductive DragType := move | resize.

Record DragData := {
  drag_type : DragType;
  drag_noteId : string;
  startX : Qc;
  startY : Qc;
  originalStart : Qc;
  originalPitch : Z;
  originalDuration : Qc
}.

(** [handleMouseDown]: the drag data of a note. *)
Definition handleMouseDown (clientX clientY : Qc) (note : Note) (type : DragType)
    : DragData :=
  {| drag_type := type; drag_noteId := note_id note; startX := clientX; startY := clientY;
     originalStart := start note; originalPitch := pitch note;
     originalDuration := duration note |}.

Definition withStartPitchDuration (n : Note) (s : Qc) (p : Z) (d : Qc) : Note :=
  {| note_id := note_id n; pitch := p; start := s; duration := d; velocity := velocity n |}.

(** The updater of [handleMouseMove]; [None] is no drag in progress. *)
Definition handleMouseMove (dragData : option DragData) (clientX clientY : Qc)
    (stepWidth noteHeight : Qc) (snapValue : SnapValue) (prevNotes : list Note)
    : list Note :=
  match dragData with
  | None => prevNotes
  | Some d =>
      let deltaX := (clientX - startX d)%Qc in
      let deltaY := (clientY - startY d)%Qc in
      let snapStep := getSnapStep snapValue in
      map (λ note,
        if negb (String.eqb (note_id note) (drag_noteId d)) then note
        else
          match drag_type d with
          | move =>
              let startOffset := (deltaX / stepWidth)%Qc in
              let pitchOffset := Js.round (deltaY / noteHeight)%Qc in
              let newStart :=
                snap (Js.max 0%Qc (originalStart d + startOffset)%Qc) snapStep in
              let newPitch :=
                Z.max MIN_PITCH (Z.min MAX_PITCH (originalPitch d - pitchOffset)) in
              withStartPitchDuration note newStart newPitch (duration note)
          | resize =>
              let durationOffset := (deltaX / stepWidth)%Qc in
              let rawDuration := (originalDuration d + durationOffset)%Qc in
              let newDuration :=
                Js.max (if bool_decide (snapStep = 0)%Qc then Q2Qc (1 # 4) else snapStep)
                       (snap rawDuration snapStep) in
              withStartPitchDuration note (start note) (pitch note) newDuration
          end)
        prevNotes
  end.

End PianoRoll.

(** [channels.find(c => c.id === id)] *)
Definition findChannel (cs : list ChannelState) (id : string) : option ChannelState :=
  List.find (λ c, String.eqb (ch_id c) id) cs.

(** What mounting the piano roll on channel [editingChannelId] of the
    active pattern does to the store: the component is rendered for the
    channel [editingChannel], its notes state is initialised, and its
    effect hands that state to [handleUpdateChannelNotes]. *)
Definition mountPianoRoll (stamp : nat → string) (activePatternId editingChannelId : string)
    (patterns : list Pattern) : list Pattern :=
  match findPattern patterns activePatternId with
  | None => patterns
  | Some activePattern =>
      match findChannel (channels activePattern) editingChannelId with
      | None => patterns
      | Some editingChannel =>
          handleUpdateChannelNotes activePatternId (ch_id editingChannel)
            (PianoRoll.initialNotes stamp editingChannel) patterns
      end
  end.

(** ** The mute and solo effect (src/App.tsx) *)




(** ** Audio clips on the song grid (SongMode component) *)

Module SongMode.

Definition BAR_WIDTH_PX : Qc := num 80.

Inductive SnapMode := bar | grid | none.

Definition snapToGrid (snapMode : SnapMode) (bar' : Qc) : Qc :=
  match snapMode with
  | bar => Qc_of_Z (Js.round bar')
  | grid => (Qc_of_Z (Js.round (bar' * num 16)) / num 16)%Qc
  | none => bar'
  end.

Inductive TrimType := trimStart | trimEnd.

Record TrimData := {
  trim_type : TrimType;
  trim_startX : Qc;
  initialStartBar : Qc;
  initialTrimStartBars : Qc;
  initialTrimDurationBars : Qc
}.

(** [handleTrimStartMouseDown] and [handleTrimEndMouseDown]. *)
Definition handleTrimMouseDown (type : TrimType) (clip : AudioClip) (clientX : Qc)
    : TrimData :=
  {| trim_type := type; trim_startX := clientX;
     initialStartBar := startBar clip;
     initialTrimStartBars := trimStartBars clip;
     initialTrimDurationBars := trimDurationBars clip |}.

(** The fields of a [Partial<AudioClip>] the grid sends. *)
Record ClipPartial := {
  new_track : option nat;
  new_startBar : option Qc;
  new_trimStartBars : option Qc;
  new_trimDurationBars : option Qc
}.

(** [handleTrimMouseMove]: the update handed to [onUpdate], or [None] when
    the handler returns without one.  [clip] is the clip of the render
    whose handler was registered at mouse down, [snap] the grid snap. *)
Definition handleTrimMouseMove (clip : AudioClip) (snap : Qc → Qc)
    (trimData : option TrimData) (clientX : Qc) : option ClipPartial :=
  match trimData with
  | None => None
  | Some d =>
      let deltaX := (clientX - trim_startX d)%Qc in
      let deltaBars := (deltaX / BAR_WIDTH_PX)%Qc in
      match trim_type d with
      | trimStart =>
          let initialEndBar := (initialStartBar d + initialTrimDurationBars d)%Qc in
          let newStartBar := snap (initialStartBar d + deltaBars)%Qc in
          let newTrimStartBars :=
            (initialTrimStartBars d + (newStartBar - initialStartBar d))%Qc in
          let '(newTrimStartBars, newStartBar) :=
            if bool_decide (newTrimStartBars < 0)%Qc then
              let trimCorrection := (- newTrimStartBars)%Qc in
              (0%Qc, (newStartBar + trimCorrection)%Qc)
            else (newTrimStartBars, newStartBar) in
          let newTrimDurationBars := (initialEndBar - newStartBar)%Qc in
          if bool_decide (newTrimDurationBars ≤ Q2Qc (1 # 100))%Qc then None
          else Some {| new_track := None; new_startBar := Some newStartBar;
                       new_trimStartBars := Some newTrimStartBars;
                       new_trimDurationBars := Some newTrimDurationBars |}
      | trimEnd =>
          let initialEndBar := (startBar clip + initialTrimDurationBars d)%Qc in
          let newEndBar := snap (initialEndBar + deltaBars)%Qc in
          let newTrimDurationBars := (newEndBar - startBar clip)%Qc in
          if bool_decide (newTrimDurationBars ≤ Q2Qc (1 # 100))%Qc then None
          else
            let newTrimDurationBars :=
              if bool_decide (durationInBars clip < trimStartBars clip + newTrimDurationBars)%Qc
              then (durationInBars clip - trimStartBars clip)%Qc
              else newTrimDurationBars in
            Some {| new_track := None; new_startBar := None; new_trimStartBars := None;
                    new_trimDurationBars := Some newTrimDurationBars |}
      end
  end.

(** The update the drop of an existing clip sends. *)
Definition dropClip (snapMode : SnapMode) (finalTrack : nat) (x : Qc) : ClipPartial :=
  let bar' := (x / BAR_WIDTH_PX)%Qc in
  let snappedBar := snapToGrid snapMode bar' in
  {| new_track := Some finalTrack; new_startBar := Some snappedBar;
     new_trimStartBars := None; new_trimDurationBars := None |}.

End SongMode.

(** [{ ...c, ...newProps }] on a clip. *)
Definition spreadClip (c : AudioClip) (newProps : SongMode.ClipPartial) : AudioClip :=
  {| clip_id := clip_id c; channelId := channelId c; clip_sample := clip_sample c;
     track := default (track c) (SongMode.new_track newProps);
     startBar := default (startBar c) (SongMode.new_startBar newProps);
     durationInBars := durationInBars c;
     trimStartBars := default (trimStartBars c) (SongMode.new_trimStartBars newProps);
     trimDurationBars :=
       default (trimDurationBars c) (SongMode.new_trimDurationBars newProps) |}.

(** The updater of [handleUpdateAudioClip] (src/App.tsx). *)
Definition handleUpdateAudioClip (clipId : string) (newProps : SongMode.ClipPartial)
    (clips : list AudioClip) : list AudioClip :=
  map (λ c, if String.eqb (clip_id c) clipId then spreadClip c newProps else c) clips.

(** The call [renderSongToBuffer] makes for a clip whose player is loaded
    on a file of [totalDurationSeconds]:
    [player.start(startTime, offset, duration)], or none. *)
Definition clipStart (bpm totalDurationSeconds : Qc) (clip : AudioClip)
    : option (Qc * Qc * Qc) :=
  let startTimeInSeconds := (startBar clip * secondsPerBar bpm)%Qc in
  let offsetSeconds :=
    (trimStartBars clip / durationInBars clip * totalDurationSeconds)%Qc in
  let durationSeconds :=
    (trimDurationBars clip / durationInBars clip * totalDurationSeconds)%Qc in
  if bool_decide (0 < durationSeconds)%Qc
  then Some (startTimeInSeconds, offsetSeconds, durationSeconds)
  else None.

(** ** Recording from the typing keyboard (src/App.tsx) *)

(** [`${z}`] for an integer. *)
Definition intToString (z : Z) : string :=
  match z with
  | Z0 => "0"
  | Zpos p => Js.numToString (Pos.to_nat p)
  | Zneg p => "-" ++ Js.numToString (Pos.to_nat p)
  end.

Record NoteOn := { noteOn_startTime : Qc; noteOn_velocity : Qc }.

(** [activeNotes]: a [Map<number, ...>], as its entries in insertion order. *)
Definition mapGet (m : list (Z * NoteOn)) (k : Z) : option NoteOn :=
  snd <$> List.find (λ e, Z.eqb e.1 k) m.

Definition mapSet (m : list (Z * NoteOn)) (k : Z) (v : NoteOn) : list (Z * NoteOn) :=
  if bool_decide (is_Some (mapGet m k))
  then map (λ e, if Z.eqb e.1 k then (k, v) else e) m
  else (m ++ [(k, v)])%list.

Definition mapDelete (m : list (Z * NoteOn)) (k : Z) : list (Z * NoteOn) :=
  filter (λ e, Z.eqb e.1 k = false) m.

(** The two refs a recording fills. *)
Record Recorder := {
  activeNotes : list (Z * NoteOn);
  recordedNotes : list Note
}.

(** What the handlers read: [isRecordingRef.current], [selectedChannelId],
    [recordingStartTime.current] and [bpm]. *)
Record Session := {
  isRecording : bool;
  selectedChannelId : option string;
  recordingStartTime : Qc;
  session_bpm : Qc
}.

(** The recording part of [triggerTypingNote]; [seconds] is
    [Tone.Transport.seconds].  The attack on the sampler is not part of
    the state. *)
Definition triggerTypingNote (patterns : list Pattern) (s : Session) (seconds : Qc)
    (channelId' : string) (pitch' : Z) (velocity' : Qc) (r : Recorder) : Recorder :=
  match patterns with
  | [] => r
  | first :: _ =>
      match findChannel (channels first) channelId' with
      | None => r
      | Some _ =>
          if isRecording s
             && match selectedChannelId s with
                | Some id => Js.truthyString id
                | None => false
                end
             && bool_decide (0 < recordingStartTime s)%Qc
          then
            let secondsPer16th := (num 60 / session_bpm s / num 4)%Qc in
            let timeSinceStart := (seconds - recordingStartTime s)%Qc in
            let startStep := (timeSinceStart / secondsPer16th)%Qc in
            if bool_decide (0 ≤ startStep)%Qc then
              {| activeNotes :=
                   mapSet (activeNotes r) pitch'
                     {| noteOn_startTime := startStep; noteOn_velocity := velocity' |};
                 recordedNotes := recordedNotes r |}
            else r
          else r
      end
  end.

(** The recording part of [releaseTypingNote]; [now] is the text of
    [Date.now()]. *)
Definition releaseTypingNote (patterns : list Pattern) (s : Session) (seconds : Qc)
    (now : string) (channelId' : string) (pitch' : Z) (r : Recorder) : Recorder :=
  match patterns with
  | [] => r
  | first :: _ =>
      match findChannel (channels first) channelId' with
      | None => r
      | Some _ =>
          if isRecording s && bool_decide (0 < recordingStartTime s)%Qc then
            match mapGet (activeNotes r) pitch' with
            | None => r
            | Some noteOnData =>
                let secondsPer16th := (num 60 / session_bpm s / num 4)%Qc in
                let timeSinceStart := (seconds - recordingStartTime s)%Qc in
                let endStep := (timeSinceStart / secondsPer16th)%Qc in
                let duration' :=
                  Js.max (Q2Qc (1 # 10)) (endStep - noteOn_startTime noteOnData)%Qc in
                let newNote :=
                  {| note_id := "note-" ++ now ++ "-" ++ intToString pitch';
                     pitch := pitch'; start := noteOn_startTime noteOnData;
                     duration := duration'; velocity := noteOn_velocity noteOnData |} in
                {| activeNotes := mapDelete (activeNotes r) pitch';
                   recordedNotes := (recordedNotes r ++ [newNote])%list |}
            end
          else r
      end
  end.

(** The notes [stopPlayback] ends a recording with: the notes still held
    are closed at the stop time, and the whole is quantized. *)
Definition stopPlaybackNotes (s : Session) (stopTimeInSeconds : Qc) (now : string)
    (quantizeSnapValue : QuantizeSnapValue) (r : Recorder) : list Note :=
  let secondsPer16th := (num 60 / session_bpm s / num 4)%Qc in
  let stopStep := ((stopTimeInSeconds - recordingStartTime s) / secondsPer16th)%Qc in
  let closed :=
    map (λ '(pitch', noteOn),
      {| note_id := "note-" ++ now ++ "-" ++ intToString pitch';
         pitch := pitch'; start := noteOn_startTime noteOn;
         duration := Js.max (Q2Qc (1 # 10)) (stopStep - noteOn_startTime noteOn)%Qc;
         velocity := noteOn_velocity noteOn |})
      (activeNotes r) in
  let finalNotes := (recordedNotes r ++ closed)%list in
  match quantizeSnapValue with
  | SnapNone => finalNotes
  | _ => quantizeNotes finalNotes quantizeSnapValue
  end.

(** ** Piano-roll playback: the events of a channel's part (src/App.tsx) *)

Definition NOTE_NAMES : list string :=
  ["C"; "C#"; "D"; "D#"; "E"; "F"; "F#"; "G"; "G#"; "A"; "A#"; "B"].

(** [Math.trunc], which [%] rounds its quotient with. *)
Definition truncate (x : Qc) : Z :=
  if bool_decide (0 ≤ x)%Qc then Qfloor x else Qceiling x.

(** [x % m] on numbers. *)
Definition remainder (x m : Qc) : Qc := (x - m * Qc_of_Z (truncate (x / m)))%Qc.

(** [midiToNoteName]; an index outside the table reads as [undefined]. *)
Definition midiToNoteName (midi : Z) : string :=
  let octave := (midi / 12 - 1)%Z in
  let noteIndex := Z.rem midi 12 in
  let name :=
    if bool_decide (0 ≤ noteIndex)%Z then NOTE_NAMES !! Z.to_nat noteIndex else None in
  default "undefined" name ++ intToString octave.

(** An event of the part; its time is the text
    [`${bars}:${quarters}:${sixteenths}`] of the three numbers. *)
Record PartEvent := {
  event_bars : Z;
  event_quarters : Z;
  event_sixteenths : Qc;
  event_duration : Qc;
  event_note : string;
  event_velocity : Qc;
  event_originalDuration : Qc
}.

Definition noteEvent (bpm : Qc) (note : Note) : PartEvent :=
  let secondsPer16th := (num 60 / bpm / num 4)%Qc in
  let startIn16ths := start note in
  let bars := Qfloor (startIn16ths / num 16)%Qc in
  let quarters := Qfloor (remainder startIn16ths (num 16) / num 4)%Qc in
  let sixteenths := remainder startIn16ths (num 4) in
  {| event_bars := bars; event_quarters := quarters; event_sixteenths := sixteenths;
     event_duration := (duration note * secondsPer16th)%Qc;
     event_note := midiToNoteName (pitch note);
     event_velocity := velocity note;
     event_originalDuration := duration note |}.

(** The events of the part of a channel of the active pattern, when one is
    built: the channel has notes and its sampler is loaded. *)
Definition partEvents (loaded : gset string) (bpm : Qc) (channel : ChannelState)
    : option (list PartEvent) :=
  match notes channel with
  | Some ns =>
      if bool_decide (0 < length ns)%nat then
        if bool_decide (sample_name (sample channel) ∈ loaded)
        then Some (map (noteEvent bpm) ns)
        else None
      else None
  | None => None
  end.

(** ** WAV encoding (the audio utilities) *)

Module Wav.

(** An [AudioBuffer]: the samples of a [Float32Array] are rationals, [None]
    being [NaN]; the sample rate is a whole number. *)
Record AudioBuffer := {
  numberOfChannels : nat;
  sampleRate : Z;
  channelData : list (list (option Qc))
}.

(** [buffer.getChannelData(channel)]; [None] is the [IndexSizeError]. *)
Definition getChannelData (buffer : AudioBuffer) (channel : nat)
    : option (list (option Qc)) :=
  channelData buffer !! channel.

(** [a[i]] on a [Float32Array], as the value a typed array stores when it
    is assigned: [undefined] is stored as [NaN]. *)
Definition read (a : list (option Qc)) (i : nat) : option Qc := mjoin (a !! i).

(** The loop of [interleave]; a typed array ignores a write past its end. *)
Fixpoint interleaveLoop (fuel index inputIndex length : nat)
    (inputL inputR result : list (option Qc)) : list (option Qc) :=
  match fuel with
  | O => result
  | S fuel' =>
      if bool_decide (index < length)%nat then
        let result := <[index := read inputL inputIndex]> result in
        let result := <[(index + 1)%nat := read inputR inputIndex]> result in
        interleaveLoop fuel' (index + 1 + 1) (inputIndex + 1) length inputL inputR result
      else result
  end.

Definition interleave (inputL inputR : list (option Qc)) : list (option Qc) :=
  let length' := (length inputL + length inputR)%nat in
  let result := replicate length' (Some 0%Qc) in
  interleaveLoop length' 0 0 length' inputL inputR result.

(** The little-endian bytes of the low [8 * k] bits of an integer. *)
Definition littleEndian (k : nat) (value : Z) : list Z :=
  map (λ i, (value / 256 ^ Z.of_nat i) mod 256)%Z (seq 0 k).

(** [view.setUint8(byteOffset, value)] on the bytes of the view; [None] is
    the [RangeError]. *)
Definition setUint8 (view : list Z) (byteOffset : nat) (value : Z) : option (list Z) :=
  if bool_decide (byteOffset < length view)%nat
  then Some (<[byteOffset := (value mod 256)%Z]> view)
  else None.

(** Bytes written one after the other. *)
Fixpoint writeBytes (view : list Z) (byteOffset : nat) (bytes : list Z) : option (list Z) :=
  match bytes with
  | [] => Some view
  | b :: rest => view' ← setUint8 view byteOffset b; writeBytes view' (S byteOffset) rest
  end.

Definition setUint16 (view : list Z) (byteOffset : nat) (value : Z) : option (list Z) :=
  writeBytes view byteOffset (littleEndian 2 value).

Definition setUint32 (view : list Z) (byteOffset : nat) (value : Z) : option (list Z) :=
  writeBytes view byteOffset (littleEndian 4 value).

(** [view.setInt16(byteOffset, value, true)]: the number is truncated and
    taken modulo 2^16; [NaN] is written as 0. *)
Definition setInt16 (view : list Z) (byteOffset : nat) (value : option Qc)
    : option (list Z) :=
  writeBytes view byteOffset (littleEndian 2 (from_option truncate 0%Z value)).

Definition charCodes (str : string) : list Z :=
  map (λ c, Z.of_nat (nat_of_ascii c)) (list_ascii_of_string str).

(** [writeString]: [view.setUint8(offset + i, str.charCodeAt(i))]. *)
Definition writeString (view : list Z) (offset : nat) (str : string) : option (list Z) :=
  writeBytes view offset (charCodes str).

Definition minNumber (x y : Qc) : Qc := if bool_decide (y < x)%Qc then y else x.

(** The sample as the loop clamps it. *)
Definition clampSample (C : Qc) : Qc :=
  let C := if bool_decide (C < 0)%Qc then Js.max C (Qc_of_Z (-1)) else C in
  if bool_decide (0 < C)%Qc then minNumber C 1%Qc else C.

(** The loop that writes the PCM samples. *)
Fixpoint writeSamples (view : list Z) (offset : nat) (result : list (option Qc))
    : option (list Z) :=
  match result with
  | [] => Some view
  | C :: rest =>
      view' ← setInt16 view offset ((λ C, clampSample C * Qc_of_Z 32767)%Qc <$> C);
      writeSamples view' (offset + 2) rest
  end.

(** [bufferToWav]: the bytes of the blob. *)
Definition bufferToWav (buffer : AudioBuffer) : option (list Z) :=
  let numChannels := numberOfChannels buffer in
  let sampleRate' := sampleRate buffer in
  let format := 1%nat in
  let bitDepth := 16%nat in
  result ←
    (if Nat.eqb numChannels 2 then
       inputL ← getChannelData buffer 0;
       inputR ← getChannelData buffer 1;
       Some (interleave inputL inputR)
     else getChannelData buffer 0);
  let dataLength := (length result * (bitDepth / 8))%nat in
  let bufferLength := (44 + dataLength)%nat in
  let view := replicate bufferLength 0%Z in
  view ← writeString view 0 "RIFF";
  view ← setUint32 view 4 (Z.of_nat (36 + dataLength));
  view ← writeString view 8 "WAVE";
  view ← writeString view 12 "fmt ";
  view ← setUint32 view 16 16;
  view ← setUint16 view 20 (Z.of_nat format);
  view ← setUint16 view 22 (Z.of_nat numChannels);
  view ← setUint32 view 24 sampleRate';
  view ← setUint32 view 28 (sampleRate' * Z.of_nat numChannels * Z.of_nat (bitDepth / 8))%Z;
  view ← setUint16 view 32 (Z.of_nat (numChannels * (bitDepth / 8)));
  view ← setUint16 view 34 (Z.of_nat bitDepth);
  view ← writeString view 36 "data";
  view ← setUint32 view 40 (Z.of_nat dataLength);
  writeSamples view 44 result.

End Wav.

(** ** Vocabulary of the properties *)

(** The step value at step [k] of channel [j] of pattern [i]. *)
Definition stepAt (patterns : list Pattern) (i j k : nat) : option Z :=
  p ← patterns !! i; ch ← channels p !! j; Js.get (steps ch) k.

(** Channel [j] of pattern [i] is the one a step edit addresses. *)
Definition targets (patterns : list Pattern) (i j : nat) (activePatternId channelId : string)
    : Prop :=
  ∃ p ch, patterns !! i = Some p ∧ channels p !! j = Some ch
          ∧ pat_id p = activePatternId ∧ ch_id ch = channelId.

(** The value of a step after [n] toggles. *)
Definition toggled (n : nat) (v : option Z) : option Z :=
  Nat.iter n (λ v, Some (nextStepValue v)) v.

(** An edit of one step of the addressed channels, as both step handlers are. *)
Definition editStep (activePatternId channelId : string) (stepIndex : nat)
    (f : option Z → Z) (patterns : list Pattern) : list Pattern :=
  map (λ p,
    if negb (String.eqb (pat_id p) activePatternId) then p
    else withChannels p
      (map (λ ch,
         if negb (String.eqb (ch_id ch) channelId) then ch
         else withSteps ch (Js.set (steps ch) stepIndex (f (Js.get (steps ch) stepIndex))))
         (channels p)))
    patterns.

(** The index a channel edit addresses: that of the channel id in the first
    pattern of the store. *)
Definition masterIndex (patterns : list Pattern) (id : string) : option nat :=
  match patterns with
  | [] => None
  | first :: _ => findIndex (channels first) id
  end.

(** The store after channel [k] of every pattern went through [f]. *)
Definition updateAt (k : nat) (f : ChannelState → ChannelState) (patterns : list Pattern)
    : list Pattern :=
  map (λ p,
    withChannels p
      (mapi (λ index ch, if negb (Nat.eqb index k) then ch else f ch) (channels p)))
    patterns.

(** [patterns'] is [patterns] with [f] applied to channel [k] of every
    pattern and to nothing else. *)
Definition appliedAt (k : nat) (f : ChannelState → ChannelState)
    (patterns patterns' : list Pattern) : Prop :=
  length patterns' = length patterns
  ∧ ∀ i p, patterns !! i = Some p →
      ∃ p', patterns' !! i = Some p'
        ∧ pat_id p' = pat_id p ∧ pat_name p' = pat_name p ∧ pat_length p' = pat_length p
        ∧ length (channels p') = length (channels p)
        ∧ ∀ j ch, channels p !! j = Some ch →
            channels p' !! j = Some (if decide (j = k) then f ch else ch).

(** The mixer settings of a channel. *)
Definition mixer (ch : ChannelState)
    : Qc * Qc * EQState * list (option EffectState) * option bool * option bool :=
  (volume ch, pan ch, ch_eq ch, effects ch, isMuted ch, isSoloed ch).

(** The channel lists of all patterns have one length and, index by index,
    the same mixer settings. *)
Definition parallel (patterns : list Pattern) : Prop :=
  ∀ i1 i2 p1 p2, patterns !! i1 = Some p1 → patterns !! i2 = Some p2 →
    length (channels p1) = length (channels p2)
    ∧ ∀ j c1 c2, channels p1 !! j = Some c1 → channels p2 !! j = Some c2 →
        mixer c1 = mixer c2.

(** A channel is not muted and soloed at once. *)
Definition exclusive (ch : ChannelState) : Prop :=
  Js.truthy (isMuted ch) && Js.truthy (isSoloed ch) = false.

(** Every channel of every pattern satisfies [P]. *)
Definition allChannels (P : ChannelState → Prop) (patterns : list Pattern) : Prop :=
  ∀ i p j ch, patterns !! i = Some p → channels p !! j = Some ch → P ch.


Definition final {T} (fs : list (T → T)) (s : T) : T := foldl (λ s f, f s) s fs.

(** [y] is a multiple of the step that is as near to [x] as any. *)
Definition nearestMultiple (snapStep x y : Qc) : Prop :=
  ∃ k : Z, y = (Qc_of_Z k * snapStep)%Qc
           ∧ ∀ m : Z, (Qcabs (y - x) ≤ Qcabs (Qc_of_Z m * snapStep - x))%Qc.

(** A placement at [startBar] of pattern [p] covers [bar]. *)
Definition covers (startBar : nat) (p : Pattern) (bar : nat) : Prop :=
  (startBar ≤ bar)%nat ∧ (num bar < num startBar + lengthInBars p)%Qc.

(** The playlist places pattern [p] at [startBar] on [track]. *)
Definition placed (patterns : list Pattern) (playlist : gmap string string)
    (track startBar : nat) (p : Pattern) : Prop :=
  ∃ patternId, playlist !! playlistKey track startBar = Some patternId
               ∧ findPattern patterns patternId = Some p.

(** The bar ranges of a placement of [p] at [bar] and one of [existing] at
    [entryBar] intersect. *)
Definition intersects (bar : nat) (p : Pattern) (entryBar : nat) (existing : Pattern)
    : Prop :=
  (num bar < num entryBar + lengthInBars existing)%Qc
  ∧ (num entryBar < num bar + lengthInBars p)%Qc.

(** No two placements on one track cover a common bar. *)
Definition noOverlap (patterns : list Pattern) (playlist : gmap string string) : Prop :=
  ∀ track b1 b2 p1 p2 bar,
    placed patterns playlist track b1 p1 → placed patterns playlist track b2 p2 →
    covers b1 p1 bar → covers b2 p2 bar → b1 = b2.

(** Strings of decimal digits. *)
Definition isDigit (c : ascii) : Prop := is_Some (Js.digitValue c).

Fixpoint allDigits (s : string) : Prop :=
  match s with
  | EmptyString => True
  | String c rest => isDigit c ∧ allDigits rest
  end.

(** The entry of [track] at [searchBar] names the existing pattern
    [candidate], whose range, starting at or before [currentBar], reaches
    beyond [currentBar]. *)
Definition entryMatches (patterns : list Pattern) (playlist : gmap string string)
    (currentBar track searchBar : nat) (candidate : Pattern) : Prop :=
  ∃ patternId, playlist !! playlistKey track searchBar = Some patternId
    ∧ patternId ≠ EmptyString
    ∧ findPattern patterns patternId = Some candidate
    ∧ (searchBar ≤ currentBar)%nat
    ∧ (num currentBar < num searchBar + lengthInBars candidate)%Qc.

(** The first match of the backward scan of [track] from [currentBar]. *)
Definition firstOnTrack (patterns : list Pattern) (playlist : gmap string string)
    (currentBar track startBar : nat) (candidate : Pattern) : Prop :=
  entryMatches patterns playlist currentBar track startBar candidate
  ∧ ∀ s c, (startBar < s ≤ currentBar)%nat →
           ¬ entryMatches patterns playlist currentBar track s c.

(** The test the scan applies at one bar. *)
Definition matchAt (patterns : list Pattern) (playlist : gmap string string)
    (track currentBar searchBar : nat) : option (Pattern * nat) :=
  match playlist !! playlistKey track searchBar with
  | Some patternId =>
      if Js.truthyString patternId then
        match findPattern patterns patternId with
        | Some candidatePattern =>
            if bool_decide (num currentBar < num searchBar + lengthInBars candidatePattern)%Qc
            then Some (candidatePattern, searchBar)
            else None
        | None => None
        end
      else None
  | None => None
  end.

(** The time the transport hands to the callback of step [k] when swing is
    off: [k] 16th notes after the start. *)
Definition stepTime (bpm : Qc) (k : nat) : Qc := (num k * secondsPer16th bpm)%Qc.

(** The attacks of one pass of live song playback at tempo [bpm], without
    swing, every sampled channel having its audio nodes. *)
Definition liveSong (patterns : list Pattern) (playlist : gmap string string) (bpm : Qc)
    : list AudioCall :=
  songCalls (songSamplers patterns) (secondsPer16th bpm) (stepTime bpm) patterns playlist.

(** The channel carries no piano-roll notes. *)
Definition noNotes (ch : ChannelState) : Prop :=
  match notes ch with
  | Some ns => length ns = 0%nat
  | None => True
  end.

(** A pattern song mode and the export treat alike: whole bars, and
    sampled channels without notes whose steps span the pattern. *)
Definition playable (p : Pattern) : Prop :=
  (pat_length p mod 16 = 0)%nat
  ∧ ∀ ch, ch ∈ channels p → Js.truthy (isAudioClipChannel ch) = false →
      (pat_length p ≤ length (steps ch))%nat ∧ noNotes ch.

(** Every entry that names an existing pattern has a key written by the
    grid, on one of the 32 tracks, ends within the 72 bars of the song, and
    names a playable pattern by a non-empty id. *)
Definition arranged (patterns : list Pattern) (playlist : gmap string string) : Prop :=
  ∀ key patternId p,
    playlist !! key = Some patternId → findPattern patterns patternId = Some p →
    patternId ≠ EmptyString ∧ playable p
    ∧ ∃ t b, key = playlistKey t b ∧ (t < 32)%nat
             ∧ (b * 16 + pat_length p ≤ songLengthSteps)%nat.

(** No bar is covered by two placements, on whatever tracks. *)
Definition singleCover (patterns : list Pattern) (playlist : gmap string string) : Prop :=
  ∀ t1 b1 p1 t2 b2 p2 bar,
    placed patterns playlist t1 b1 p1 → placed patterns playlist t2 b2 p2 →
    covers b1 p1 bar → covers b2 p2 bar → t1 = t2 ∧ b1 = b2.

(** ** Vocabulary of the further properties *)

Section EditVocabulary.
Context (random : nat → Qc).

(** The edits of the step data of the store. *)
Inductive StepEdit :=
| Toggle (activePatternId channelId : string) (stepIndex : nat)
| Subdivide (activePatternId channelId : string) (stepIndex : nat)
| SetLength (activePatternId : string) (newLength : nat)
| Clear (activePatternId : string)
| SetNotes (activePatternId channelId : string) (notes : list Note)
| ArmRecording (activePatternId channelId : string)
| StoreRecording (activePatternId channelId : string) (finalNotes : list Note)
| ApplyMidi (activePatternId channelId : string) (pattern : MidiPattern) (patternLength : nat)
| DropSample (activePatternId channelId : string) (s : Sample) (shouldCutItself : option bool).

Definition applyEdit (e : StepEdit) (patterns : list Pattern) : list Pattern :=
  match e with
  | Toggle a c i => handleStepToggle a c i patterns
  | Subdivide a c i => handleStepSubdivide a c i patterns
  | SetLength a n => handlePatternLengthChange a n patterns
  | Clear a => handleClearPattern a patterns
  | SetNotes a c ns => handleUpdateChannelNotes a c ns patterns
  | ArmRecording a c => clearForRecording a c patterns
  | StoreRecording a c ns => storeRecording a c ns patterns
  | ApplyMidi a c m n => applyMidiPattern random a c m n patterns
  | DropSample a c s cut => handleSampleDrop a c s cut patterns
  end.

Definition applyEdits (es : list StepEdit) (patterns : list Pattern) : list Pattern :=
  foldl (λ ps e, applyEdit e ps) patterns es.

End EditVocabulary.

(** Channel [c'] is channel [c] with its identity and mixer settings, and
    with a steps array that is not shorter. *)
Definition channelGrows (c c' : ChannelState) : Prop :=
  ch_id c' = ch_id c ∧ mixer c' = mixer c
  ∧ isAudioClipChannel c' = isAudioClipChannel c
  ∧ (length (steps c) ≤ length (steps c'))%nat.

Definition patternGrows (p p' : Pattern) : Prop :=
  pat_id p' = pat_id p ∧ pat_name p' = pat_name p
  ∧ Forall2 channelGrows (channels p) (channels p').

Definition storeGrows (patterns patterns' : list Pattern) : Prop :=
  Forall2 patternGrows patterns patterns'.

(** Every sampled channel has steps for the whole of its pattern. *)
Definition stepsCover (patterns : list Pattern) : Prop :=
  ∀ p ch, p ∈ patterns → ch ∈ channels p →
    Js.truthy (isAudioClipChannel ch) = false →
    (pat_length p ≤ length (steps ch))%nat.

(** The sampled channels of one pattern have steps for the whole of it. *)
Definition patternCovered (p : Pattern) : Prop :=
  ∀ ch, ch ∈ channels p → Js.truthy (isAudioClipChannel ch) = false →
    (pat_length p ≤ length (steps ch))%nat.

(** The attacks of one pass of live pattern playback of [p] at tempo [bpm],
    without swing, the sampled channels having their audio nodes. *)
Definition livePattern (p : Pattern) (bpm : Qc) : list AudioCall :=
  flat_map (λ step,
    patternSequenceCallback (patternSamplers p) (secondsPer16th bpm) p (stepTime bpm step) step)
    (seq 0 (pat_length p)).

(** Every channel is a sampled channel without piano-roll notes. *)
Definition stepDriven (p : Pattern) : Prop :=
  ∀ ch, ch ∈ channels p → Js.truthy (isAudioClipChannel ch) = false ∧ noNotes ch.

(** No channel of the store has the id [id]. *)
Definition unusedChannelId (id : string) (patterns : list Pattern) : Prop :=
  ∀ p ch, p ∈ patterns → ch ∈ channels p → ch_id ch ≠ id.

(** No clip of the list has the id [id]. *)
Definition unusedClipId (id : string) (clips : list AudioClip) : Prop :=
  ∀ c, c ∈ clips → clip_id c ≠ id.

(** The channel ids of a pattern are pairwise distinct. *)
Definition distinctIds (p : Pattern) : Prop :=
  ∀ j1 j2 c1 c2, channels p !! j1 = Some c1 → channels p !! j2 = Some c2 →
    ch_id c1 = ch_id c2 → j1 = j2.

(** The closed form of the fixed generated patterns: whether step [i] is a
    hit (for the trap hi-hat: of its base pattern). *)
Definition hitAt (pattern : MidiPattern) (i : nat) : bool :=
  match pattern with
  | HiHat | TrapHiHat => Nat.eqb (i mod 2) 0
  | Clap => Nat.eqb (i mod 8) 4
  | FourOnTheFloor => Nat.eqb (i mod 4) 0
  | HalfTimeClap1 => Nat.eqb (i mod 16) 8
  | HalfTimeClap2 => bool_decide (i ∈ [4; 12; 20; 31]%nat)
  | Erase => false
  end.

Definition hitValue (pattern : MidiPattern) (i : nat) : Z :=
  if hitAt pattern i then 1%Z else 0%Z.

(** A step value that stands for a roll. *)
Definition isRoll (v : Z) : Prop := v = 2%Z ∨ v = 3%Z ∨ v = 4%Z.

(** Channel [j] of pattern [i]. *)
Definition channelAt (patterns : list Pattern) (i j : nat) : option ChannelState :=
  p ← patterns !! i; channels p !! j.

(** The states a history holds, oldest first: the past, the present and
    the future. *)
Definition timeline {T} (h : HistoryState T) : list T :=
  (past h ++ present h :: future h)%list.

(** A note the piano roll can show: it starts at or after the start of the
    pattern, lasts, and lies on one of the rows of the grid. *)
Definition wellFormedNote (n : Note) : Prop :=
  (0 ≤ start n)%Qc ∧ (0 < duration n)%Qc
  ∧ (PianoRoll.MIN_PITCH ≤ pitch n ≤ PianoRoll.MAX_PITCH)%Z.

(** The edits of the piano roll. *)
Inductive RollEdit :=
| RollQuantize (snapValue : PianoRoll.SnapValue)
| RollClick (stamp : string) (snapValue : PianoRoll.SnapValue) (patternLength : nat)
    (stepWidth noteHeight x y : Qc)
| RollDelete (noteId : string)
| RollDrag (dragData : option PianoRoll.DragData) (clientX clientY stepWidth noteHeight : Qc)
    (snapValue : PianoRoll.SnapValue).

Definition applyRollEdit (e : RollEdit) (notes : list Note) : list Note :=
  match e with
  | RollQuantize s => PianoRoll.handleQuantize s notes
  | RollClick stamp s L w h x y => PianoRoll.handleGridClick stamp s L w h x y notes
  | RollDelete id => PianoRoll.deleteNote id notes
  | RollDrag d cx cy w h s => PianoRoll.handleMouseMove d cx cy w h s notes
  end.

Definition applyRollEdits (es : list RollEdit) (notes : list Note) : list Note :=
  foldl (λ ns e, applyRollEdit e ns) notes es.

(** The zoom is positive, and a click lies within the grid. *)
Definition inGrid (e : RollEdit) : Prop :=
  match e with
  | RollClick _ _ _ w h x y =>
      (0 < w)%Qc ∧ (0 < h)%Qc ∧ (0 ≤ x)%Qc ∧ (0 ≤ y)%Qc
      ∧ (y < Qc_of_Z PianoRoll.NUM_NOTES * h)%Qc
  | RollDrag _ _ _ w h _ => (0 < w)%Qc ∧ (0 < h)%Qc
  | _ => True
  end.

(** The indices of the steps that hold a hit, in increasing order. *)
Definition hitIndices (steps : list (option Z)) : list nat :=
  filter (λ i, match Js.get steps i with
               | Some v => bool_decide (0 < v)%Z
               | None => false
               end = true)
         (seq 0 (length steps)).


(** The trim of a clip lies within its audio file and shows more than a
    hundredth of a bar. *)
Definition validClip (c : AudioClip) : Prop :=
  (0 ≤ trimStartBars c)%Qc ∧ (Q2Qc (1 # 100) < trimDurationBars c)%Qc
  ∧ (trimStartBars c + trimDurationBars c ≤ durationInBars c)%Qc.

(** The key events of a take, each with the transport time at which it
    happens. *)
Inductive KeyEvent :=
| KeyDown (seconds : Qc) (channelId : string) (pitch : Z) (velocity : Qc)
| KeyUp (seconds : Qc) (now : string) (channelId : string) (pitch : Z).

Definition keyEvent (patterns : list Pattern) (s : Session) (e : KeyEvent) (r : Recorder)
    : Recorder :=
  match e with
  | KeyDown seconds channelId pitch velocity =>
      triggerTypingNote patterns s seconds channelId pitch velocity r
  | KeyUp seconds now channelId pitch =>
      releaseTypingNote patterns s seconds now channelId pitch r
  end.

(** The recorder after a run of key events. *)
Definition recordEvents (patterns : list Pattern) (s : Session) (es : list KeyEvent)
    (r : Recorder)
    : Recorder :=
  foldl (λ r e, keyEvent patterns s e r) r es.

Definition emptyRecorder : Recorder := {| activeNotes := []; recordedNotes := [] |}.

Definition isKeyDown (e : KeyEvent) : bool :=
  match e with KeyDown _ _ _ _ => true | KeyUp _ _ _ _ => false end.

Definition keyDowns (es : list KeyEvent) : nat :=
  length (filter (λ e, isKeyDown e = true) es).

Definition eventChannel (e : KeyEvent) : string :=
  match e with
  | KeyDown _ channelId _ _ => channelId
  | KeyUp _ _ channelId _ => channelId
  end.

(** The channel an id names in the first pattern of the store. *)
Definition masterChannel (patterns : list Pattern) (id : string) : option ChannelState :=
  match patterns with
  | [] => None
  | first :: _ => findChannel (channels first) id
  end.

(** A note that starts at or after 0 and lasts. *)
Definition wellTimed (n : Note) : Prop := (0 ≤ start n)%Qc ∧ (0 < duration n)%Qc.

(** What a run of key events keeps true of the recorder: the notes held
    and the notes recorded start at or after 0, the recorded ones last at
    least a tenth of a step, and there are at most [n] of both. *)
Definition recorderInv (n : nat) (r : Recorder) : Prop :=
  Forall (λ e, (0 ≤ noteOn_startTime e.2)%Qc) (activeNotes r)
  ∧ Forall (λ n, (0 ≤ start n)%Qc ∧ (Q2Qc (1 # 10) ≤ duration n)%Qc) (recordedNotes r)
  ∧ (length (activeNotes r) + length (recordedNotes r) ≤ n)%nat.

(** The position in sixteenths a transport time of bars, quarters and
    sixteenths denotes in 4/4. *)
Definition positionIn16ths (e : PartEvent) : Qc :=
  (Qc_of_Z (event_bars e) * num 16 + Qc_of_Z (event_quarters e) * num 4
   + event_sixteenths e)%Qc.

(** The unsigned integer that [k] little-endian bytes at [offset] denote,
    and the signed reading of two of them. *)
Definition readUint (k : nat) (bytes : list Z) (offset : nat) : Z :=
  foldr (λ b acc, b + 256 * acc)%Z 0%Z (take k (drop offset bytes)).

Definition readInt16 (bytes : list Z) (offset : nat) : Z :=
  let u := readUint 2 bytes offset in
  if bool_decide (u < 32768)%Z then u else (u - 65536)%Z.

Definition readText (k : nat) (bytes : list Z) (offset : nat) : list Z :=
  take k (drop offset bytes).

(** An audio buffer of [frames] frames: it has a channel, as many channel
    arrays as it says, and all are [frames] long. *)
Definition wellFormedBuffer (buffer : Wav.AudioBuffer) (frames : nat) : Prop :=
  (1 ≤ Wav.numberOfChannels buffer)%nat
  ∧ length (Wav.channelData buffer) = Wav.numberOfChannels buffer
  ∧ Forall (λ ch, length ch = frames) (Wav.channelData buffer).

(** The number of samples [bufferToWav] writes. *)
Definition writtenSamples (buffer : Wav.AudioBuffer) (frames : nat) : nat :=
  if Nat.eqb (Wav.numberOfChannels buffer) 2 then (2 * frames)%nat else frames.

Definition isByte (b : Z) : Prop := (0 ≤ b < 256)%Z.

(** The two bytes a sample is written as. *)
Definition encodeSample (C : option Qc) : list Z :=
  Wav.littleEndian 2
    (from_option truncate 0%Z ((λ C, Wav.clampSample C * Qc_of_Z 32767)%Qc <$> C)).

(** The 44 bytes before the samples, in the order they are written. *)
Definition headerLayout (buffer : Wav.AudioBuffer) (dataLength : nat) : list Z :=
  (Wav.charCodes "RIFF"
   ++ Wav.littleEndian 4 (Z.of_nat (36 + dataLength))
   ++ Wav.charCodes "WAVE"
   ++ Wav.charCodes "fmt "
   ++ Wav.littleEndian 4 16
   ++ Wav.littleEndian 2 1
   ++ Wav.littleEndian 2 (Z.of_nat (Wav.numberOfChannels buffer))
   ++ Wav.littleEndian 4 (Wav.sampleRate buffer)
   ++ Wav.littleEndian 4 (Wav.sampleRate buffer * Z.of_nat (Wav.numberOfChannels buffer) * 2)
   ++ Wav.littleEndian 2 (Z.of_nat (Wav.numberOfChannels buffer * 2))
   ++ Wav.littleEndian 2 16
   ++ Wav.charCodes "data"
   ++ Wav.littleEndian 4 (Z.of_nat dataLength))%list.

(** The samples [bufferToWav] writes, in order: left and right in turn for
    two channels, the first channel alone otherwise. *)
Definition samplesOf (buffer : Wav.AudioBuffer) (result : list (option Qc)) : Prop :=
  if Nat.eqb (Wav.numberOfChannels buffer) 2 then
    ∃ inputL inputR,
      Wav.channelData buffer !! 0%nat = Some inputL
      ∧ Wav.channelData buffer !! 1%nat = Some inputR
      ∧ result = Wav.interleave inputL inputR
  else Wav.channelData buffer !! 0%nat = Some result.

(** ** Example project states *)

Definition kick : Sample := {| sample_name := "kick"; sample_url := "kick.wav" |}.
Definition snare : Sample := {| sample_name := "snare"; sample_url := "snare.wav" |}.

(** A channel as [createFreshChannels] builds it, with a sample and steps. *)
Definition demoChannel (id : string) (s : Sample) (st : list (option Z)) : ChannelState :=
  {| ch_id := id; ch_name := sample_name s; sample := s; steps := st; notes := Some [];
     volume := 0; pan := 0; cutItself := false; ch_eq := defaultEQ;
     effects := replicate 6 None; isAudioClipChannel := None;
     isMuted := Some false; isSoloed := Some false |}.

(** Pattern A: two bars, a kick on the first step. *)
Definition patternA : Pattern :=
  {| pat_id := "A"; pat_name := "Pattern A";
     channels := [demoChannel "ch-A-1" kick (Some 1%Z :: Js.zeros 31)];
     pat_length := 32 |}.

(** Pattern B: one bar, a snare on the first step. *)
Definition patternB : Pattern :=
  {| pat_id := "B"; pat_name := "Pattern B";
     channels := [demoChannel "ch-B-1" snare (Some 1%Z :: Js.zeros 15)];
     pat_length := 16 |}.

Definition demoStore : list Pattern := [patternA; patternB].

(** A one-bar pattern whose only channel has the 128 steps of a new channel. *)
Definition patternH : Pattern :=
  {| pat_id := "H"; pat_name := "Pattern H";
     channels := [createNewChannel "1" kick false];
     pat_length := 16 |}.

(** The store after the pattern was grown to two bars, step 20 was
    toggled on, and the pattern was cut back to one bar. *)
Definition shrunkStore : list Pattern :=
  handlePatternLengthChange "H" 16
    (handleStepToggle "H" "channel-1" 20
       (handlePatternLengthChange "H" 32 [patternH])).

(** A volume change, as the mixer strip issues it. *)
Definition louder : ChannelPartial :=
  {| new_id := None; new_name := None; new_sample := None; new_steps := None;
     new_notes := None; new_volume := Some (Qc_of_Z (-6)); new_pan := None;
     new_cutItself := None; new_eq := None; new_effects := None;
     new_isAudioClipChannel := None; new_isMuted := None; new_isSoloed := None |}.



(** A recorded note with start 3.3 and duration 1.7. *)
Definition recordedNote : Note :=
  {| note_id := "note-1"; pitch := 60; start := Q2Qc (33 # 10);
     duration := Q2Qc (17 # 10); velocity := Q2Qc (4 # 5) |}.

(** The playlist of the song resolution example: A (two bars) at bar 0 and
    B (one bar) at bar 4, both on track 0. *)
Definition demoPlaylist : gmap string string :=
  <[playlistKey 0 4 := "B"]> (<[playlistKey 0 0 := "A"]> ∅).

(** A one-bar pattern with a kick on the second 16th (step index 1). *)
Definition offbeatPattern : Pattern :=
  {| pat_id := "O"; pat_name := "Offbeat";
     channels := [demoChannel "ch-O-1" kick (Some 0%Z :: Some 1%Z :: Js.zeros 14)];
     pat_length := 16 |}.

(** Two tracks that both start a pattern at bar 0. *)
Definition layeredPlaylist : gmap string string :=
  <[playlistKey 1 0 := "B"]> (<[playlistKey 0 0 := "A"]> ∅).

(** Edits of the example store: a longer pattern A, a hit beyond its old
    end, a generated clap. *)
Definition demoEdits : list StepEdit :=
  [SetLength "A" 64; Toggle "A" "ch-A-1" 40; ApplyMidi "B" "ch-B-1" Clap 16; Clear "A"].

(** A session in the piano roll at the default zoom: a click at step 2.4
    of row 5, a drag, a quantization to eighths. *)
Definition demoRollEdits : list RollEdit :=
  [ RollClick "1" PianoRoll.Sixteenth 16 (num 25) (num 20) (num 60) (num 100);
    RollDrag (Some {| PianoRoll.drag_type := PianoRoll.move;
                      PianoRoll.drag_noteId := "note-1";
                      PianoRoll.startX := num 60; PianoRoll.startY := num 100;
                      PianoRoll.originalStart := num 2; PianoRoll.originalPitch := 102;
                      PianoRoll.originalDuration := num 1 |})
             (num 10) (num 400) (num 25) (num 20) PianoRoll.Sixteenth;
    RollQuantize PianoRoll.Eighth ].

(** A four-bar audio clip at bar 2 of track 1, untrimmed. *)
Definition demoClip : AudioClip :=
  {| clip_id := "audioclip-1"; channelId := "channel-9"; clip_sample := kick;
     track := 1; startBar := num 2; durationInBars := num 4;
     trimStartBars := 0; trimDurationBars := num 4 |}.

(** A stereo buffer of two frames: one channel overshoots, the other holds
    a [NaN]. *)
Definition demoBuffer : Wav.AudioBuffer :=
  {| Wav.numberOfChannels := 2; Wav.sampleRate := 44100;
     Wav.channelData := [ [Some (Q2Qc (1 # 2)); Some (Q2Qc (-3 # 2))];
                          [None; Some (Q2Qc (1 # 4))] ] |}.

(** * Properties *)

(** A decidable closed fact, settled by evaluation. *)
Ltac by_evaluation :=
  match goal with |- ?P => apply (bool_decide_eq_true_1 P) end; vm_compute; reflexivity.

(** ** Lists and arrays *)

Lemma map_is_fmap {A B} (f : A → B) (l : list A) : map f l = f <$> l.
Proof. induction l as [|x l IH]; simpl; [done | by rewrite IH]. Qed.

Lemma lookup_map {A B} (f : A → B) (l : list A) (i : nat) :
  map f l !! i = f <$> l !! i.
Proof. rewrite map_is_fmap. apply list_lookup_fmap. Qed.

Lemma get_set_eq (a : list (option Z)) (i : nat) (v : Z) :
  Js.get (Js.set a i v) i = Some v.
Proof.
  unfold Js.get, Js.set. case_bool_decide as Hi.
  - by rewrite list_lookup_insert_eq.
  - rewrite lookup_app_r by lia. rewrite lookup_app_r; rewrite length_replicate; [|lia].
    by replace (i - length a - (i - length a))%nat with 0%nat by lia.
Qed.

Lemma get_set_ne (a : list (option Z)) (i j : nat) (v : Z) :
  i ≠ j → Js.get (Js.set a i v) j = Js.get a j.
Proof.
  intros Hij. unfold Js.get, Js.set. case_bool_decide as Hi.
  - by rewrite list_lookup_insert_ne.
  - destruct (decide (j < length a)%nat) as [Hj|Hj].
    + by rewrite lookup_app_l.
    + rewrite (lookup_ge_None_2 a j) by lia. rewrite lookup_app_r by lia.
      destruct (decide (j < i)%nat) as [Hlt|Hge].
      * rewrite lookup_app_l by (rewrite length_replicate; lia).
        rewrite lookup_replicate_2 by lia. done.
      * rewrite lookup_ge_None_2; [done|].
        rewrite length_app, length_replicate. simpl. lia.
Qed.

Lemma length_set (a : list (option Z)) (i : nat) (v : Z) :
  length (Js.set a i v) = Nat.max (length a) (S i).
Proof.
  unfold Js.set. case_bool_decide.
  - rewrite length_insert. lia.
  - rewrite !length_app, length_replicate. simpl. lia.
Qed.

(** ** Step toggling *)

Section StepEdits.
Context (activePatternId channelId : string) (stepIndex : nat).
Local Abbreviation editStep := (editStep activePatternId channelId stepIndex).

Lemma toggle_is_edit patterns :
  handleStepToggle activePatternId channelId stepIndex patterns
  = editStep nextStepValue patterns.
Proof. reflexivity. Qed.

Lemma subdivide_is_edit patterns :
  handleStepSubdivide activePatternId channelId stepIndex patterns
  = editStep (λ _, 0%Z) patterns.
Proof. reflexivity. Qed.

Lemma editStep_targets f patterns i j :
  targets patterns i j activePatternId channelId →
  targets (editStep f patterns) i j activePatternId channelId.
Proof.
  intros (p & ch & Hp & Hch & Hpid & Hcid). unfold editStep, targets.
  rewrite lookup_map, Hp. simpl.
  rewrite Hpid, String.eqb_refl. simpl.
  eexists _, _. split; [done|]. simpl.
  rewrite lookup_map, Hch. simpl.
  rewrite Hcid, String.eqb_refl. simpl. done.
Qed.

Lemma editStep_stepAt f patterns i j :
  targets patterns i j activePatternId channelId →
  stepAt (editStep f patterns) i j stepIndex
  = Some (f (stepAt patterns i j stepIndex)).
Proof.
  intros (p & ch & Hp & Hch & Hpid & Hcid). unfold stepAt, editStep.
  rewrite lookup_map, Hp. simpl.
  rewrite Hpid, String.eqb_refl. simpl.
  rewrite lookup_map, Hch. simpl.
  rewrite Hcid, String.eqb_refl. simpl.
  by rewrite get_set_eq.
Qed.

Lemma editStep_other_step f patterns i j k :
  k ≠ stepIndex →
  stepAt (editStep f patterns) i j k = stepAt patterns i j k.
Proof.
  intros Hk. unfold stepAt, editStep. rewrite lookup_map.
  destruct (patterns !! i) as [p|]; [|done]. simpl.
  destruct (String.eqb (pat_id p) activePatternId); simpl; [|done].
  rewrite lookup_map. destruct (channels p !! j) as [ch|]; [|done]. simpl.
  destruct (String.eqb (ch_id ch) channelId); simpl; [|done].
  by rewrite get_set_ne.
Qed.

Lemma iter_toggle_targets n patterns i j :
  targets patterns i j activePatternId channelId →
  targets (Nat.iter n (handleStepToggle activePatternId channelId stepIndex) patterns)
          i j activePatternId channelId.
Proof.
  intros Ht. induction n as [|n IH]; [done|]. simpl.
  rewrite toggle_is_edit. by apply editStep_targets.
Qed.

End StepEdits.

Lemma toggled_cycle (n : nat) :
  toggled (S n) (Some 0%Z) = Some (nth (n mod 4) [1; 2; 4; 3]%Z 0%Z).
Proof.
  assert (H4 : ∀ m r, (r < 4)%nat →
    toggled (S (4 * m + r)) (Some 0%Z) = Some (nth r [1; 2; 4; 3]%Z 0%Z)).
  { induction m as [|m IH]; intros r Hr.
    - destruct r as [|[|[|[|r]]]]; try lia; reflexivity.
    - replace (S (4 * S m + r)) with (4 + S (4 * m + r))%nat by lia.
      unfold toggled in *. rewrite Nat.iter_add, (IH r Hr).
      destruct r as [|[|[|[|r]]]]; try lia; reflexivity. }
  rewrite (Nat.div_mod_eq n 4) at 1.
  apply H4. apply Nat.mod_upper_bound. lia.
Qed.

(** C3.  For every channel a step edit addresses and every step index, [n]
    toggles take the step through the cycle 0, 1, 2, 4, 3, 1, 2, ...: one
    toggle maps 0 to 1, 1 to 2, 2 to 4, 4 to 3 and 3 to 1, the other steps
    of the channel keep their values, and the subdivide reset leaves 0
    whatever the step held. *)
Theorem step_toggle_cycle (activePatternId channelId : string) (stepIndex : nat)
    (patterns : list Pattern) (i j : nat) :
  targets patterns i j activePatternId channelId →
  (∀ n, stepAt (Nat.iter n (handleStepToggle activePatternId channelId stepIndex) patterns)
               i j stepIndex
        = toggled n (stepAt patterns i j stepIndex))
  ∧ (nextStepValue (Some 0) = 1 ∧ nextStepValue (Some 1) = 2 ∧ nextStepValue (Some 2) = 4
     ∧ nextStepValue (Some 4) = 3 ∧ nextStepValue (Some 3) = 1)%Z
  ∧ (∀ n, toggled (S n) (Some 0%Z) = Some (nth (n mod 4) [1; 2; 4; 3]%Z 0%Z))
  ∧ (∀ k, k ≠ stepIndex →
       stepAt (handleStepToggle activePatternId channelId stepIndex patterns) i j k
       = stepAt patterns i j k)
  ∧ stepAt (handleStepSubdivide activePatternId channelId stepIndex patterns) i j stepIndex
    = Some 0%Z.
Proof.
  intros Ht. split; [|split; [|split; [|split]]].
  - induction n as [|n IH]; [done|]. simpl.
    rewrite toggle_is_edit, editStep_stepAt by (by apply iter_toggle_targets).
    by rewrite IH.
  - done.
  - apply toggled_cycle.
  - intros k Hk. rewrite toggle_is_edit. by apply editStep_other_step.
  - rewrite subdivide_is_edit. by apply editStep_stepAt.
Qed.

Lemma step_toggle_cycle_witness :
  targets demoStore 0 0 "A" "ch-A-1"
  ∧ stepAt (handleStepToggle "A" "ch-A-1" 0 demoStore) 0 0 1 = stepAt demoStore 0 0 1
  ∧ stepAt (handleStepSubdivide "A" "ch-A-1" 0 demoStore) 0 0 0 = Some 0%Z.
Proof.
  assert (Ht : targets demoStore 0 0 "A" "ch-A-1").
  { exists patternA, (demoChannel "ch-A-1" kick (Some 1%Z :: Js.zeros 31)).
    repeat split; reflexivity. }
  destruct (step_toggle_cycle "A" "ch-A-1" 0 demoStore 0 0 Ht)
    as (_ & _ & _ & Hother & Hreset).
  split; [exact Ht|]. split; [apply Hother; lia | exact Hreset].
Defined.

(** ** Pattern length *)

Lemma get_app_l (a b : list (option Z)) (k : nat) :
  (k < length a)%nat → Js.get (a ++ b) k = Js.get a k.
Proof. intros Hk. unfold Js.get. by rewrite lookup_app_l. Qed.

Lemma get_app_zeros (a : list (option Z)) (n k : nat) :
  (length a ≤ k < length a + n)%nat → Js.get (a ++ Js.zeros n) k = Some 0%Z.
Proof.
  intros Hk. unfold Js.get, Js.zeros. rewrite lookup_app_r by lia.
  rewrite lookup_replicate_2 by lia. done.
Qed.

(** C7, as the code has it.  Setting the length of the active pattern never
    truncates a steps array: the old array is a prefix of the new one.  A
    channel of the active pattern that is not an audio-clip channel is
    padded with zeros up to the new length when its array is shorter, so
    exactly the indices from the old array length on are set to 0; every
    other channel is returned as it was.  In particular, growing a pattern
    from 16 to 32 steps keeps indices 0-15 and leaves 0 at indices 16-31 of
    every such channel whose array held exactly 16 entries. *)
Theorem pattern_length_growth (activePatternId : string) (newLength : nat)
    (patterns : list Pattern) (i j : nat) (p : Pattern) (ch : ChannelState) :
  patterns !! i = Some p → channels p !! j = Some ch →
  ∃ p' ch',
    handlePatternLengthChange activePatternId newLength patterns !! i = Some p'
    ∧ channels p' !! j = Some ch'
    ∧ steps ch `prefix_of` steps ch'
    ∧ (pat_id p = activePatternId → pat_length p' = newLength)
    ∧ (pat_id p = activePatternId → Js.truthy (isAudioClipChannel ch) = false →
         length (steps ch') = Nat.max (length (steps ch)) newLength
         ∧ ∀ k, (length (steps ch) ≤ k < newLength)%nat → Js.get (steps ch') k = Some 0%Z)
    ∧ (pat_id p ≠ activePatternId ∨ Js.truthy (isAudioClipChannel ch) = true
       ∨ (newLength ≤ length (steps ch))%nat → ch' = ch)
    ∧ (pat_id p = activePatternId → Js.truthy (isAudioClipChannel ch) = false →
         length (steps ch) = 16%nat → newLength = 32%nat →
         (∀ k, (k < 16)%nat → Js.get (steps ch') k = Js.get (steps ch) k)
         ∧ (∀ k, (16 ≤ k < 32)%nat → Js.get (steps ch') k = Some 0%Z)).
Proof.
  intros Hp Hch. unfold handlePatternLengthChange.
  rewrite lookup_map, Hp. simpl.
  destruct (String.eqb_spec (pat_id p) activePatternId) as [Hid|Hid]; simpl.
  - eexists _, _. split; [done|]. simpl. rewrite lookup_map, Hch. simpl.
    split; [done|].
    destruct (Js.truthy (isAudioClipChannel ch)) eqn:Haudio.
    + split; [done|]. split; [done|]. do 2 (split; [by auto|]). done.
    + case_bool_decide as Hlen; simpl.
      * split; [by apply prefix_app_r|]. split; [done|].
        split; [|split].
        -- intros _ _. unfold Js.zeros. rewrite length_app, length_replicate.
           split; [lia|]. intros k Hk. apply get_app_zeros. lia.
        -- intros [?|[?|?]]; [done | done | lia].
        -- intros _ _ H16 ->. split.
           ++ intros k Hk. apply get_app_l. lia.
           ++ intros k Hk. apply get_app_zeros. lia.
      * split; [done|]. split; [done|]. split; [|split].
        -- intros _ _. split; [lia|]. intros k Hk. lia.
        -- done.
        -- intros _ _ H16 ->. lia.
  - eexists _, _. split; [done|]. split; [done|]. split; [done|].
    repeat split; intros; done.
Qed.

Lemma pattern_length_growth_witness :
  ∃ p' ch',
    handlePatternLengthChange "A" 64 demoStore !! 0%nat = Some p'
    ∧ channels p' !! 0%nat = Some ch'
    ∧ pat_length p' = 64%nat
    ∧ length (steps ch') = 64%nat.
Proof.
  destruct (pattern_length_growth "A" 64 demoStore 0 0 patternA
              (demoChannel "ch-A-1" kick (Some 1%Z :: Js.zeros 31)) eq_refl eq_refl)
    as (p' & ch' & Hp' & Hch' & _ & Hlen & Hpad & _).
  exists p', ch'. split; [exact Hp'|]. split; [exact Hch'|].
  split; [exact (Hlen eq_refl)|]. exact (proj1 (Hpad eq_refl eq_refl)).
Defined.

(** C7 as stated fails: the channel below belongs to a pattern of length 16
    and keeps the hit the user once put on step 20, so after growing the
    pattern to 32 steps index 20 holds 1, not 0. *)
Lemma growth_reveals_hidden_step :
  pat_length <$> shrunkStore !! 0%nat = Some 16%nat
  ∧ stepAt (handlePatternLengthChange "H" 32 shrunkStore) 0 0 20 = Some 1%Z
  ∧ stepAt (handlePatternLengthChange "H" 32 shrunkStore) 0 0 20 ≠ Some 0%Z.
Proof. split; [reflexivity|]. split; [reflexivity|]. discriminate. Qed.

(** ** Channel edits across patterns *)

Lemma findIndex_Some cs id k :
  findIndex cs id = Some k → ∃ c, cs !! k = Some c ∧ ch_id c = id.
Proof.
  revert k. induction cs as [|c cs IH]; intros k; simpl; [done|].
  destruct (String.eqb_spec (ch_id c) id) as [Heq|Hne].
  - intros [= <-]. by exists c.
  - destruct (findIndex cs id) as [k'|]; simpl; [|done].
    intros [= <-]. simpl. by apply IH.
Qed.

Lemma updateAt_appliedAt k f patterns : appliedAt k f patterns (updateAt k f patterns).
Proof.
  unfold appliedAt, updateAt. split; [by rewrite length_map|].
  intros i p Hp. rewrite lookup_map, Hp. simpl.
  eexists. split; [done|]. simpl. unfold mapi. rewrite length_imap.
  repeat (split; [done|]).
  intros j ch Hch. rewrite list_lookup_imap, Hch. simpl.
  case_decide as Hj.
  - subst j. by rewrite Nat.eqb_refl.
  - apply Nat.eqb_neq in Hj. by rewrite Hj.
Qed.

Lemma handleChannelChange_spec id newProps patterns :
  handleChannelChange id newProps patterns =
    match patterns with
    | [] => None
    | _ :: _ =>
        match masterIndex patterns id with
        | None => Some patterns
        | Some k => Some (updateAt k (λ ch, spread ch newProps) patterns)
        end
    end.
Proof. destruct patterns as [|first rest]; [done|]. reflexivity. Qed.

Lemma handleChannelMuteSoloChange_spec id type patterns :
  handleChannelMuteSoloChange id type patterns =
    match patterns with
    | [] => None
    | first :: _ =>
        match masterIndex patterns id with
        | None => Some patterns
        | Some k =>
            match channels first !! k with
            | None => None
            | Some cur =>
                Some (updateAt k (λ ch, withMuteSolo ch (newMuteSoloState type cur).1
                                                     (newMuteSoloState type cur).2)
                               patterns)
            end
        end
    end.
Proof.
  destruct patterns as [|first rest]; [done|]. simpl.
  destruct (findIndex (channels first) id) as [k|]; [|done].
  destruct (channels first !! k) as [cur|]; [|done].
  by destruct (newMuteSoloState type cur).
Qed.

Lemma newMuteSoloState_exclusive type cur :
  (newMuteSoloState type cur).1 && (newMuteSoloState type cur).2 = false.
Proof.
  unfold newMuteSoloState.
  destruct type, (Js.truthy (isMuted cur)), (Js.truthy (isSoloed cur)); reflexivity.
Qed.

Lemma appliedAt_inv k f patterns patterns' i p' j ch' :
  appliedAt k f patterns patterns' →
  patterns' !! i = Some p' → channels p' !! j = Some ch' →
  ∃ p ch, patterns !! i = Some p ∧ channels p !! j = Some ch
          ∧ ch' = if decide (j = k) then f ch else ch.
Proof.
  intros [Hlen Happ] Hp' Hch'.
  destruct (patterns !! i) as [p|] eqn:Hp.
  - destruct (Happ i p Hp) as (p'' & Hp'' & _ & _ & _ & Hclen & Hchs).
    assert (p'' = p') as -> by congruence.
    destruct (channels p !! j) as [ch|] eqn:Hch.
    + exists p, ch. repeat split; [done|]. specialize (Hchs j ch Hch). congruence.
    + apply lookup_ge_None in Hch. apply lookup_lt_Some in Hch'. lia.
  - apply lookup_ge_None in Hp. apply lookup_lt_Some in Hp'. lia.
Qed.

(** C9.  A mute or solo toggle always yields a store when there is a first
    pattern.  In that store the addressed channel (the channel of every
    pattern at the index of the id in the first pattern) is never muted and
    soloed at once, whatever its flags were: switching mute on clears solo
    and switching solo on clears mute.  Hence every toggle preserves the
    mutual exclusion of the two flags over the whole store. *)
Theorem mute_solo_exclusive (channelId : string) (type : MuteSoloType)
    (patterns : list Pattern) :
  (patterns ≠ [] → is_Some (handleChannelMuteSoloChange channelId type patterns))
  ∧ ∀ patterns', handleChannelMuteSoloChange channelId type patterns = Some patterns' →
      (∀ k i p' ch', masterIndex patterns channelId = Some k →
         patterns' !! i = Some p' → channels p' !! k = Some ch' →
         exclusive ch'
         ∧ (type = mute → isMuted ch' = Some true → isSoloed ch' = Some false)
         ∧ (type = solo → isSoloed ch' = Some true → isMuted ch' = Some false))
      ∧ (allChannels exclusive patterns → allChannels exclusive patterns').
Proof.
  rewrite handleChannelMuteSoloChange_spec. split.
  - destruct patterns as [|first rest]; [done|]. intros _.
    destruct (masterIndex (first :: rest) channelId) as [k|] eqn:Hk; [|by eexists].
    simpl in Hk. destruct (findIndex_Some _ _ _ Hk) as (c & -> & _). by eexists.
  - intros patterns' Hres. destruct patterns as [|first rest]; [done|].
    destruct (masterIndex (first :: rest) channelId) as [k|] eqn:Hk.
    + destruct (channels first !! k) as [cur|] eqn:Hcur; [|done].
      injection Hres as <-.
      pose proof (updateAt_appliedAt k
        (λ ch, withMuteSolo ch (newMuteSoloState type cur).1 (newMuteSoloState type cur).2)
        (first :: rest)) as Happ.
      pose proof (newMuteSoloState_exclusive type cur) as Hex.
      split.
      * intros k' i p' ch' [= <-] Hp' Hch'.
        destruct (appliedAt_inv _ _ _ _ _ _ _ _ Happ Hp' Hch') as (p & ch & _ & _ & ->).
        rewrite decide_True by done. unfold exclusive. simpl.
        split; [exact Hex|].
        destruct type, (newMuteSoloState _ cur).1, (newMuteSoloState _ cur).2;
          simpl in *; split; intros; congruence.
      * intros Hall i p' j ch' Hp' Hch'.
        destruct (appliedAt_inv _ _ _ _ _ _ _ _ Happ Hp' Hch') as (p & ch & Hp & Hch & ->).
        case_decide; [exact Hex | by eapply Hall].
    + injection Hres as <-. split; [intros ? ? ? ? [=]| done].
Qed.

Lemma mute_solo_exclusive_witness :
  ∃ patterns',
    handleChannelMuteSoloChange "ch-A-1" mute demoStore = Some patterns'
    ∧ (allChannels exclusive demoStore → allChannels exclusive patterns').
Proof.
  eexists. split; [reflexivity|].
  exact (proj2 (proj2 (mute_solo_exclusive "ch-A-1" mute demoStore) _ eq_refl)).
Defined.



Lemma handleAddChannel_lookup newChannel patterns i :
  handleAddChannel newChannel patterns !! i
  = (λ p, withChannels p (channels p ++ [newChannel])%list) <$> patterns !! i.
Proof. unfold handleAddChannel. apply lookup_map. Qed.





(** ** Undo and redo *)

Section HistoryFacts.
Context {T : Type} (stringify : T → string).
Implicit Types (h : HistoryState T) (f : T → T) (fs : list (T → T)).



Lemma undo_snoc (P : list T) (x y : T) (F : list T) :
  undo {| past := P ++ [x]; present := y; future := F |}
  = {| past := P; present := x; future := y :: F |}.
Proof.
  unfold undo, canUndo. simpl. rewrite length_app. simpl.
  rewrite bool_decide_eq_true_2 by lia. simpl.
  replace (length P + 1 - 1)%nat with (length P) by lia.
  rewrite lookup_app_r by lia. rewrite Nat.sub_diag. simpl.
  by rewrite take_app_length.
Qed.

Lemma redo_cons (P : list T) (x y : T) (F : list T) :
  redo {| past := P; present := y; future := x :: F |}
  = {| past := P ++ [y]; present := x; future := F |}.
Proof. reflexivity. Qed.

Lemma undo_empty_past (x : T) (F : list T) :
  undo {| past := []; present := x; future := F |}
  = {| past := []; present := x; future := F |}.
Proof. reflexivity. Qed.

(** [length L] undos take back the whole of [L]. *)
Lemma undo_iter (L P : list T) (x : T) (F : list T) :
  Nat.iter (length L) undo {| past := P ++ L; present := x; future := F |}
  = match L with
    | [] => {| past := P; present := x; future := F |}
    | y :: R => {| past := P; present := y; future := R ++ x :: F |}
    end.
Proof.
  revert x F. induction L as [|z L IH] using rev_ind; intros x F.
  - simpl. by rewrite app_nil_r.
  - rewrite length_app. simpl. rewrite Nat.add_1_r, Nat.iter_succ_r.
    rewrite app_assoc, undo_snoc, IH.
    destruct L as [|y R]; simpl; [done|]. by rewrite <-app_assoc.
Qed.

(** The redos that follow put it back. *)
Lemma redo_iter (R P : list T) (y x : T) (F : list T) :
  Nat.iter (S (length R)) redo {| past := P; present := y; future := R ++ x :: F |}
  = {| past := P ++ y :: R; present := x; future := F |}.
Proof.
  revert P y. induction R as [|r R IH]; intros P y.
  - reflexivity.
  - cbn [length]. rewrite Nat.iter_succ_r. cbn [app]. rewrite redo_cons, IH.
    by rewrite <-app_assoc.
Qed.

Lemma undo_redo_iter (L P : list T) (x : T) (F : list T) :
  Nat.iter (length L) redo
    (Nat.iter (length L) undo {| past := P ++ L; present := x; future := F |})
  = {| past := P ++ L; present := x; future := F |}.
Proof.
  rewrite undo_iter. destruct L as [|y R].
  - simpl. by rewrite app_nil_r.
  - cbn [length]. by rewrite redo_iter.
Qed.



End HistoryFacts.




(** ** Quantization *)

Lemma inject_Z_succ_le (a b : Z) : (a + 1 ≤ b)%Z → (inject_Z a + 1 <= inject_Z b)%Q.
Proof.
  intros H. rewrite Zle_Qle in H. rewrite inject_Z_plus in H.
  change (inject_Z 1) with 1%Q in H. exact H.
Qed.

(** [Math.round] yields an integer as near to its argument as any. *)
Lemma round_nearest_Q (t : Q) (m : Z) :
  (Qabs (inject_Z (Qfloor (t + (1 # 2))) - t) <= Qabs (inject_Z m - t))%Q.
Proof.
  pose proof (Qfloor_le (t + (1 # 2))) as Hlo.
  pose proof (Qlt_floor (t + (1 # 2))) as Hhi.
  set (r := Qfloor (t + (1 # 2))) in *.
  rewrite inject_Z_plus in Hhi. change (inject_Z 1) with 1%Q in Hhi.
  destruct (Z.lt_trichotomy m r) as [Hlt|[->|Hgt]]; [|apply Qle_refl|];
    (apply Qle_trans with (1 # 2)%Q; [apply Qabs_Qle_condition; split; lra|]).
  - pose proof (inject_Z_succ_le m r ltac:(lia)) as Hm.
    rewrite <-Qabs_opp. eapply Qle_trans; [|apply Qle_Qabs]. lra.
  - pose proof (inject_Z_succ_le r m ltac:(lia)) as Hm.
    eapply Qle_trans; [|apply Qle_Qabs]. lra.
Qed.

Lemma round_nearest (t : Qc) (m : Z) :
  (Qcabs (Qc_of_Z (Js.round t) - t) ≤ Qcabs (Qc_of_Z m - t))%Qc.
Proof.
  unfold Qcle, Js.round. simpl. rewrite !Qred_correct.
  exact (round_nearest_Q t m).
Qed.

Lemma snap_nearest (s x : Qc) :
  (0 < s)%Qc → nearestMultiple s x (Qc_of_Z (Js.round (x / s)) * s)%Qc.
Proof.
  intros Hs. exists (Js.round (x / s)). split; [done|]. intros m.
  assert (Hne : s ≠ 0%Qc) by (intros ->; exact (Qclt_not_eq _ _ Hs eq_refl)).
  assert (Hsc : ∀ k : Z, (Qc_of_Z k * s - x = (Qc_of_Z k - x / s) * s)%Qc).
  { intros k. field. exact Hne. }
  rewrite !Hsc, !Qcabs_Qcmult, (Qcabs_pos s) by (by apply Qclt_le_weak).
  apply Qcmult_le_compat_r; [apply round_nearest | by apply Qclt_le_weak].
Qed.

Lemma max_ge_l (x y : Qc) : (x ≤ Js.max x y)%Qc.
Proof.
  unfold Js.max. case_bool_decide as H; [by apply Qclt_le_weak | apply Qcle_refl].
Qed.

Lemma snapStep_pos (snap : QuantizeSnapValue) :
  snap ≠ SnapNone → (0 < getSnapStepFromQuantizeValue snap)%Qc.
Proof. destruct snap; intros H; try done; reflexivity. Qed.

Lemma snapStep_nonzero (snap : QuantizeSnapValue) :
  snap ≠ SnapNone → bool_decide (getSnapStepFromQuantizeValue snap = 0%Qc) = false.
Proof. destruct snap; intros H; try done; reflexivity. Qed.

(** C5.  With the setting "None" the notes come back unchanged.  With any
    other setting the step size is the one of the table, every note keeps
    its id, pitch and velocity, its start becomes a multiple of the step
    size nearest to the recorded start, and its duration becomes the larger
    of the step size and a multiple of the step size nearest to the
    recorded duration.  The note with start 3.3 and duration 1.7 comes out
    as start 3, duration 2 at "1/16" and as start 4, duration 4 at "1/4". *)
Theorem quantize_correct (notes : list Note) (snap : QuantizeSnapValue) :
  quantizeNotes notes SnapNone = notes
  ∧ (getSnapStepFromQuantizeValue Snap2 = num 8
     ∧ getSnapStepFromQuantizeValue Snap4 = num 4
     ∧ getSnapStepFromQuantizeValue Snap8 = num 2
     ∧ getSnapStepFromQuantizeValue Snap16 = num 1
     ∧ getSnapStepFromQuantizeValue Snap32 = Q2Qc (1 # 2)
     ∧ getSnapStepFromQuantizeValue Snap64 = Q2Qc (1 # 4))
  ∧ (snap ≠ SnapNone →
     length (quantizeNotes notes snap) = length notes
     ∧ ∀ i note, notes !! i = Some note →
         ∃ note', quantizeNotes notes snap !! i = Some note'
           ∧ note_id note' = note_id note ∧ pitch note' = pitch note
           ∧ velocity note' = velocity note
           ∧ nearestMultiple (getSnapStepFromQuantizeValue snap) (start note) (start note')
           ∧ (∃ d, nearestMultiple (getSnapStepFromQuantizeValue snap) (duration note) d
                   ∧ duration note' = Js.max (getSnapStepFromQuantizeValue snap) d)
           ∧ (getSnapStepFromQuantizeValue snap ≤ duration note')%Qc)
  ∧ (start <$> quantizeNotes [recordedNote] Snap16 = [num 3]
     ∧ duration <$> quantizeNotes [recordedNote] Snap16 = [num 2]
     ∧ start <$> quantizeNotes [recordedNote] Snap4 = [num 4]
     ∧ duration <$> quantizeNotes [recordedNote] Snap4 = [num 4]).
Proof.
  split; [done|]. split; [done|]. split.
  - intros Hsnap. unfold quantizeNotes. rewrite snapStep_nonzero by done.
    split; [by rewrite length_map|].
    intros i note Hnote. rewrite lookup_map, Hnote. simpl.
    pose proof (snapStep_pos snap Hsnap) as Hpos.
    eexists. split; [done|]. simpl. do 3 (split; [done|]).
    split; [by apply snap_nearest|].
    split; [eexists; split; [by apply snap_nearest | done]|].
    apply max_ge_l.
  - repeat split; by_evaluation.
Qed.

Lemma quantize_correct_witness :
  Snap8 ≠ SnapNone
  ∧ length (quantizeNotes [recordedNote; recordedNote] Snap8) = 2%nat.
Proof.
  assert (H : Snap8 ≠ SnapNone) by discriminate.
  split; [exact H|].
  exact (proj1 (proj1 (proj2 (proj2 (quantize_correct [recordedNote; recordedNote] Snap8))) H)).
Defined.

(** ** Playlist keys *)

Lemma digitsValue_of_uint (d : Decimal.uint) (acc : nat) :
  Js.digitsValue acc (NilEmpty.string_of_uint d) = Some (Nat.of_uint_acc d acc).
Proof.
  revert acc. induction d as [|d IH|d IH|d IH|d IH|d IH|d IH|d IH|d IH|d IH|d IH];
    intros acc; cbn [NilEmpty.string_of_uint Js.digitsValue Nat.of_uint_acc]; [done|..];
    rewrite Nat.tail_mul_spec;
    match goal with
    | |- context [Js.digitValue ?c] =>
        let v := eval vm_compute in (Js.digitValue c) in
        change (Js.digitValue c) with v
    end; cbv beta iota; rewrite IH; f_equal; f_equal; lia.
Qed.

Lemma Number_numToString (n : nat) : Js.Number (Js.numToString n) = Some n.
Proof.
  unfold Js.Number, Js.numToString, NilZero.string_of_uint.
  rewrite <-(Unsigned.of_to n) at 2. unfold Nat.of_uint.
  destruct (Nat.to_uint n) eqn:E; try apply digitsValue_of_uint. reflexivity.
Qed.

Lemma allDigits_of_uint (d : Decimal.uint) : allDigits (NilEmpty.string_of_uint d).
Proof.
  induction d; simpl; [done|..]; (split; [by eexists | done]).
Qed.

Lemma allDigits_numToString (n : nat) : allDigits (Js.numToString n).
Proof.
  unfold Js.numToString, NilZero.string_of_uint.
  destruct (Nat.to_uint n); try apply allDigits_of_uint.
  simpl. split; [by eexists | done].
Qed.

Lemma digit_not_colon (c : ascii) : isDigit c → Ascii.eqb c ":"%char = false.
Proof.
  intros [d Hd]. destruct (Ascii.eqb_spec c ":"%char) as [->|]; [|done].
  vm_compute in Hd. done.
Qed.

Lemma splitColon_digits (s : string) : allDigits s → Js.splitColon s = [s].
Proof.
  induction s as [|c s IH]; [done|]. intros [Hc Hs]. simpl.
  by rewrite (digit_not_colon c Hc), (IH Hs).
Qed.

Lemma splitColon_key (s1 s2 : string) :
  allDigits s1 → allDigits s2 → Js.splitColon (s1 ++ ":" ++ s2) = [s1; s2].
Proof.
  intros H1 H2. induction s1 as [|c s IH].
  - simpl. by rewrite splitColon_digits.
  - destruct H1 as [Hc Hs]. simpl. by rewrite (digit_not_colon c Hc), (IH Hs).
Qed.

Lemma keyParts_playlistKey (track bar : nat) :
  keyParts (playlistKey track bar) = (Some track, Some bar).
Proof.
  unfold keyParts, playlistKey.
  rewrite splitColon_key by apply allDigits_numToString.
  simpl. by rewrite !Number_numToString.
Qed.

Lemma playlistKey_inj (t b t' b' : nat) :
  playlistKey t b = playlistKey t' b' → t = t' ∧ b = b'.
Proof.
  intros H. apply (f_equal keyParts) in H.
  rewrite !keyParts_playlistKey in H. by injection H.
Qed.

(** ** Placement *)

(** The deleting loop, entry by entry. *)
Lemma fold_delete_lookup (del : string → string → bool) (acc0 m : gmap string string)
    (k : string) :
  map_fold (λ key patternId acc, if del key patternId then delete key acc else acc) acc0 m
    !! k
  = match m !! k with
    | Some v => if del k v then None else acc0 !! k
    | None => acc0 !! k
    end.
Proof.
  revert k.
  apply (map_fold_weak_ind
    (λ r m, ∀ k, r !! k = match m !! k with
                          | Some v => if del k v then None else acc0 !! k
                          | None => acc0 !! k
                          end)).
  - intros k. by rewrite lookup_empty.
  - intros i x m' r Hi IH k. destruct (decide (i = k)) as [->|Hne].
    + rewrite lookup_insert_eq. destruct (del k x) eqn:Hd.
      * apply lookup_delete_eq.
      * rewrite IH, Hi. done.
    + rewrite lookup_insert_ne by done. destruct (del i x).
      * rewrite lookup_delete_ne by done. apply IH.
      * apply IH.
Qed.

Lemma num_le (a b : nat) : (a ≤ b)%nat → (num a ≤ num b)%Qc.
Proof. intros H. unfold num. apply (proj1 (Z2Qc_inj_le _ _)). lia. Qed.

Lemma overlaps_intersects bar p entryBar existing :
  overlaps bar (lengthInBars p) entryBar (lengthInBars existing) = true
  ↔ intersects bar p entryBar existing.
Proof.
  unfold overlaps, intersects.
  rewrite andb_true_iff, !bool_decide_eq_true. done.
Qed.

Lemma covers_intersects bar p entryBar existing x :
  covers bar p x → covers entryBar existing x → intersects bar p entryBar existing.
Proof.
  intros [Hb Hx] [He Hy]. split.
  - eapply Qcle_lt_trans; [apply num_le, Hb | exact Hy].
  - eapply Qcle_lt_trans; [apply num_le, He | exact Hx].
Qed.

Section GridClick.
Context (patterns : list Pattern) (brush : string) (brushPattern : Pattern).
Context (playlist : gmap string string) (track bar : nat).
Context (Hbrush : findPattern patterns brush = Some brushPattern).

Local Abbreviation result := (handleGridClick patterns brush playlist track bar).

Lemma click_lookup (t b : nat) :
  result !! playlistKey t b
  = if decide (t = track ∧ b = bar) then Some brush
    else match playlist !! playlistKey t b with
         | Some patternId =>
             if deletesEntry patterns track bar (lengthInBars brushPattern)
                  (playlistKey t b) patternId
             then None else Some patternId
         | None => None
         end.
Proof.
  unfold handleGridClick. rewrite Hbrush. case_decide as Hd.
  - destruct Hd as [-> ->]. apply lookup_insert_eq.
  - rewrite lookup_insert_ne.
    + rewrite fold_delete_lookup. by destruct (playlist !! playlistKey t b).
    + intros Heq. apply playlistKey_inj in Heq. destruct Heq. by destruct Hd.
Qed.

Lemma deletesEntry_key (t b : nat) (patternId : string) :
  deletesEntry patterns track bar (lengthInBars brushPattern) (playlistKey t b) patternId
  = if Nat.eqb t track then
      match findPattern patterns patternId with
      | Some existing => overlaps bar (lengthInBars brushPattern) b (lengthInBars existing)
      | None => false
      end
    else false.
Proof. unfold deletesEntry. by rewrite keyParts_playlistKey. Qed.

Lemma click_new : result !! playlistKey track bar = Some brush.
Proof. rewrite click_lookup. by rewrite decide_True. Qed.

Lemma click_deletes (b : nat) (patternId : string) (existing : Pattern) :
  b ≠ bar →
  playlist !! playlistKey track b = Some patternId →
  findPattern patterns patternId = Some existing →
  intersects bar brushPattern b existing →
  result !! playlistKey track b = None.
Proof.
  intros Hb Hpl Hfind Hint. rewrite click_lookup, decide_False by (by intros [? ?]).
  rewrite Hpl, deletesEntry_key, Nat.eqb_refl, Hfind.
  apply overlaps_intersects in Hint. by rewrite Hint.
Qed.

Lemma click_keeps (b : nat) (patternId : string) :
  b ≠ bar →
  playlist !! playlistKey track b = Some patternId →
  (∀ existing, findPattern patterns patternId = Some existing →
               ¬ intersects bar brushPattern b existing) →
  result !! playlistKey track b = Some patternId.
Proof.
  intros Hb Hpl Hno. rewrite click_lookup, decide_False by (by intros [? ?]).
  rewrite Hpl, deletesEntry_key, Nat.eqb_refl.
  destruct (findPattern patterns patternId) as [existing|]; [|done].
  destruct (overlaps _ _ _ _) eqn:Hov; [|done].
  apply overlaps_intersects in Hov. by destruct (Hno existing).
Qed.

Lemma click_other_track (t b : nat) :
  t ≠ track → result !! playlistKey t b = playlist !! playlistKey t b.
Proof.
  intros Ht. rewrite click_lookup, decide_False by (by intros [? ?]).
  rewrite <-Nat.eqb_neq in Ht.
  destruct (playlist !! playlistKey t b) as [patternId|]; [|done].
  by rewrite deletesEntry_key, Ht.
Qed.

(** What a placement of the new playlist is. *)
Lemma click_placed (t b : nat) (p : Pattern) :
  placed patterns result t b p →
  (t = track ∧ b = bar ∧ p = brushPattern)
  ∨ (placed patterns playlist t b p
     ∧ (t = track → ¬ intersects bar brushPattern b p)).
Proof.
  intros (patternId & Hres & Hfind). rewrite click_lookup in Hres.
  case_decide as Hd.
  - left. destruct Hd as [-> ->]. injection Hres as <-. split; [done|]. split; [done|].
    congruence.
  - right. destruct (playlist !! playlistKey t b) as [pid|] eqn:Hpl; [|done].
    rewrite deletesEntry_key in Hres.
    destruct (Nat.eqb_spec t track) as [->|Ht].
    + destruct (findPattern patterns pid) as [existing|] eqn:Hex.
      * destruct (overlaps _ _ _ _) eqn:Hov; [done|]. injection Hres as ->.
        split; [by exists patternId|]. intros _ Hint.
        assert (existing = p) as -> by congruence.
        apply overlaps_intersects in Hint. congruence.
      * injection Hres as ->. congruence.
    + injection Hres as ->. split; [by exists patternId | done].
Qed.

Lemma click_noOverlap : noOverlap patterns playlist → noOverlap patterns result.
Proof.
  intros Hinv t b1 b2 p1 p2 x H1 H2 Hc1 Hc2.
  destruct (click_placed _ _ _ H1) as [(-> & -> & ->)|[Hold1 Hno1]];
    destruct (click_placed _ _ _ H2) as [(Ht2 & -> & ->)|[Hold2 Hno2]].
  - done.
  - destruct (Hno2 eq_refl). by eapply covers_intersects.
  - subst t. destruct (Hno1 eq_refl). by eapply covers_intersects.
  - by eapply Hinv.
Qed.

End GridClick.

Lemma noOverlap_empty (patterns : list Pattern) : noOverlap patterns ∅.
Proof. intros t b1 b2 p1 p2 x (pid & H & _). by rewrite lookup_empty in H. Qed.

Lemma handleGridClick_noOverlap patterns brush playlist track bar :
  noOverlap patterns playlist →
  noOverlap patterns (handleGridClick patterns brush playlist track bar).
Proof.
  intros Hinv. destruct (findPattern patterns brush) as [brushPattern|] eqn:Hb.
  - by eapply click_noOverlap.
  - unfold handleGridClick. by rewrite Hb.
Qed.

Lemma clicks_noOverlap patterns cs playlist :
  noOverlap patterns playlist → noOverlap patterns (clicks patterns cs playlist).
Proof.
  revert playlist. induction cs as [|[[brush track] bar] cs IH]; intros playlist Hinv.
  - done.
  - unfold clicks. simpl. apply IH. by apply handleGridClick_noOverlap.
Qed.

(** C4.  A click with an existing brush pattern puts the brush at the
    clicked key, deletes every other entry of the clicked track whose
    pattern exists and whose bar range intersects the new one, keeps the
    entries of that track that do not intersect it, and leaves the entries
    of all other tracks as they were.  Hence a click keeps a playlist free
    of overlaps, and after any run of clicks on the empty playlist no two
    placements on one track cover a common bar. *)
Theorem playlist_non_overlap (patterns : list Pattern) :
  (∀ brush brushPattern playlist track bar,
     findPattern patterns brush = Some brushPattern →
     handleGridClick patterns brush playlist track bar !! playlistKey track bar = Some brush
     ∧ (∀ b patternId existing,
          b ≠ bar →
          playlist !! playlistKey track b = Some patternId →
          findPattern patterns patternId = Some existing →
          intersects bar brushPattern b existing →
          handleGridClick patterns brush playlist track bar !! playlistKey track b = None)
     ∧ (∀ b patternId,
          b ≠ bar →
          playlist !! playlistKey track b = Some patternId →
          (∀ existing, findPattern patterns patternId = Some existing →
                       ¬ intersects bar brushPattern b existing) →
          handleGridClick patterns brush playlist track bar !! playlistKey track b
          = Some patternId)
     ∧ (∀ t b, t ≠ track →
          handleGridClick patterns brush playlist track bar !! playlistKey t b
          = playlist !! playlistKey t b))
  ∧ (∀ brush playlist track bar,
       noOverlap patterns playlist →
       noOverlap patterns (handleGridClick patterns brush playlist track bar))
  ∧ (∀ cs, noOverlap patterns (clicks patterns cs ∅)).
Proof.
  split; [|split].
  - intros brush brushPattern playlist track bar Hbrush.
    split; [by eapply click_new|]. split; [|split].
    + intros b patternId existing. by eapply click_deletes.
    + intros b patternId. by eapply click_keeps.
    + intros t b. by eapply click_other_track.
  - intros brush playlist track bar. apply handleGridClick_noOverlap.
  - intros cs. apply clicks_noOverlap, noOverlap_empty.
Qed.

Lemma playlist_non_overlap_witness :
  findPattern demoStore "B" = Some patternB
  ∧ intersects 1 patternB 0 patternA
  ∧ handleGridClick demoStore "B" (<[playlistKey 0 0 := "A"]> ∅) 0 1 !! playlistKey 0 0 = None
  ∧ handleGridClick demoStore "B" (<[playlistKey 0 0 := "A"]> ∅) 1 1 !! playlistKey 0 0
    = Some "A".
Proof.
  assert (Hint : intersects 1 patternB 0 patternA) by (split; by_evaluation).
  destruct (proj1 (playlist_non_overlap demoStore) "B" patternB
              (<[playlistKey 0 0 := "A"]> ∅) 0%nat 1%nat eq_refl) as (_ & Hdel & _).
  destruct (proj1 (playlist_non_overlap demoStore) "B" patternB
              (<[playlistKey 0 0 := "A"]> ∅) 1%nat 1%nat eq_refl) as (_ & _ & _ & Hother).
  split; [reflexivity|]. split; [exact Hint|]. split.
  - exact (Hdel 0%nat "A" patternA ltac:(discriminate) eq_refl eq_refl Hint).
  - rewrite Hother by discriminate. reflexivity.
Defined.

(** ** Song-mode resolution *)

Section Resolution.
Context (patterns : list Pattern) (playlist : gmap string string) (currentBar : nat).

Local Abbreviation matches := (entryMatches patterns playlist currentBar).
Local Abbreviation first := (firstOnTrack patterns playlist currentBar).

Lemma scanBars_unfold track searchBar :
  scanBars patterns playlist track currentBar searchBar
  = match matchAt patterns playlist track currentBar searchBar with
    | Some r => Some r
    | None =>
        match searchBar with
        | O => None
        | S below => scanBars patterns playlist track currentBar below
        end
    end.
Proof. destruct searchBar; reflexivity. Qed.

Lemma matchAt_Some track searchBar candidate startBar :
  (searchBar ≤ currentBar)%nat →
  matchAt patterns playlist track currentBar searchBar = Some (candidate, startBar)
  ↔ startBar = searchBar ∧ matches track searchBar candidate.
Proof.
  intros Hle. unfold matchAt, entryMatches, Js.truthyString. split.
  - destruct (playlist !! playlistKey track searchBar) as [pid|]; [|done].
    destruct (String.eqb_spec pid EmptyString) as [->|Hne]; simpl; [done|].
    destruct (findPattern patterns pid) as [c|] eqn:Hfind; [|done].
    case_bool_decide as Hlt; [|done]. intros [= <- <-].
    split; [done|]. exists pid. split_and!; done.
  - intros (-> & pid & -> & Hne & -> & _ & Hlt).
    apply String.eqb_neq in Hne. rewrite Hne. simpl.
    by rewrite bool_decide_eq_true_2.
Qed.

Lemma matchAt_None track searchBar :
  (searchBar ≤ currentBar)%nat →
  matchAt patterns playlist track currentBar searchBar = None →
  ∀ c, ¬ matches track searchBar c.
Proof.
  intros Hle Hnone c Hm.
  assert (H : matchAt patterns playlist track currentBar searchBar = Some (c, searchBar))
    by (by apply matchAt_Some).
  congruence.
Qed.

Lemma scanBars_Some track searchBar candidate startBar :
  (searchBar ≤ currentBar)%nat →
  scanBars patterns playlist track currentBar searchBar = Some (candidate, startBar) →
  (startBar ≤ searchBar)%nat
  ∧ matches track startBar candidate
  ∧ ∀ s c, (startBar < s ≤ searchBar)%nat → ¬ matches track s c.
Proof.
  induction searchBar as [|below IH]; intros Hle; rewrite scanBars_unfold.
  - destruct (matchAt _ _ _ _ 0%nat) as [[c s]|] eqn:Hm; [|done].
    intros [= -> ->]. apply matchAt_Some in Hm as [-> Hm]; [|done].
    split; [done|]. split; [done|]. intros; lia.
  - destruct (matchAt _ _ _ _ (S below)) as [[c s]|] eqn:Hm.
    + intros [= -> ->]. apply matchAt_Some in Hm as [-> Hm]; [|done].
      split; [done|]. split; [done|]. intros; lia.
    + intros Hscan. destruct (IH ltac:(lia) Hscan) as (Hsb & Hmatch & Habove).
      split; [lia|]. split; [done|]. intros s c Hs.
      destruct (decide (s = S below)) as [->|Hne].
      * by apply matchAt_None.
      * apply Habove. lia.
Qed.

Lemma scanBars_None track searchBar :
  (searchBar ≤ currentBar)%nat →
  scanBars patterns playlist track currentBar searchBar = None →
  ∀ s c, (s ≤ searchBar)%nat → ¬ matches track s c.
Proof.
  induction searchBar as [|below IH]; intros Hle; rewrite scanBars_unfold;
    destruct (matchAt _ _ _ _ _) as [[c s]|] eqn:Hm; try done; intros Hscan s c Hs.
  - assert (s = 0%nat) as -> by lia. by apply matchAt_None.
  - destruct (decide (s = S below)) as [->|Hne].
    + by apply matchAt_None.
    + apply IH; [lia | done | lia].
Qed.

Lemma matches_functional track s c c' :
  matches track s c → matches track s c' → c = c'.
Proof. intros (pid & H1 & _ & H2 & _) (pid' & H1' & _ & H2' & _). congruence. Qed.

Lemma matches_le track s c : matches track s c → (s ≤ currentBar)%nat.
Proof. by intros (pid & _ & _ & _ & Hle & _). Qed.

Lemma first_unique track s c s' c' :
  first track s c → first track s' c' → s = s' ∧ c = c'.
Proof.
  intros [Hm Habove] [Hm' Habove'].
  pose proof (matches_le _ _ _ Hm). pose proof (matches_le _ _ _ Hm').
  assert (s = s') as <-.
  { destruct (Nat.lt_trichotomy s s') as [Hlt|[Heq|Hgt]]; [|done|].
    - destruct (Habove s' c'); [lia | done].
    - destruct (Habove' s c); [lia | done]. }
  split; [done|]. by eapply matches_functional.
Qed.

Lemma scanBars_first track candidate startBar :
  scanBars patterns playlist track currentBar currentBar = Some (candidate, startBar)
  ↔ first track startBar candidate.
Proof.
  split.
  - intros Hscan. apply scanBars_Some in Hscan as (_ & Hm & Habove); [|done]. by split.
  - intros Hfirst.
    destruct (scanBars patterns playlist track currentBar currentBar) as [[c s]|] eqn:Hscan.
    + apply scanBars_Some in Hscan as (_ & Hm & Habove); [|done].
      destruct (first_unique track s c startBar candidate) as [-> ->];
        [by split | done | done].
    + destruct Hfirst as [Hm _]. pose proof (matches_le _ _ _ Hm).
      by destruct (scanBars_None track currentBar ltac:(done) Hscan startBar candidate).
Qed.

Lemma scanBars_no_match track :
  scanBars patterns playlist track currentBar currentBar = None
  ↔ ∀ s c, ¬ matches track s c.
Proof.
  split.
  - intros Hscan s c Hm. pose proof (matches_le _ _ _ Hm).
    by destruct (scanBars_None track currentBar ltac:(done) Hscan s c).
  - intros Hno.
    destruct (scanBars patterns playlist track currentBar currentBar) as [[c s]|] eqn:Hscan;
      [|done].
    apply scanBars_first in Hscan as [Hm _]. by destruct (Hno s c).
Qed.

Lemma scanTracks_Some count from candidate startBar :
  scanTracks patterns playlist currentBar count from = Some (candidate, startBar)
  ↔ ∃ track, (from ≤ track < from + count)%nat
      ∧ first track startBar candidate
      ∧ ∀ t s c, (from ≤ t < track)%nat → ¬ matches t s c.
Proof.
  revert from. induction count as [|count IH]; intros from; simpl.
  - split; [done|]. intros (track & Hr & _). lia.
  - destruct (scanBars patterns playlist from currentBar currentBar) as [[c s]|] eqn:Hscan.
    + apply scanBars_first in Hscan. split.
      * intros [= -> ->]. exists from. split; [lia|]. split; [done|]. intros; lia.
      * intros (track & Hr & Hfirst & Hbelow).
        destruct (decide (track = from)) as [->|Hne].
        -- by destruct (first_unique from s c startBar candidate) as [-> ->].
        -- destruct Hscan as [Hm _]. destruct (Hbelow from s c); [lia | done].
    + rewrite IH. pose proof (proj1 (scanBars_no_match from) Hscan) as Hno. split.
      * intros (track & Hr & Hfirst & Hbelow). exists track.
        split; [lia|]. split; [done|]. intros t s c Ht.
        destruct (decide (t = from)) as [->|Hne]; [apply Hno | apply Hbelow; lia].
      * intros (track & Hr & Hfirst & Hbelow).
        assert (track ≠ from) by (intros ->; destruct Hfirst as [Hm _]; by destruct (Hno _ _ Hm)).
        exists track. split; [lia|]. split; [done|]. intros t s c Ht. apply Hbelow. lia.
Qed.

Lemma scanTracks_None count from :
  scanTracks patterns playlist currentBar count from = None
  ↔ ∀ t s c, (from ≤ t < from + count)%nat → ¬ matches t s c.
Proof.
  revert from. induction count as [|count IH]; intros from; simpl.
  - split; [intros; lia | done].
  - destruct (scanBars patterns playlist from currentBar currentBar) as [[c s]|] eqn:Hscan.
    + apply scanBars_first in Hscan as [Hm _]. split; [done|].
      intros Hno. destruct (Hno from s c); [lia | done].
    + rewrite IH. pose proof (proj1 (scanBars_no_match from) Hscan) as Hno. split.
      * intros Hrest t s c Ht.
        destruct (decide (t = from)) as [->|Hne]; [apply Hno | apply Hrest; lia].
      * intros Hall t s c Ht. apply Hall. lia.
Qed.

End Resolution.

(** C1.  The pattern song mode plays at a bar is the first match of the
    backward scan of the lowest track that has a match: an entry at a start
    bar at or before the current bar whose existing pattern reaches beyond
    the current bar, no entry of that track at a later start bar up to the
    current bar matching, and no entry of a lower track matching at all;
    without any match on the 32 tracks nothing is played.  The callback of a
    step triggers the channels of that one pattern and no other.  With A
    (32 steps) at "0:0" and B (16 steps) at "0:4", bar 1 resolves to A,
    bar 3 to nothing and bar 4 to B. *)
Theorem song_resolution (patterns : list Pattern) (playlist : gmap string string)
    (currentBar : nat) :
  (∀ candidate startBar,
     resolveActivePattern patterns playlist currentBar = Some (candidate, startBar)
     ↔ ∃ track, (track < 32)%nat
         ∧ entryMatches patterns playlist currentBar track startBar candidate
         ∧ (∀ s c, (startBar < s ≤ currentBar)%nat →
                   ¬ entryMatches patterns playlist currentBar track s c)
         ∧ (∀ t s c, (t < track)%nat →
                     ¬ entryMatches patterns playlist currentBar t s c))
  ∧ (resolveActivePattern patterns playlist currentBar = None
     ↔ ∀ t s c, (t < 32)%nat → ¬ entryMatches patterns playlist currentBar t s c)
  ∧ (∀ audioNodes noteDuration time step,
       (step / 16)%nat = currentBar →
       songSequenceCallback audioNodes noteDuration patterns playlist time step
       = match resolveActivePattern patterns playlist currentBar with
         | Some (patternToPlay, patternStartBar) =>
             flat_map (λ channel,
               triggerStep audioNodes noteDuration time
                 (Js.get (steps channel)
                    (((currentBar - patternStartBar) * 16 + step mod 16)
                       mod length (steps channel))%nat)
                 channel)
               (channels patternToPlay)
         | None => []
         end)
  ∧ (resolveActivePattern demoStore demoPlaylist 1 = Some (patternA, 0%nat)
     ∧ resolveActivePattern demoStore demoPlaylist 3 = None
     ∧ resolveActivePattern demoStore demoPlaylist 4 = Some (patternB, 4%nat)).
Proof.
  split; [|split; [|split]].
  - intros candidate startBar. unfold resolveActivePattern. rewrite scanTracks_Some.
    split; intros (track & Hr & Hrest).
    + exists track. split; [lia|]. destruct Hrest as ([Hm Habove] & Hbelow).
      split; [done|]. split; [done|]. intros t s c Ht. apply Hbelow. lia.
    + exists track. split; [lia|]. destruct Hrest as (Hm & Habove & Hbelow).
      split; [by split|]. intros t s c Ht. apply Hbelow. lia.
  - unfold resolveActivePattern. rewrite scanTracks_None.
    split; intros H t s c Ht; apply H; lia.
  - intros audioNodes noteDuration time step <-. reflexivity.
  - repeat split; vm_compute; reflexivity.
Qed.

(** ** Swing *)

Lemma swung_odd bpm swing k time :
  (0 < swing)%Qc → (k mod 2 ≠ 0)%nat →
  swung bpm swing k time = (time + swing * (secondsPer16th bpm / num 2))%Qc.
Proof.
  intros Hs Hk. unfold swung, swingDelay.
  rewrite bool_decide_eq_true_2 by done.
  apply Nat.eqb_neq in Hk. by rewrite Hk.
Qed.

Lemma swung_even bpm swing k time : (k mod 2 = 0)%nat → swung bpm swing k time = time.
Proof.
  intros Hk. unfold swung. apply Nat.eqb_eq in Hk. rewrite Hk. simpl.
  by rewrite andb_false_r.
Qed.

(** C6 against the code.  Live playback hands the transport a swing of 0
    for every value up to 0.01.  The export delays every odd step by
    swing x (secondsPer16th / 2) for every swing above 0, and leaves even
    steps where they are.  At 120 bpm with a swing of 0.005 the exported
    hit of step 1 is therefore scheduled at 1/8 + 1/3200 s instead of
    1/8 s, in the pattern export and in the song export alike. *)
Theorem export_swing_below_threshold :
  (∀ swing, (swing ≤ Q2Qc (1 # 100))%Qc → transportSwing swing = 0%Qc)
  ∧ (∀ swing, (Q2Qc (1 # 100) < swing)%Qc → transportSwing swing = swing)
  ∧ (∀ bpm swing k time, (0 < swing)%Qc → (k mod 2 ≠ 0)%nat →
       swung bpm swing k time = (time + swing * (secondsPer16th bpm / num 2))%Qc)
  ∧ (∀ bpm swing k time, (k mod 2 = 0)%nat → swung bpm swing k time = time)
  ∧ transportSwing (Q2Qc (1 # 200)) = 0%Qc
  ∧ exportPatternToWav offbeatPattern (num 120) 0%Qc
    = [TriggerAttack "kick" (Q2Qc (1 # 8))]
  ∧ exportPatternToWav offbeatPattern (num 120) (Q2Qc (1 # 200))
    = [TriggerAttack "kick" (Q2Qc (401 # 3200))]
  ∧ renderSongToBuffer [offbeatPattern] (<[playlistKey 0 0 := "O"]> ∅) [] (num 120)
      (Q2Qc (1 # 200))
    = [TriggerAttack "kick" (Q2Qc (401 # 3200))].
Proof.
  split_and!.
  - intros swing Hs. unfold transportSwing.
    rewrite bool_decide_eq_false_2; [done|]. by apply Qcle_not_lt.
  - intros swing Hs. unfold transportSwing. by rewrite bool_decide_eq_true_2.
  - apply swung_odd.
  - apply swung_even.
  - by_evaluation.
  - by_evaluation.
  - by_evaluation.
  - by_evaluation.
Qed.

(** ** Export against live song playback *)

Lemma elem_of_flat_map {A B} (f : A → list B) (l : list A) (y : B) :
  y ∈ flat_map f l ↔ ∃ x, x ∈ l ∧ y ∈ f x.
Proof.
  rewrite list_elem_of_In, in_flat_map.
  split; intros (x & Hx & Hy); exists x; by rewrite ?list_elem_of_In in *.
Qed.

Lemma elem_of_concat {A} (ls : list (list A)) (y : A) :
  y ∈ concat ls ↔ ∃ l, l ∈ ls ∧ y ∈ l.
Proof.
  rewrite list_elem_of_In, in_concat.
  split; intros (x & Hx & Hy); exists x; by rewrite ?list_elem_of_In in *.
Qed.

Lemma elem_of_seq_0 (n k : nat) : k ∈ seq 0 n ↔ (k < n)%nat.
Proof. rewrite list_elem_of_In, in_seq. lia. Qed.

(** *** The attacks of each scheduler *)

Lemma attack_in_triggerStep audioNodes bpm time stepValue ch nm t :
  TriggerAttack nm t ∈ triggerStep audioNodes (secondsPer16th bpm) time stepValue ch
  ↔ Js.truthy (isAudioClipChannel ch) = false
    ∧ noNotes ch
    ∧ ∃ v, stepValue = Some v ∧ (0 < v)%Z
        ∧ sample_name (sample ch) ∈ audioNodes
        ∧ TriggerAttack nm t ∈ scheduleStep bpm (sample_name (sample ch)) time v.
Proof.
  unfold triggerStep, noNotes, scheduleStep.
  destruct (Js.truthy (isAudioClipChannel ch)).
  { split; [by intros ?%elem_of_nil | by intros [? _]]. }
  assert (Hnotes : (match notes ch with
                    | Some ns => bool_decide (0 < length ns)%nat
                    | None => false
                    end) = false
                   ↔ match notes ch with Some ns => length ns = 0%nat | None => True end).
  { destruct (notes ch) as [ns|]; [|done]. rewrite bool_decide_eq_false. lia. }
  destruct (match notes ch with Some ns => bool_decide (0 < length ns)%nat | None => false end).
  { split; [by intros ?%elem_of_nil|]. intros (_ & Hn & _). by apply Hnotes in Hn. }
  destruct stepValue as [v|].
  2:{ split; [by intros ?%elem_of_nil|]. by intros (_ & _ & v & ? & _). }
  case_bool_decide as Hv.
  2:{ split; [by intros ?%elem_of_nil|]. intros (_ & _ & v' & [= <-] & ? & _). done. }
  case_bool_decide as Hnode.
  2:{ split; [by intros ?%elem_of_nil|]. intros (_ & _ & v' & _ & _ & ? & _). done. }
  rewrite elem_of_app. split.
  - intros [Hrel|Hatt].
    + destruct (cutItself ch); [|by apply elem_of_nil in Hrel].
      apply list_elem_of_singleton in Hrel. done.
    + split; [done|]. split; [by apply Hnotes|]. by exists v.
  - intros (_ & _ & v' & [= <-] & _ & _ & Hatt). by right.
Qed.

Lemma attack_in_scheduleSteps bpm swing patternLength name startTime startStep
    (steps : list (option Z)) nm t :
  TriggerAttack nm t ∈ scheduleSteps bpm swing patternLength name startTime startStep steps
  ↔ ∃ i v, steps !! i = Some (Some v) ∧ (i < patternLength)%nat ∧ (0 < v)%Z
      ∧ TriggerAttack nm t
          ∈ scheduleStep bpm name
              (swung bpm swing (startStep + i) (startTime + num i * secondsPer16th bpm)%Qc) v.
Proof.
  unfold scheduleSteps. rewrite elem_of_concat. split.
  - intros (l & Hl & Hin). apply elem_of_lookup_imap in Hl as (i & sv & -> & Hi).
    destruct sv as [v|]; [|by apply elem_of_nil in Hin].
    destruct (bool_decide (patternLength ≤ i)%nat || bool_decide (v ≤ 0)%Z) eqn:Hguard;
      [by apply elem_of_nil in Hin|].
    apply orb_false_iff in Hguard as [H1%bool_decide_eq_false H2%bool_decide_eq_false].
    exists i, v. split; [done|]. split; [lia|]. split; [lia | done].
  - intros (i & v & Hi & Hlen & Hv & Hin).
    refine (ex_intro _ _ (conj (elem_of_lookup_imap_2 _ steps (Some v) i Hi) _)). simpl.
    rewrite (bool_decide_eq_false_2 (patternLength ≤ i)%nat) by lia.
    rewrite (bool_decide_eq_false_2 (v ≤ 0)%Z) by lia. done.
Qed.

Lemma attack_in_renderEntry patterns bpm swing key patternId nm t :
  TriggerAttack nm t ∈ renderEntry patterns bpm swing key patternId
  ↔ ∃ bar p ch i v,
      (keyParts key).2 = Some bar ∧ findPattern patterns patternId = Some p
      ∧ ch ∈ channels p ∧ Js.truthy (isAudioClipChannel ch) = false
      ∧ sample_name (sample ch) ∈ songSamplers patterns
      ∧ steps ch !! i = Some (Some v) ∧ (i < pat_length p)%nat ∧ (0 < v)%Z
      ∧ TriggerAttack nm t
          ∈ scheduleStep bpm (sample_name (sample ch))
              (swung bpm swing (bar * 16 + i)
                 (num bar * secondsPerBar bpm + num i * secondsPer16th bpm)%Qc) v.
Proof.
  unfold renderEntry. split.
  - destruct (keyParts key).2 as [bar|]; [|by intros ?%elem_of_nil].
    destruct (findPattern patterns patternId) as [p|]; [|by intros ?%elem_of_nil].
    intros (ch & Hch & Hin)%elem_of_flat_map.
    destruct (Js.truthy (isAudioClipChannel ch)) eqn:Haudio; [by apply elem_of_nil in Hin|].
    case_bool_decide as Hnode; [|by apply elem_of_nil in Hin].
    apply attack_in_scheduleSteps in Hin as (i & v & Hi & Hlen & Hv & Hin).
    exists bar, p, ch, i, v. split_and!; done.
  - intros (bar & p & ch & i & v & -> & -> & Hch & Haudio & Hnode & Hi & Hlen & Hv & Hin).
    apply elem_of_flat_map. exists ch. split; [done|].
    rewrite Haudio, bool_decide_eq_true_2 by done.
    apply attack_in_scheduleSteps. by exists i, v.
Qed.

Lemma attack_in_export patterns playlist audioClips bpm swing nm t :
  TriggerAttack nm t ∈ renderSongToBuffer patterns playlist audioClips bpm swing
  ↔ ¬ (songEndBar patterns playlist audioClips * secondsPerBar bpm ≤ 0)%Qc
    ∧ ∃ key patternId, playlist !! key = Some patternId
        ∧ TriggerAttack nm t ∈ renderEntry patterns bpm swing key patternId.
Proof.
  unfold renderSongToBuffer. case_bool_decide as Hdur.
  - split; [by intros ?%elem_of_nil | by intros [? _]].
  - rewrite elem_of_flat_map. split.
    + intros ([key pid] & Hin & Hev). apply elem_of_map_to_list in Hin.
      split; [done|]. by exists key, pid.
    + intros (_ & key & pid & Hin & Hev). exists (key, pid).
      split; [by apply elem_of_map_to_list | done].
Qed.

Lemma attack_in_live patterns playlist bpm nm t :
  TriggerAttack nm t ∈ liveSong patterns playlist bpm
  ↔ ∃ k p startBar ch,
      (k < songLengthSteps)%nat
      ∧ resolveActivePattern patterns playlist (k / 16) = Some (p, startBar)
      ∧ ch ∈ channels p
      ∧ TriggerAttack nm t
          ∈ triggerStep (songSamplers patterns) (secondsPer16th bpm) (stepTime bpm k)
              (Js.get (steps ch)
                 (((k / 16 - startBar) * 16 + k mod 16) mod length (steps ch))%nat)
              ch.
Proof.
  unfold liveSong, songCalls. rewrite elem_of_flat_map. split.
  - intros (k & Hk%elem_of_seq_0 & Hin). unfold songSequenceCallback in Hin.
    destruct (resolveActivePattern patterns playlist (k / 16)) as [[p sb]|] eqn:Hres;
      [|by apply elem_of_nil in Hin].
    apply elem_of_flat_map in Hin as (ch & Hch & Hin). by exists k, p, sb, ch.
  - intros (k & p & sb & ch & Hk & Hres & Hch & Hin). exists k.
    split; [by apply elem_of_seq_0|]. unfold songSequenceCallback. rewrite Hres.
    apply elem_of_flat_map. by exists ch.
Qed.

(** *** Numbers *)

Lemma num_add (a b : nat) : num (a + b) = (num a + num b)%Qc.
Proof. unfold num. by rewrite Nat2Z.inj_add, Z2Qc_inj_add. Qed.

Lemma num_mul (a b : nat) : num (a * b) = (num a * num b)%Qc.
Proof. unfold num. by rewrite Nat2Z.inj_mul, Z2Qc_inj_mul. Qed.

Lemma num_lt (a b : nat) : (a < b)%nat ↔ (num a < num b)%Qc.
Proof. unfold num. rewrite <-Z2Qc_inj_lt. lia. Qed.

Lemma num_16_pos : (0 < num 16)%Qc.
Proof. by_evaluation. Qed.

Lemma num_16_ne : num 16 ≠ 0%Qc.
Proof. by_evaluation. Qed.

(** The cover test on whole numbers. *)
Lemma cover_test (currentBar searchBar : nat) (p : Pattern) :
  (num currentBar < num searchBar + lengthInBars p)%Qc
  ↔ (16 * currentBar < 16 * searchBar + pat_length p)%nat.
Proof.
  unfold lengthInBars. rewrite (Qcmult_lt_mono_pos_r _ _ (num 16)) by apply num_16_pos.
  replace ((num searchBar + num (pat_length p) / num 16) * num 16)%Qc
    with (num (searchBar * 16 + pat_length p)).
  - rewrite <-num_mul, <-num_lt. lia.
  - rewrite num_add, num_mul. field. apply num_16_ne.
Qed.

Lemma secondsPerBar_16 (bpm : Qc) :
  bpm ≠ 0%Qc → secondsPerBar bpm = (num 16 * secondsPer16th bpm)%Qc.
Proof.
  intros Hbpm. unfold secondsPerBar, secondsPer16th.
  assert (H16 : num 16 = (num 4 * num 4)%Qc) by by_evaluation.
  assert (H4 : num 4 ≠ 0%Qc) by by_evaluation.
  rewrite H16. field. by split.
Qed.

Lemma export_time (bpm : Qc) (bar i : nat) :
  bpm ≠ 0%Qc →
  (num bar * secondsPerBar bpm + num i * secondsPer16th bpm)%Qc
  = stepTime bpm (bar * 16 + i).
Proof.
  intros Hbpm. unfold stepTime. rewrite secondsPerBar_16, num_add, num_mul by done. ring.
Qed.

Lemma secondsPerBar_pos (bpm : Qc) : (0 < bpm)%Qc → (0 < secondsPerBar bpm)%Qc.
Proof.
  intros Hbpm. unfold secondsPerBar.
  assert (Hinv : (0 < / bpm)%Qc).
  { destruct (Qclt_le_dec 0 (/ bpm)) as [|Hle]; [done|]. exfalso.
    assert (Hne : bpm ≠ 0%Qc) by (intros ->; exact (Qclt_not_eq _ _ Hbpm eq_refl)).
    assert (H1 : (bpm * / bpm = 1)%Qc) by (by apply Qcmult_inv_r).
    assert (H2 : (bpm * / bpm ≤ bpm * 0)%Qc).
    { by apply Qcmult_le_mono_nonneg_l; [apply Qclt_le_weak|]. }
    rewrite H1, Qcmult_0_r in H2. revert H2. by_evaluation. }
  unfold Qcdiv. apply Qcmult_pos_pos; [apply Qcmult_pos_pos|]; [by_evaluation| done |by_evaluation].
Qed.

Lemma swung_off bpm swing k time : (swing ≤ 0)%Qc → swung bpm swing k time = time.
Proof.
  intros Hs. unfold swung. rewrite bool_decide_eq_false_2; [done|]. by apply Qcle_not_lt.
Qed.

Lemma max_ge_r (x y : Qc) : (y ≤ Js.max x y)%Qc.
Proof.
  unfold Js.max. case_bool_decide as H; [apply Qcle_refl | by apply Qcnot_lt_le].
Qed.

(** *** The end of the song *)

Lemma songEndBar_clips (audioClips : list AudioClip) (acc : Qc) :
  (acc ≤ foldl (λ songEndBar clip,
            Js.max songEndBar (startBar clip + trimDurationBars clip)%Qc) acc audioClips)%Qc.
Proof.
  revert acc. induction audioClips as [|clip clips IH]; intros acc; simpl.
  - apply Qcle_refl.
  - eapply Qcle_trans; [|apply IH]. apply max_ge_l.
Qed.

Lemma songEndBar_ge patterns playlist audioClips key patternId bar p :
  playlist !! key = Some patternId →
  (keyParts key).2 = Some bar →
  findPattern patterns patternId = Some p →
  (num bar + lengthInBars p ≤ songEndBar patterns playlist audioClips)%Qc.
Proof.
  intros Hkey Hbar Hfind. unfold songEndBar.
  eapply Qcle_trans; [|apply songEndBar_clips].
  revert key patternId bar p Hkey Hbar Hfind.
  apply (map_fold_weak_ind (λ r m, ∀ key patternId bar p,
    m !! key = Some patternId → (keyParts key).2 = Some bar →
    findPattern patterns patternId = Some p → (num bar + lengthInBars p ≤ r)%Qc)).
  - intros key pid bar p H. by rewrite lookup_empty in H.
  - intros i x m r Hi IH key pid bar p Hkey Hbar Hfind.
    destruct (decide (i = key)) as [->|Hne].
    + rewrite lookup_insert_eq in Hkey. injection Hkey as ->.
      rewrite Hbar, Hfind. apply max_ge_r.
    + rewrite lookup_insert_ne in Hkey by done.
      specialize (IH key pid bar p Hkey Hbar Hfind).
      destruct ((keyParts i).2) as [b'|]; [|done].
      destruct (findPattern patterns x) as [p'|]; [|done].
      eapply Qcle_trans; [exact IH | apply max_ge_l].
Qed.

(** *** Steps of a placement *)

Lemma step_of_placement (b i : nat) (steps : list (option Z)) :
  (i < length steps)%nat →
  ((((b * 16 + i) / 16 - b) * 16 + (b * 16 + i) mod 16) mod length steps)%nat = i.
Proof.
  intros Hi.
  replace ((b * 16 + i) / 16)%nat with (b + i / 16)%nat
    by (rewrite (Nat.add_comm (b * 16) i), Nat.div_add by lia; lia).
  replace ((b * 16 + i) mod 16)%nat with (i mod 16)%nat
    by (rewrite (Nat.add_comm (b * 16) i), Nat.Div0.mod_add; done).
  rewrite Nat.mod_small; pose proof (Nat.div_mod_eq i 16); lia.
Qed.

Lemma get_Some (a : list (option Z)) (i : nat) (v : Z) :
  Js.get a i = Some v ↔ a !! i = Some (Some v).
Proof.
  unfold Js.get. destruct (a !! i) as [[w|]|]; simpl; split; intros H; congruence.
Qed.

Section ExportLive.
Context (patterns : list Pattern) (playlist : gmap string string).
Context (audioClips : list AudioClip) (bpm swing : Qc).
Context (Hbpm : (0 < bpm)%Qc) (Hswing : (swing ≤ 0)%Qc).
Context (Harranged : arranged patterns playlist).

Lemma bpm_ne : bpm ≠ 0%Qc.
Proof. intros ->. exact (Qclt_not_eq _ _ Hbpm eq_refl). Qed.

Lemma export_in_live nm t :
  singleCover patterns playlist →
  TriggerAttack nm t ∈ renderSongToBuffer patterns playlist audioClips bpm swing →
  TriggerAttack nm t ∈ liveSong patterns playlist bpm.
Proof.
  intros Hsingle (_ & key & pid & Hkey & Hentry)%attack_in_export.
  apply attack_in_renderEntry in Hentry
    as (bar & p & ch & i & v & Hbar & Hfind & Hch & Haudio & Hnode & Hi & Hlen & Hv & Hin).
  destruct (Harranged key pid p Hkey Hfind)
    as (Hpid & [Hbars Hchs] & track & b & -> & Htrack & Hend).
  rewrite keyParts_playlistKey in Hbar. injection Hbar as <-.
  destruct (Hchs ch Hch Haudio) as [Hsteps Hnotes].
  rewrite swung_off, export_time in Hin by (done || apply bpm_ne).
  pose proof (lookup_lt_Some _ _ _ Hi) as Hilen.
  assert (Hdiv : ((b * 16 + i) / 16 = b + i / 16)%nat)
    by (rewrite (Nat.add_comm (b * 16) i), Nat.div_add by lia; lia).
  assert (Hplaced : placed patterns playlist track b p) by (by exists pid).
  assert (Hcovers : covers b p ((b * 16 + i) / 16)).
  { split; [lia|]. apply cover_test. pose proof (Nat.div_mod_eq i 16). lia. }
  apply attack_in_live. exists (b * 16 + i)%nat, p, b, ch. split_and!.
  - lia.
  - unfold resolveActivePattern. apply scanTracks_Some. exists track.
    split; [lia|]. split; [split|].
    + exists pid. destruct Hcovers. split_and!; done.
    + intros s c Hs (pid' & Hk' & _ & Hf' & Hle' & Hc').
      destruct (Hsingle track s c track b p ((b * 16 + i) / 16)%nat) as [_ ->];
        [by exists pid' | done | by split | done | lia].
    + intros t' s c Ht (pid' & Hk' & _ & Hf' & Hle' & Hc').
      destruct (Hsingle t' s c track b p ((b * 16 + i) / 16)%nat) as [-> _];
        [by exists pid' | done | by split | done | lia].
  - done.
  - rewrite step_of_placement by done.
    apply attack_in_triggerStep. split_and!; [done..|].
    exists v. split_and!; [by apply get_Some | done..].
Qed.

Lemma live_in_export nm t :
  TriggerAttack nm t ∈ liveSong patterns playlist bpm →
  TriggerAttack nm t ∈ renderSongToBuffer patterns playlist audioClips bpm swing.
Proof.
  intros (k & p & sb & ch & Hk & Hres & Hch & Hin)%attack_in_live.
  unfold resolveActivePattern in Hres.
  apply scanTracks_Some in Hres
    as (track & Htrack & [(pid & Hkey & Hpid & Hfind & Hle & Hcov) _] & _).
  apply attack_in_triggerStep in Hin as (Haudio & Hnotes & v & Hget & Hv & Hnode & Hin).
  destruct (Harranged _ pid p Hkey Hfind) as (_ & [Hbars Hchs] & _).
  destruct (Hchs ch Hch Haudio) as [Hsteps _].
  apply cover_test in Hcov.
  set (i := ((k / 16 - sb) * 16 + k mod 16)%nat) in *.
  assert (Hi : (i < pat_length p)%nat).
  { pose proof (Nat.div_mod_eq (pat_length p) 16) as Hq. rewrite Hbars in Hq.
    pose proof (Nat.mod_upper_bound k 16). unfold i. nia. }
  assert (Hk16 : (sb * 16 + i = k)%nat).
  { pose proof (Nat.div_mod_eq k 16). unfold i. lia. }
  rewrite Nat.mod_small in Hget by lia. apply get_Some in Hget.
  apply attack_in_export. split.
  - apply Qclt_not_le. apply Qcmult_pos_pos; [|by apply secondsPerBar_pos].
    eapply Qclt_le_trans;
      [|by eapply (songEndBar_ge _ _ _ (playlistKey track sb) pid sb p);
           rewrite ?keyParts_playlistKey].
    eapply Qcle_lt_trans; [|apply cover_test; exact Hcov].
    apply (num_le 0). lia.
  - exists (playlistKey track sb), pid. split; [done|].
    apply attack_in_renderEntry. exists sb, p, ch, i, v.
    rewrite keyParts_playlistKey. split_and!; [done..|].
    rewrite swung_off, export_time, Hk16 by (done || apply bpm_ne). done.
Qed.

End ExportLive.

(** C2, as the code has it.  The export schedules the steps of every
    placement of the playlist, whatever its track, so it coincides with
    live song playback only on arrangements that never put two placements
    over one bar.  With swing off and a positive tempo, when every
    placement of an existing pattern has a non-empty id, lies on one of the
    32 tracks, ends within the 72 bars and names a pattern of whole bars
    whose sampled channels carry no notes and have steps for the whole
    pattern, and no bar is covered by two placements, the export schedules
    exactly the attacks live playback dispatches: same sampler, same
    absolute time, same roll expansion. *)
Theorem export_matches_live_single_cover (patterns : list Pattern)
    (playlist : gmap string string) (audioClips : list AudioClip) (bpm swing : Qc) :
  (0 < bpm)%Qc → (swing ≤ 0)%Qc →
  arranged patterns playlist → singleCover patterns playlist →
  ∀ nm t,
    TriggerAttack nm t ∈ renderSongToBuffer patterns playlist audioClips bpm swing
    ↔ TriggerAttack nm t ∈ liveSong patterns playlist bpm.
Proof.
  intros Hbpm Hswing Harr Hsingle nm t. split.
  - by apply export_in_live.
  - by apply live_in_export.
Qed.

(** C2 as stated fails: with A on track 0 and B on track 1, both at bar 0,
    live playback resolves bar 0 to A alone and never triggers the snare of
    B at time 0, while the export schedules it. *)
Lemma export_layers_tracks :
  TriggerAttack "snare" 0%Qc ∈ renderSongToBuffer demoStore layeredPlaylist [] (num 120) 0%Qc
  ∧ TriggerAttack "snare" 0%Qc ∉ liveSong demoStore layeredPlaylist (num 120).
Proof. split; by_evaluation. Qed.

Lemma demoPlaylist_entries key patternId :
  demoPlaylist !! key = Some patternId →
  (key = playlistKey 0 4 ∧ patternId = "B") ∨ (key = playlistKey 0 0 ∧ patternId = "A").
Proof.
  unfold demoPlaylist. intros H.
  apply lookup_insert_Some in H as [[<- <-]|[_ H]]; [by left|].
  apply lookup_insert_Some in H as [[<- <-]|[_ H]]; [by right|].
  by rewrite lookup_empty in H.
Qed.

Lemma demoPlaylist_placed t b p :
  placed demoStore demoPlaylist t b p →
  (t = 0%nat ∧ b = 4%nat ∧ p = patternB) ∨ (t = 0%nat ∧ b = 0%nat ∧ p = patternA).
Proof.
  intros (pid & Hkey & Hfind).
  apply demoPlaylist_entries in Hkey as [[Hk ->]|[Hk ->]];
    apply playlistKey_inj in Hk as [-> ->]; injection Hfind as <-; auto.
Qed.

Lemma demoPlaylist_arranged : arranged demoStore demoPlaylist.
Proof.
  intros key pid p Hkey Hfind.
  assert (Hplay : ∀ q, q = patternA ∨ q = patternB → playable q).
  { intros q [-> | ->]; (split; [reflexivity|]); intros ch Hch _;
      apply list_elem_of_singleton in Hch as ->; split; simpl; (lia || done). }
  apply demoPlaylist_entries in Hkey as [[-> ->]|[-> ->]]; injection Hfind as <-.
  - split; [done|]. split; [by apply Hplay; right|].
    exists 0%nat, 4%nat. split; [done|]. unfold songLengthSteps, songLengthBars. simpl. lia.
  - split; [done|]. split; [by apply Hplay; left|].
    exists 0%nat, 0%nat. split; [done|]. unfold songLengthSteps, songLengthBars. simpl. lia.
Qed.

Lemma demoPlaylist_singleCover : singleCover demoStore demoPlaylist.
Proof.
  intros t1 b1 p1 t2 b2 p2 bar H1 H2 [Hle1 Hc1%cover_test] [Hle2 Hc2%cover_test].
  apply demoPlaylist_placed in H1 as [(-> & -> & ->)|(-> & -> & ->)];
    apply demoPlaylist_placed in H2 as [(-> & -> & ->)|(-> & -> & ->)];
    simpl in *; try done; lia.
Qed.

Lemma export_matches_live_single_cover_witness :
  (0 < num 120)%Qc ∧ (0 ≤ 0)%Qc
  ∧ arranged demoStore demoPlaylist ∧ singleCover demoStore demoPlaylist
  ∧ (TriggerAttack "snare" (num 8) ∈ renderSongToBuffer demoStore demoPlaylist [] (num 120) 0%Qc
     ↔ TriggerAttack "snare" (num 8) ∈ liveSong demoStore demoPlaylist (num 120)).
Proof.
  assert (Hbpm : (0 < num 120)%Qc) by reflexivity.
  assert (Hswing : (0 ≤ 0)%Qc) by discriminate.
  split; [exact Hbpm|]. split; [exact Hswing|].
  split; [exact demoPlaylist_arranged|]. split; [exact demoPlaylist_singleCover|].
  exact (export_matches_live_single_cover demoStore demoPlaylist [] (num 120) 0%Qc
           Hbpm Hswing demoPlaylist_arranged demoPlaylist_singleCover "snare" (num 8)).
Defined.

(** ** Step edits and the shape of the store *)

Lemma Forall2_map_self {A} (R : A → A → Prop) (f : A → A) (l : list A) :
  (∀ x, R x (f x)) → Forall2 R l (map f l).
Proof. intros Hf. induction l as [|x l IH]; simpl; constructor; auto. Qed.

Lemma channelGrows_refl c : channelGrows c c.
Proof. by repeat split. Qed.

Lemma channelGrows_trans c1 c2 c3 :
  channelGrows c1 c2 → channelGrows c2 c3 → channelGrows c1 c3.
Proof.
  intros (? & ? & ? & ?) (? & ? & ? & ?). repeat split; try congruence. lia.
Qed.

Lemma patternGrows_refl p : patternGrows p p.
Proof.
  repeat split. apply Forall2_same_length_lookup_2; [done|].
  intros i x y Hx Hy. assert (x = y) as -> by congruence. apply channelGrows_refl.
Qed.

Lemma patternGrows_trans p1 p2 p3 :
  patternGrows p1 p2 → patternGrows p2 p3 → patternGrows p1 p3.
Proof.
  intros (? & ? & H12) (? & ? & H23). repeat split; try congruence.
  revert H12 H23. generalize (channels p1) (channels p2) (channels p3).
  intros l1 l2 l3 H12. revert l3. induction H12; intros l3 H23; inversion H23; subst;
    constructor; eauto using channelGrows_trans.
Qed.

Lemma storeGrows_trans ps1 ps2 ps3 :
  storeGrows ps1 ps2 → storeGrows ps2 ps3 → storeGrows ps1 ps3.
Proof.
  unfold storeGrows. intros H12. revert ps3.
  induction H12; intros ps3 H23; inversion H23; subst; constructor;
    eauto using patternGrows_trans.
Qed.

Lemma storeGrows_refl ps : storeGrows ps ps.
Proof. induction ps; constructor; auto using patternGrows_refl. Qed.

(** An updater that rewrites the channels of the patterns with one id. *)
Lemma channel_map_grows (active : string) (g : ChannelState → ChannelState) ps :
  (∀ ch, channelGrows ch (g ch)) →
  storeGrows ps
    (map (λ p, if negb (String.eqb (pat_id p) active) then p
               else withChannels p (map g (channels p))) ps).
Proof.
  intros Hg. apply Forall2_map_self. intros p.
  destruct (negb _); [apply patternGrows_refl|].
  repeat split. by apply Forall2_map_self.
Qed.

Lemma length_zeros n : length (Js.zeros n) = n.
Proof. apply length_replicate. Qed.

Lemma length_copySteps fuel i n gen l :
  (length l ≤ length (copySteps fuel i n gen l))%nat.
Proof.
  revert i l. induction fuel as [|fuel IH]; intros i l; simpl; [done|].
  case_bool_decide; [|done]. etrans; [|apply IH]. rewrite length_set. lia.
Qed.

Lemma applyEdit_grows random e ps : storeGrows ps (applyEdit random e ps).
Proof.
  destruct e; simpl.
  - apply channel_map_grows. intros ch. destruct (negb _); [apply channelGrows_refl|].
    repeat split. simpl. rewrite length_set. lia.
  - apply channel_map_grows. intros ch. destruct (negb _); [apply channelGrows_refl|].
    repeat split. simpl. rewrite length_set. lia.
  - apply Forall2_map_self. intros p. destruct (negb _); [apply patternGrows_refl|].
    repeat split. cbn [channels withLengthChannels]. apply Forall2_map_self. intros ch. cbv beta.
    destruct (Js.truthy (isAudioClipChannel ch)); [apply channelGrows_refl|].
    case_bool_decide; [|apply channelGrows_refl].
    repeat split. simpl. rewrite length_app. lia.
  - apply channel_map_grows. intros ch. repeat split. simpl. by rewrite length_zeros.
  - apply channel_map_grows. intros ch. destruct (String.eqb _ _); [|apply channelGrows_refl].
    repeat split. simpl. by rewrite length_zeros.
  - apply channel_map_grows. intros ch. destruct (String.eqb _ _); [|apply channelGrows_refl].
    repeat split. simpl. by rewrite length_zeros.
  - apply channel_map_grows. intros ch. destruct (String.eqb _ _); [|apply channelGrows_refl].
    by repeat split.
  - apply channel_map_grows. intros ch. destruct (negb _); [apply channelGrows_refl|].
    repeat split. simpl. apply length_copySteps.
  - unfold handleSampleDrop.
    destruct (findPatternIndex ps _) as [pi|]; [|apply storeGrows_refl].
    destruct (ps !! pi) as [active|]; [|apply storeGrows_refl].
    destruct (findIndex (channels active) _); [|apply storeGrows_refl].
    apply channel_map_grows. intros ch. destruct (String.eqb _ _); [|apply channelGrows_refl].
    by repeat split.
Qed.

Lemma storeGrows_parallel ps ps' : storeGrows ps ps' → parallel ps → parallel ps'.
Proof.
  intros Hg Hpar i1 i2 p1' p2' H1 H2.
  destruct (Forall2_lookup_r _ _ _ _ _ Hg H1) as (p1 & Hp1 & _ & _ & Hc1).
  destruct (Forall2_lookup_r _ _ _ _ _ Hg H2) as (p2 & Hp2 & _ & _ & Hc2).
  destruct (Hpar i1 i2 p1 p2 Hp1 Hp2) as [Hlen Hmix].
  split.
  - apply Forall2_length in Hc1, Hc2. congruence.
  - intros j c1' c2' Hj1 Hj2.
    destruct (Forall2_lookup_r _ _ _ _ _ Hc1 Hj1) as (c1 & Hk1 & _ & Hm1 & _).
    destruct (Forall2_lookup_r _ _ _ _ _ Hc2 Hj2) as (c2 & Hk2 & _ & Hm2 & _).
    rewrite Hm1, Hm2. by eapply Hmix.
Qed.

(** X1.  Whatever step edits are applied, in whatever order - toggles,
    subdivide resets, length changes, clearing, setting or recording notes,
    generated patterns, sample drops - the store keeps its patterns and
    their ids and names, every pattern keeps its channels, every channel
    keeps its id, its audio-clip flag and its mixer settings, and no steps
    array gets shorter; so parallel channel lists stay parallel. *)
Theorem step_edits_keep_shape (random : nat → Qc) (edits : list StepEdit)
    (patterns : list Pattern) :
  storeGrows patterns (applyEdits random edits patterns)
  ∧ length (applyEdits random edits patterns) = length patterns
  ∧ (parallel patterns → parallel (applyEdits random edits patterns)).
Proof.
  assert (H : storeGrows patterns (applyEdits random edits patterns)).
  { revert patterns. induction edits as [|e edits IH]; intros patterns.
    - apply storeGrows_refl.
    - unfold applyEdits. simpl. eapply storeGrows_trans; [apply applyEdit_grows|apply IH]. }
  split; [done|]. split.
  - symmetry. by eapply Forall2_length.
  - by apply storeGrows_parallel.
Qed.

Lemma elem_of_map {A B} (f : A → B) (l : list A) (y : B) :
  y ∈ map f l ↔ ∃ x, y = f x ∧ x ∈ l.
Proof. rewrite map_is_fmap. apply list_elem_of_fmap. Qed.

Lemma stepsCover_patterns ps : stepsCover ps ↔ ∀ p, p ∈ ps → patternCovered p.
Proof. split; intros H p; [intros Hp ch | intros ch Hp]; by apply H. Qed.

Lemma stepsCover_map (F : Pattern → Pattern) ps :
  (∀ p, patternCovered p → patternCovered (F p)) →
  stepsCover ps → stepsCover (map F ps).
Proof.
  rewrite !stepsCover_patterns. intros HF Hps p' (p & -> & Hp)%elem_of_map. auto.
Qed.

Lemma patternCovered_channels (g : ChannelState → ChannelState) p :
  (∀ ch, channelGrows ch (g ch)) →
  patternCovered p → patternCovered (withChannels p (map g (channels p))).
Proof.
  intros Hg Hp ch' (ch & -> & Hch)%elem_of_map Haudio. simpl.
  destruct (Hg ch) as (_ & _ & Hflag & Hlen). rewrite Hflag in Haudio.
  specialize (Hp ch Hch Haudio). lia.
Qed.

Lemma patternCovered_active (active : string) (g : ChannelState → ChannelState) p :
  (∀ ch, channelGrows ch (g ch)) →
  patternCovered p →
  patternCovered (if negb (String.eqb (pat_id p) active) then p
                  else withChannels p (map g (channels p))).
Proof. intros Hg Hp. destruct (negb _); [done|]. by apply patternCovered_channels. Qed.

Lemma applyEdit_cover random e ps : stepsCover ps → stepsCover (applyEdit random e ps).
Proof.
  pose proof (applyEdit_grows random e) as Hgrow.
  destruct e; simpl in *.
  - apply stepsCover_map. intros p. apply patternCovered_active. intros ch.
    destruct (negb _); [apply channelGrows_refl|]. repeat split. simpl. rewrite length_set. lia.
  - apply stepsCover_map. intros p. apply patternCovered_active. intros ch.
    destruct (negb _); [apply channelGrows_refl|]. repeat split. simpl. rewrite length_set. lia.
  - apply stepsCover_map. intros p Hp. destruct (negb _); [done|].
    intros ch' (ch & -> & Hch)%elem_of_map. cbv beta. simpl.
    destruct (Js.truthy (isAudioClipChannel ch)) eqn:Haudio; [by intros ?; congruence|].
    case_bool_decide as Hlen; simpl; intros _.
    + rewrite length_app, length_zeros. lia.
    + lia.
  - apply stepsCover_map. intros p. apply patternCovered_active. intros ch.
    repeat split. simpl. by rewrite length_zeros.
  - apply stepsCover_map. intros p. apply patternCovered_active. intros ch.
    destruct (String.eqb _ _); [|apply channelGrows_refl].
    repeat split. simpl. by rewrite length_zeros.
  - apply stepsCover_map. intros p. apply patternCovered_active. intros ch.
    destruct (String.eqb _ _); [|apply channelGrows_refl].
    repeat split. simpl. by rewrite length_zeros.
  - apply stepsCover_map. intros p. apply patternCovered_active. intros ch.
    destruct (String.eqb _ _); [|apply channelGrows_refl]. by repeat split.
  - apply stepsCover_map. intros p. apply patternCovered_active. intros ch.
    destruct (negb _); [apply channelGrows_refl|].
    repeat split. simpl. apply length_copySteps.
  - unfold handleSampleDrop.
    destruct (findPatternIndex ps _) as [pi|]; [|done].
    destruct (ps !! pi) as [active|]; [|done].
    destruct (findIndex (channels active) _); [|done].
    apply stepsCover_map. intros p. apply patternCovered_active. intros ch.
    destruct (String.eqb _ _); [|apply channelGrows_refl]. by repeat split.
Qed.

(** X2.  If every sampled channel has steps for the whole of its pattern,
    it still has after any run of step edits: a length change pads the
    arrays it outgrows, and no other edit shortens an array or lengthens a
    pattern. *)
Theorem step_edits_keep_cover (random : nat → Qc) (edits : list StepEdit)
    (patterns : list Pattern) :
  stepsCover patterns → stepsCover (applyEdits random edits patterns).
Proof.
  revert patterns. induction edits as [|e edits IH]; intros patterns Hcover; [done|].
  unfold applyEdits. simpl. apply IH. by apply applyEdit_cover.
Qed.

Lemma demoStore_cover : stepsCover demoStore.
Proof.
  intros p ch Hp Hch _.
  apply list_elem_of_In in Hp. simpl in Hp. destruct Hp as [<-|[<-|[]]];
    apply list_elem_of_singleton in Hch as ->; simpl; lia.
Qed.

Lemma step_edits_keep_cover_witness :
  stepsCover demoStore ∧ stepsCover (applyEdits (λ _, 0%Qc) demoEdits demoStore).
Proof.
  split; [exact demoStore_cover|].
  exact (step_edits_keep_cover (λ _, 0%Qc) demoEdits demoStore demoStore_cover).
Defined.

(** ** Pattern export against live pattern playback *)

Lemma attack_in_exportPattern (p : Pattern) (bpm swing : Qc) nm t :
  TriggerAttack nm t ∈ exportPatternToWav p bpm swing
  ↔ ¬ (num (pat_length p) * secondsPer16th bpm ≤ 0)%Qc
    ∧ ∃ ch i v, ch ∈ channels p
        ∧ sample_name (sample ch) ∈ patternSamplers p
        ∧ steps ch !! i = Some (Some v) ∧ (i < pat_length p)%nat ∧ (0 < v)%Z
        ∧ TriggerAttack nm t
            ∈ scheduleStep bpm (sample_name (sample ch))
                (swung bpm swing (0 + i) (0 + num i * secondsPer16th bpm)%Qc) v.
Proof.
  unfold exportPatternToWav. case_bool_decide as Hdur.
  - split; [by intros ?%elem_of_nil | by intros [? _]].
  - rewrite elem_of_flat_map. split.
    + intros (ch & Hch & Hin). case_bool_decide as Hnode; [|by apply elem_of_nil in Hin].
      apply attack_in_scheduleSteps in Hin as (i & v & Hi & Hlen & Hv & Hin).
      split; [done|]. by exists ch, i, v.
    + intros (_ & ch & i & v & Hch & Hnode & Hi & Hlen & Hv & Hin).
      exists ch. split; [done|]. rewrite bool_decide_eq_true_2 by done.
      apply attack_in_scheduleSteps. by exists i, v.
Qed.

Lemma attack_in_livePattern (p : Pattern) (bpm : Qc) nm t :
  TriggerAttack nm t ∈ livePattern p bpm
  ↔ ∃ k ch, (k < pat_length p)%nat ∧ ch ∈ channels p
      ∧ TriggerAttack nm t
          ∈ triggerStep (patternSamplers p) (secondsPer16th bpm) (stepTime bpm k)
              (Js.get (steps ch) k) ch.
Proof.
  unfold livePattern, patternSequenceCallback. rewrite elem_of_flat_map. split.
  - intros (k & Hk%elem_of_seq_0 & (ch & Hch & Hin)%elem_of_flat_map). by exists k, ch.
  - intros (k & ch & Hk & Hch & Hin). exists k. split; [by apply elem_of_seq_0|].
    apply elem_of_flat_map. by exists ch.
Qed.

Lemma secondsPer16th_pos (bpm : Qc) : (0 < bpm)%Qc → (0 < secondsPer16th bpm)%Qc.
Proof.
  intros Hbpm. pose proof (secondsPerBar_pos bpm Hbpm) as Hbar.
  rewrite secondsPerBar_16 in Hbar by (intros ->; exact (Qclt_not_eq _ _ Hbpm eq_refl)).
  destruct (Qclt_le_dec 0 (secondsPer16th bpm)) as [|Hle]; [done|]. exfalso.
  assert (H : (num 16 * secondsPer16th bpm ≤ num 16 * 0)%Qc).
  { apply Qcmult_le_mono_nonneg_l; [|done]. apply Qclt_le_weak, num_16_pos. }
  rewrite Qcmult_0_r in H. by apply Qcle_not_lt in H.
Qed.

(** X3.  With swing off and a positive tempo, the pattern export of a
    pattern whose channels are all sampled channels without piano-roll
    notes schedules exactly the attacks one pass of live pattern playback
    dispatches: same sampler, same time, same roll expansion. *)
Theorem pattern_export_matches_live (p : Pattern) (bpm swing : Qc) :
  (0 < bpm)%Qc → (swing ≤ 0)%Qc → stepDriven p →
  ∀ nm t,
    TriggerAttack nm t ∈ exportPatternToWav p bpm swing
    ↔ TriggerAttack nm t ∈ livePattern p bpm.
Proof.
  intros Hbpm Hswing Hdriven nm t.
  rewrite attack_in_exportPattern, attack_in_livePattern. split.
  - intros (_ & ch & i & v & Hch & Hnode & Hi & Hlen & Hv & Hin).
    destruct (Hdriven ch Hch) as [Haudio Hnotes].
    rewrite swung_off, Qcplus_0_l in Hin by done.
    exists i, ch. split; [done|]. split; [done|].
    apply attack_in_triggerStep. split_and!; [done..|].
    exists v. split_and!; [by apply get_Some | done..].
  - intros (k & ch & Hk & Hch & Hin).
    apply attack_in_triggerStep in Hin as (Haudio & Hnotes & v & Hget & Hv & Hnode & Hin).
    split.
    + apply Qclt_not_le. apply Qcmult_pos_pos; [|by apply secondsPer16th_pos].
      apply (num_lt 0). lia.
    + exists ch, k, v. rewrite swung_off, Qcplus_0_l by done.
      split_and!; [done | done | by apply get_Some | done..].
Qed.

Lemma patternA_stepDriven : stepDriven patternA.
Proof. intros ch Hch. apply list_elem_of_singleton in Hch as ->. by split. Qed.

Lemma pattern_export_matches_live_witness :
  (0 < num 120)%Qc ∧ (0 ≤ 0)%Qc ∧ stepDriven patternA
  ∧ (TriggerAttack "kick" 0%Qc ∈ exportPatternToWav patternA (num 120) 0%Qc
     ↔ TriggerAttack "kick" 0%Qc ∈ livePattern patternA (num 120)).
Proof.
  assert (Hbpm : (0 < num 120)%Qc) by reflexivity.
  assert (Hswing : (0 ≤ 0)%Qc) by discriminate.
  split; [exact Hbpm|]. split; [exact Hswing|]. split; [exact patternA_stepDriven|].
  exact (pattern_export_matches_live patternA (num 120) 0%Qc Hbpm Hswing
           patternA_stepDriven "kick" 0%Qc).
Defined.

(** ** Clearing a pattern *)

Lemma flat_map_nil {A B} (f : A → list B) (l : list A) :
  (∀ x, x ∈ l → f x = []) → flat_map f l = [].
Proof.
  intros Hf. induction l as [|x l IH]; simpl; [done|].
  rewrite Hf, IH; [done | | apply list_elem_of_here].
  intros y Hy. apply Hf. by apply list_elem_of_further.
Qed.

Lemma lookup_zeros n i x : Js.zeros n !! i = Some x → x = Some 0%Z.
Proof. unfold Js.zeros. by intros [-> _]%lookup_replicate. Qed.

Lemma scheduleSteps_zeros bpm swing L name startTime startStep n :
  scheduleSteps bpm swing L name startTime startStep (Js.zeros n) = [].
Proof.
  apply elem_of_nil_inv. intros x Hin. unfold scheduleSteps in Hin.
  apply elem_of_concat in Hin as (l & Hl & Hin).
  apply elem_of_lookup_imap in Hl as (i & sv & -> & Hi).
  apply lookup_zeros in Hi as ->. simpl in Hin.
  rewrite orb_true_r in Hin. by apply elem_of_nil in Hin.
Qed.

Lemma get_zeros n k : (k < n)%nat → Js.get (Js.zeros n) k = Some 0%Z.
Proof. intros Hk. unfold Js.get, Js.zeros. by rewrite lookup_replicate_2. Qed.

Lemma get_zeros_silent n k : Js.get (Js.zeros n) k = Some 0%Z ∨ Js.get (Js.zeros n) k = None.
Proof.
  destruct (decide (k < n)%nat); [left; by apply get_zeros|].
  right. unfold Js.get, Js.zeros. rewrite lookup_ge_None_2; [done|].
  rewrite length_replicate. lia.
Qed.

Lemma triggerStep_silent nodes nd time sv ch :
  sv = Some 0%Z ∨ sv = None → triggerStep nodes nd time sv ch = [].
Proof.
  intros [-> | ->]; unfold triggerStep;
    destruct (Js.truthy _); try done;
    destruct (match notes ch with Some ns => bool_decide (0 < length ns)%nat | None => false end);
    done.
Qed.

(** X4.  After the active pattern is cleared, every pattern of the store
    with the active id has no notes and a zero at every step of every
    channel, the arrays keeping their lengths; it is silent: the pattern
    export schedules nothing for it, live pattern playback dispatches
    nothing at any step, and a song export schedules nothing for any
    placement of it.  Patterns with another id are not touched. *)
Theorem cleared_pattern_is_silent (activePatternId : string) (patterns : list Pattern)
    (i : nat) (p : Pattern) :
  patterns !! i = Some p →
  ∃ p', handleClearPattern activePatternId patterns !! i = Some p'
    ∧ (pat_id p ≠ activePatternId → p' = p)
    ∧ (pat_id p = activePatternId →
        pat_id p' = pat_id p ∧ pat_length p' = pat_length p
        ∧ length (channels p') = length (channels p)
        ∧ (∀ j ch, channels p !! j = Some ch →
             ∃ ch', channels p' !! j = Some ch' ∧ notes ch' = Some []
               ∧ length (steps ch') = length (steps ch)
               ∧ ∀ k, (k < length (steps ch))%nat → Js.get (steps ch') k = Some 0%Z)
        ∧ (∀ bpm swing, exportPatternToWav p' bpm swing = [])
        ∧ (∀ nodes noteDuration time step,
             patternSequenceCallback nodes noteDuration p' time step = [])
        ∧ (∀ bpm swing key,
             renderEntry [p'] bpm swing key activePatternId = [])).
Proof.
  intros Hp. unfold handleClearPattern. rewrite lookup_map, Hp. simpl.
  eexists. split; [done|].
  destruct (String.eqb_spec (pat_id p) activePatternId) as [Hid|Hid]; simpl;
    [|by split].
  split; [done|]. intros _.
  set (clear := λ channel : ChannelState,
         withStepsNotes channel (Js.zeros (length (steps channel))) []).
  assert (Hsched : ∀ bpm swing st ss ch',
    ch' ∈ map clear (channels p) →
    scheduleSteps bpm swing (pat_length p) (sample_name (sample ch')) st ss (steps ch') = []).
  { intros bpm swing st ss ch' (ch & -> & _)%elem_of_map. apply scheduleSteps_zeros. }
  split_and!; try done.
  - simpl. by rewrite length_map.
  - intros j ch Hch. simpl. rewrite lookup_map, Hch. simpl. eexists. split; [done|].
    split; [done|]. unfold clear. cbn [steps withStepsNotes]. rewrite length_zeros.
    split; [done|]. intros k Hk. by apply get_zeros.
  - intros bpm swing. unfold exportPatternToWav. case_bool_decide; [done|].
    apply flat_map_nil. intros ch' Hch'. case_bool_decide; [|done]. by apply Hsched.
  - intros nodes nd time step. unfold patternSequenceCallback. apply flat_map_nil.
    intros ch' (ch & -> & _)%elem_of_map. apply triggerStep_silent. apply get_zeros_silent.
  - intros bpm swing key. unfold renderEntry.
    destruct (keyParts key).2 as [bar|]; [|done]. simpl.
    rewrite Hid, String.eqb_refl. apply flat_map_nil. intros ch' Hch'.
    destruct (Js.truthy _); [done|]. case_bool_decide; [|done]. by apply Hsched.
Qed.

Lemma cleared_pattern_is_silent_witness :
  ∃ p', handleClearPattern "A" demoStore !! 0%nat = Some p'
    ∧ exportPatternToWav p' (num 120) 0%Qc = [].
Proof.
  destruct (cleared_pattern_is_silent "A" demoStore 0 patternA eq_refl)
    as (p' & Hp' & _ & Hclear).
  exists p'. split; [exact Hp'|].
  exact (proj1 (proj2 (proj2 (proj2 (proj2 (Hclear eq_refl))))) (num 120) 0%Qc).
Defined.
(** ** Recording, new patterns and audio clips *)

Lemma map_map_ext {A B C} (f : A → B) (g : B → C) (h : A → C) (l : list A) :
  (∀ x, g (f x) = h x) → map g (map f l) = map h l.
Proof. intros Hfg. rewrite List.map_map. apply List.map_ext. exact Hfg. Qed.

(** X5.  A recording take changes the store exactly as writing its notes
    in the piano roll does: arming the recording and then storing the
    final notes at stop (which happens only when there are any) leaves the
    store [handleUpdateChannelNotes] produces for the same pattern,
    channel and notes. *)
Theorem recording_take_sets_notes (activePatternId selectedChannelId : string)
    (finalNotes : list Note) (patterns : list Pattern) :
  stopPlaybackStore activePatternId selectedChannelId finalNotes
    (clearForRecording activePatternId selectedChannelId patterns)
  = handleUpdateChannelNotes activePatternId selectedChannelId finalNotes patterns.
Proof.
  unfold stopPlaybackStore. case_bool_decide as Hlen.
  - unfold storeRecording, clearForRecording, handleUpdateChannelNotes.
    apply map_map_ext. intros p.
    destruct (String.eqb (pat_id p) activePatternId) eqn:Hid; simpl; rewrite Hid; simpl;
      [|done].
    unfold withChannels. simpl. f_equal. apply map_map_ext. intros c.
    destruct (String.eqb (ch_id c) selectedChannelId) eqn:Hc; simpl; rewrite Hc; [|done].
    unfold withNotes, withStepsNotes. simpl. done.
  - destruct finalNotes as [|n ns]; [|simpl in Hlen; lia].
    done.
Qed.

(** ** New patterns *)

Lemma append_cancel_l (s a b : string) : s ++ a = s ++ b → a = b.
Proof.
  induction s as [|c s IH]; simpl; [done|]. intros [= H]. by apply IH.
Qed.

Lemma numToString_inj (a b : nat) : Js.numToString a = Js.numToString b → a = b.
Proof.
  intros H. apply (f_equal Js.Number) in H. rewrite !Number_numToString in H.
  by injection H.
Qed.

Lemma findPattern_Some patterns id p :
  findPattern patterns id = Some p → p ∈ patterns ∧ pat_id p = id.
Proof.
  unfold findPattern. intros [Hin Hid]%List.find_some. split.
  - by apply list_elem_of_In.
  - by apply String.eqb_eq.
Qed.

Lemma lookup_cloneChannel patternId cs j :
  mapi (cloneChannel patternId) cs !! j = cloneChannel patternId j <$> cs !! j.
Proof. unfold mapi. apply list_lookup_imap. Qed.

Lemma cloneChannels_silent patternId cs bpm swing L name st ss ch' :
  ch' ∈ mapi (cloneChannel patternId) cs →
  scheduleSteps bpm swing L name st ss (steps ch') = [].
Proof.
  intros (j & Hj)%list_elem_of_lookup. rewrite lookup_cloneChannel in Hj.
  destruct (cs !! j) as [c|]; [|done]. injection Hj as <-. apply scheduleSteps_zeros.
Qed.

(** X6.  Adding a pattern while an existing pattern is active appends one
    pattern of length 16 to the store and changes nothing else.  The new
    pattern has one channel for each channel of the active pattern, with
    the same name, sample, mixer settings and clip flag, an all-zero steps
    array of the same length and no notes; its channel ids are pairwise
    distinct; it is silent in a pattern export; and a store whose patterns
    agree channel by channel on mixer settings stays that way. *)
Theorem added_pattern_is_blank_clone (stamp activePatternId : string)
    (patterns : list Pattern) (p : Pattern) :
  findPattern patterns activePatternId = Some p →
  ∃ np, handleAddPattern stamp activePatternId patterns = (patterns ++ [np])%list
    ∧ pat_id np = "pattern-" ++ stamp
    ∧ pat_name np = "Pattern " ++ Js.numToString (length patterns + 1)
    ∧ pat_length np = 16%nat
    ∧ length (channels np) = length (channels p)
    ∧ (∀ j ch, channels p !! j = Some ch →
         ∃ ch', channels np !! j = Some ch'
           ∧ ch_id ch' = "ch-" ++ pat_id np ++ "-" ++ Js.numToString (j + 1)
           ∧ ch_name ch' = ch_name ch ∧ sample ch' = sample ch
           ∧ mixer ch' = mixer ch ∧ cutItself ch' = cutItself ch
           ∧ isAudioClipChannel ch' = isAudioClipChannel ch
           ∧ notes ch' = Some []
           ∧ steps ch' = Js.zeros (length (steps ch)))
    ∧ distinctIds np
    ∧ (∀ bpm swing, exportPatternToWav np bpm swing = [])
    ∧ (parallel patterns → parallel (patterns ++ [np])%list).
Proof.
  intros Hfind. unfold handleAddPattern. rewrite Hfind. simpl.
  eexists. split; [done|]. unfold createNewPattern. cbn [pat_id pat_name pat_length channels].
  set (pid := "pattern-" ++ stamp).
  split; [done|]. split; [done|]. split; [done|].
  assert (Hlen : length (mapi (cloneChannel pid) (channels p)) = length (channels p)).
  { unfold mapi. apply length_imap. }
  split; [done|]. split_and!.
  - intros j ch Hch. rewrite lookup_cloneChannel, Hch. simpl. eexists. by split_and!.
  - intros j1 j2 c1 c2. cbn [channels]. rewrite !lookup_cloneChannel.
    destruct (channels p !! j1) as [a1|]; [|done].
    destruct (channels p !! j2) as [a2|]; [|done].
    intros [= <-] [= <-]. simpl. intros H.
    change ("ch-" ++ pid ++ "-" ++ Js.numToString (j1 + 1)
            = "ch-" ++ pid ++ "-" ++ Js.numToString (j2 + 1)) in H.
    apply append_cancel_l, append_cancel_l, append_cancel_l, numToString_inj in H. lia.
  - intros bpm swing. unfold exportPatternToWav. cbn [pat_length channels].
    case_bool_decide; [done|]. apply flat_map_nil. intros ch' Hch'.
    case_bool_decide; [|done]. by eapply cloneChannels_silent.
  - intros Hpar.
    destruct (findPattern_Some _ _ _ Hfind) as [(ip & Hip)%list_elem_of_lookup _].
    set (np := {| pat_id := pid; pat_name := _; channels := _; pat_length := _ |}).
    assert (Hnew : ∀ i q, patterns !! i = Some q →
      length (channels q) = length (channels np)
      ∧ ∀ j c1 c2, channels q !! j = Some c1 → channels np !! j = Some c2 →
          mixer c1 = mixer c2).
    { intros i q Hq. destruct (Hpar i ip q p Hq Hip) as [Hl Hm]. split.
      - simpl. by rewrite Hlen.
      - intros j c1 c2 Hc1. simpl. rewrite lookup_cloneChannel.
        destruct (channels p !! j) as [c|] eqn:Hc; [|done]. intros [= <-].
        by rewrite (Hm j c1 c Hc1 Hc). }
    intros i1 i2 p1 p2 H1 H2.
    apply lookup_app_Some in H1 as [H1|[Hge1 H1]];
      apply lookup_app_Some in H2 as [H2|[Hge2 H2]].
    + by apply (Hpar i1 i2).
    + apply list_lookup_singleton_Some in H2 as [_ <-]. by apply (Hnew i1).
    + apply list_lookup_singleton_Some in H1 as [_ <-].
      destruct (Hnew i2 p2 H2) as [Hl Hm]. split; [done|].
      intros j c1 c2 Hc1 Hc2. symmetry. by eapply Hm.
    + apply list_lookup_singleton_Some in H1 as [_ <-].
      apply list_lookup_singleton_Some in H2 as [_ <-].
      split; [done|]. intros j c1 c2 Hc1 Hc2. congruence.
Qed.

Lemma added_pattern_is_blank_clone_witness :
  findPattern demoStore "A" = Some patternA
  ∧ ∃ np, handleAddPattern "7" "A" demoStore = (demoStore ++ [np])%list
      ∧ pat_length np = 16%nat ∧ length (channels np) = 1%nat.
Proof.
  split; [reflexivity|].
  destruct (added_pattern_is_blank_clone "7" "A" demoStore patternA eq_refl)
    as (np & Heq & _ & _ & Hlen & Hch & _).
  exists np. split; [exact Heq|]. split; [exact Hlen | exact Hch].
Defined.

(** ** Audio clips *)

Lemma filter_all {A} (P : A → Prop) `{∀ x, Decision (P x)} (l : list A) :
  (∀ x, x ∈ l → P x) → filter P l = l.
Proof.
  induction l as [|x l IH]; [done|]. intros Hall.
  rewrite filter_cons_True by (apply Hall, list_elem_of_here).
  f_equal. apply IH. intros y Hy. by apply Hall, list_elem_of_further.
Qed.

Lemma find_app_fresh {A} (f : A → bool) (l : list A) (x : A) :
  (∀ y, y ∈ l → f y = false) → f x = true → List.find f (l ++ [x])%list = Some x.
Proof.
  intros Hl Hx. induction l as [|y l IH]; simpl.
  - by rewrite Hx.
  - rewrite (Hl y) by apply list_elem_of_here. apply IH.
    intros z Hz. by apply Hl, list_elem_of_further.
Qed.

Lemma eqb_neq_false (a b : string) : a ≠ b → String.eqb a b = false.
Proof. by intros ?%String.eqb_neq. Qed.

Lemma removeClipChannel_added c patterns :
  unusedChannelId (ch_id c) patterns →
  removeClipChannel (ch_id c) (handleAddChannel c patterns) = patterns.
Proof.
  intros Hfresh. unfold removeClipChannel, handleAddChannel.
  rewrite List.map_map. rewrite <-(List.map_id patterns) at 2.
  apply List.map_ext_in. intros p Hp%list_elem_of_In. cbn [channels withChannels pat_id pat_name pat_length].
  rewrite list.filter_app, filter_cons_False, filter_nil, app_nil_r.
  - rewrite filter_all; [by destruct p|].
    intros ch Hch. rewrite eqb_neq_false; [done|]. by eapply Hfresh.
  - rewrite String.eqb_refl. simpl. done.
Qed.

(** X7.  Deleting an audio clip right after it was added restores the
    pattern store and the clip list, provided the ids the two stamps
    produce are not in use: the channel the clip brought leaves every
    pattern and no other channel or clip is touched. *)
Theorem clip_add_delete_round_trip (channelStamp clipStamp : string) (s : Sample)
    (track' : nat) (startBar' durationInSeconds bpm : Qc)
    (patterns : list Pattern) (clips : list AudioClip) :
  unusedChannelId ("channel-" ++ channelStamp) patterns →
  unusedClipId ("audioclip-" ++ clipStamp) clips →
  handleDeleteAudioClip ("audioclip-" ++ clipStamp)
    (handleAddAudioClip channelStamp clipStamp s track' startBar' durationInSeconds bpm
       (patterns, clips))
  = (patterns, clips).
Proof.
  intros Hch Hclip. unfold handleDeleteAudioClip, handleAddAudioClip.
  cbn [fst snd].
  rewrite find_app_fresh; cycle 1.
  - intros y Hy. apply eqb_neq_false. by apply Hclip.
  - simpl. apply String.eqb_refl.
  - cbn [channelId]. f_equal.
    + by apply removeClipChannel_added.
    + rewrite list.filter_app, filter_cons_False, filter_nil, app_nil_r.
      * apply filter_all. intros c Hc. rewrite eqb_neq_false; [done|]. by apply Hclip.
      * cbn [clip_id]. rewrite String.eqb_refl. simpl. done.
Qed.

Lemma clip_add_delete_round_trip_witness :
  unusedChannelId "channel-1" demoStore
  ∧ unusedClipId "audioclip-2" []
  ∧ handleDeleteAudioClip "audioclip-2"
      (handleAddAudioClip "1" "2" kick 3 (num 4) (num 8) (num 120) (demoStore, []))
    = (demoStore, []).
Proof.
  assert (H1 : unusedChannelId ("channel-" ++ "1") demoStore).
  { intros p ch Hp Hc. unfold demoStore in Hp.
    apply elem_of_cons in Hp as [->|Hp];
      [|apply list_elem_of_singleton in Hp as ->];
      apply list_elem_of_singleton in Hc as ->; discriminate. }
  assert (H2 : unusedClipId ("audioclip-" ++ "2") []).
  { intros c Hc. by apply elem_of_nil in Hc. }
  split; [exact H1|]. split; [exact H2|].
  exact (clip_add_delete_round_trip "1" "2" kick 3 (num 4) (num 8) (num 120)
           demoStore [] H1 H2).
Defined.

Lemma findPattern_map (f : Pattern → Pattern) patterns id :
  (∀ p, pat_id (f p) = pat_id p) →
  findPattern (map f patterns) id = f <$> findPattern patterns id.
Proof.
  intros Hf. unfold findPattern. induction patterns as [|q qs IH]; simpl; [done|].
  rewrite Hf. by destruct (String.eqb (pat_id q) id).
Qed.

Lemma length_filter_le {A} (P : A → Prop) `{∀ x, Decision (P x)} (l : list A) :
  (length (filter P l) ≤ length l)%nat.
Proof.
  induction l as [|x l IH]; [done|]. rewrite filter_cons.
  destruct (decide (P x)); simpl; lia.
Qed.

Lemma removeClipChannel_lookup id patterns i :
  removeClipChannel id patterns !! i
  = (λ p, withChannels p
            (filter (λ ch, negb (String.eqb (ch_id ch) id) = true) (channels p)))
    <$> patterns !! i.
Proof. unfold removeClipChannel. apply lookup_map. Qed.

(** X8.  A pattern added while an audio clip exists keeps a copy of the
    clip's channel under a new id, and deleting the clip does not remove
    that copy: after add clip, add pattern, delete clip, the pattern that
    was active has no more channels than before, while the added pattern
    has one more, its last channel being an audio clip channel with the
    sample of the deleted clip; the channel lists of the store are then
    no longer parallel. *)
Theorem deleted_clip_leaves_copy (channelStamp clipStamp patternStamp : string)
    (s : Sample) (track' : nat) (startBar' durationInSeconds bpm : Qc)
    (activePatternId : string) (patterns : list Pattern) (clips : list AudioClip)
    (p : Pattern) :
  findPattern patterns activePatternId = Some p →
  unusedClipId ("audioclip-" ++ clipStamp) clips →
  let added :=
    handleAddAudioClip channelStamp clipStamp s track' startBar' durationInSeconds bpm
      (patterns, clips) in
  let extended := (handleAddPattern patternStamp activePatternId added.1, added.2) in
  let final := handleDeleteAudioClip ("audioclip-" ++ clipStamp) extended in
  final.2 = clips
  ∧ length final.1 = S (length patterns)
  ∧ ∃ i q np copy,
      patterns !! i = Some p
      ∧ final.1 !! i = Some q ∧ pat_id q = activePatternId
      ∧ (length (channels q) ≤ length (channels p))%nat
      ∧ final.1 !! length patterns = Some np
      ∧ length (channels np) = S (length (channels p))
      ∧ channels np !! length (channels p) = Some copy
      ∧ isAudioClipChannel copy = Some true ∧ sample copy = s
      ∧ ¬ parallel final.1.
Proof.
  intros Hfind Hclip added extended final.
  destruct (findPattern_Some _ _ _ Hfind) as [(i & Hi)%list_elem_of_lookup Hid].
  set (nc := createNewChannel channelStamp s true).
  assert (Hadded : added.1 = handleAddChannel nc patterns) by done.
  assert (Hfind' : findPattern added.1 activePatternId
                   = Some (withChannels p (channels p ++ [nc])%list)).
  { rewrite Hadded. unfold handleAddChannel. rewrite findPattern_map by done.
    by rewrite Hfind. }
  set (np0 := createNewPattern patternStamp
                ("Pattern " ++ Js.numToString (length added.1 + 1))
                (Some (channels p ++ [nc])%list)).
  assert (Hext : extended.1 = (handleAddChannel nc patterns ++ [np0])%list).
  { unfold extended. cbn [fst]. unfold handleAddPattern. by rewrite Hfind', <-Hadded. }
  assert (Hfinal : final
    = (removeClipChannel ("channel-" ++ channelStamp) extended.1, clips)).
  { unfold final, handleDeleteAudioClip. cbn [snd extended added handleAddAudioClip].
    rewrite find_app_fresh; cycle 1.
    - intros y Hy. apply eqb_neq_false. by apply Hclip.
    - simpl. apply String.eqb_refl.
    - cbn [channelId ch_id createNewChannel]. f_equal.
      rewrite list.filter_app, filter_cons_False, filter_nil, app_nil_r.
      + apply filter_all. intros c Hc. rewrite eqb_neq_false; [done|]. by apply Hclip.
      + cbn [clip_id]. rewrite String.eqb_refl. simpl. done. }
  rewrite Hfinal, Hext. cbn [fst snd].
  set (keep := λ ch : ChannelState,
         negb (String.eqb (ch_id ch) ("channel-" ++ channelStamp)) = true).
  assert (Hq : removeClipChannel ("channel-" ++ channelStamp)
                 (handleAddChannel nc patterns ++ [np0])%list !! i
               = Some (withChannels p (filter keep (channels p)))).
  { rewrite removeClipChannel_lookup, lookup_app_l.
    - rewrite handleAddChannel_lookup, Hi. simpl. f_equal. unfold withChannels. simpl.
      f_equal. rewrite list.filter_app, filter_cons_False, filter_nil, app_nil_r; [done|].
      simpl. rewrite String.eqb_refl. simpl. done.
    - unfold handleAddChannel. rewrite length_map. by eapply lookup_lt_Some. }
  assert (Hkeep : filter keep (channels np0) = channels np0).
  { apply filter_all. intros ch (j & Hj)%list_elem_of_lookup.
    unfold np0, createNewPattern in Hj. cbn [channels] in Hj.
    rewrite lookup_cloneChannel in Hj.
    destruct ((channels p ++ [nc])%list !! j); [|done]. injection Hj as <-.
    unfold keep. simpl. done. }
  assert (Hnp : removeClipChannel ("channel-" ++ channelStamp)
                  (handleAddChannel nc patterns ++ [np0])%list !! length patterns
                = Some np0).
  { rewrite removeClipChannel_lookup, lookup_app_r;
      unfold handleAddChannel; rewrite length_map; [|done].
    rewrite Nat.sub_diag. cbn [lookup list_lookup fmap option_fmap option_map].
    f_equal. change (withChannels np0 (filter keep (channels np0)) = np0).
    rewrite Hkeep. by destruct np0. }
  assert (Hlen0 : length (channels np0) = S (length (channels p))).
  { unfold np0, createNewPattern, mapi. cbn [channels].
    rewrite length_imap, length_app. simpl. lia. }
  split; [done|]. split.
  { unfold removeClipChannel, handleAddChannel.
    rewrite length_map, length_app, length_map. simpl. lia. }
  exists i, (withChannels p (filter keep (channels p))), np0,
    (cloneChannel (pat_id np0) (length (channels p)) nc).
  split_and!; try done.
  - apply length_filter_le.
  - unfold np0, createNewPattern. cbn [channels pat_id].
    rewrite lookup_cloneChannel, lookup_app_r by done.
    by rewrite Nat.sub_diag.
  - intros Hpar. destruct (Hpar _ _ _ _ Hq Hnp) as [Hl _].
    cbn [channels withChannels] in Hl. rewrite Hlen0 in Hl.
    pose proof (length_filter_le keep (channels p)). lia.
Qed.

Lemma deleted_clip_leaves_copy_witness :
  findPattern demoStore "A" = Some patternA
  ∧ unusedClipId "audioclip-2" []
  ∧ ¬ parallel
      (handleDeleteAudioClip "audioclip-2"
         (handleAddPattern "3" "A"
            (handleAddAudioClip "1" "2" kick 3 (num 4) (num 8) (num 120) (demoStore, [])).1,
          (handleAddAudioClip "1" "2" kick 3 (num 4) (num 8) (num 120) (demoStore, [])).2)).1.
Proof.
  assert (H2 : unusedClipId ("audioclip-" ++ "2") []).
  { intros c Hc. by apply elem_of_nil in Hc. }
  split; [reflexivity|]. split; [exact H2|].
  destruct (deleted_clip_leaves_copy "1" "2" "3" kick 3 (num 4) (num 8) (num 120)
              "A" demoStore [] patternA eq_refl H2)
    as (_ & _ & i & q & np & copy & _ & _ & _ & _ & _ & _ & _ & _ & _ & Hnot).
  exact Hnot.
Defined.
(** ** Generated step patterns *)

Lemma stride_step (from stride i : nat) :
  (0 < stride)%nat →
  (from ≤ i)%nat ∧ ((i - from) mod stride = 0)%nat
  ↔ i = from ∨ ((from + stride ≤ i)%nat ∧ ((i - (from + stride)) mod stride = 0)%nat).
Proof.
  intros Hs. split.
  - intros [Hle Hmod]. destruct (decide (i = from)) as [|Hne]; [by left|]. right.
    apply Nat.Div0.div_exact in Hmod.
    destruct ((i - from) / stride)%nat as [|q] eqn:Hq; [lia|].
    split; [nia|]. replace (i - (from + stride))%nat with (q * stride)%nat by nia.
    apply Nat.Div0.mod_mul.
  - intros [->|[Hle Hmod]].
    + split; [done|]. by rewrite Nat.sub_diag, Nat.Div0.mod_0_l.
    + split; [lia|].
      replace (i - from)%nat with ((i - (from + stride)) + 1 * stride)%nat by lia.
      by rewrite Nat.Div0.mod_add.
Qed.

Lemma stride_closed (from stride i : nat) :
  (from < stride)%nat →
  (from ≤ i)%nat ∧ ((i - from) mod stride = 0)%nat ↔ (i mod stride = from)%nat.
Proof.
  intros Hf. split.
  - intros [Hle Hmod]. apply Nat.Div0.div_exact in Hmod.
    replace i with (from + ((i - from) / stride) * stride)%nat by lia.
    rewrite Nat.Div0.mod_add. by apply Nat.mod_small.
  - intros Hmod. pose proof (Nat.div_mod_eq i stride) as Hi. rewrite Hmod in Hi.
    split; [lia|]. replace (i - from)%nat with ((i / stride) * stride)%nat by lia.
    apply Nat.Div0.mod_mul.
Qed.

Lemma strideLoop_spec (fuel from stride L : nat) (steps : list (option Z)) :
  (0 < stride)%nat → length steps = L → (L ≤ from + fuel * stride)%nat →
  length (strideLoop fuel from stride L steps) = L
  ∧ ∀ i, (i < L)%nat →
      Js.get (strideLoop fuel from stride L steps) i
      = if bool_decide ((from ≤ i)%nat ∧ ((i - from) mod stride = 0)%nat)
        then Some 1%Z else Js.get steps i.
Proof.
  intros Hs. revert from steps. induction fuel as [|fuel IH]; intros from steps Hlen Hfuel.
  - simpl. split; [done|]. intros i Hi. rewrite bool_decide_eq_false_2; [done|]. lia.
  - simpl. case_bool_decide as Hfrom.
    + destruct (IH (from + stride)%nat (Js.set steps from 1)) as [Hl Hget].
      { rewrite length_set. lia. }
      { lia. }
      split; [done|]. intros i Hi. rewrite (Hget i Hi).
      destruct (decide (i = from)) as [->|Hne].
      * rewrite get_set_eq. rewrite (bool_decide_eq_true_2 (_ ∧ (from - from) mod _ = _)%nat).
        -- by case_bool_decide.
        -- apply stride_step; auto.
      * rewrite get_set_ne by done.
        apply (f_equal (λ b : bool, if b then Some 1%Z else Js.get steps i)).
        apply bool_decide_ext. rewrite (stride_step from stride i Hs).
        split; [by right | by intros [?|?]].
    + split; [done|]. intros i Hi. rewrite bool_decide_eq_false_2; [done|]. lia.
Qed.

Lemma setEach_spec (positions : list nat) (L : nat) (steps : list (option Z)) :
  length steps = L →
  let r := foldl (λ steps step,
             if bool_decide (step < L)%nat then Js.set steps step 1 else steps)
             steps positions in
  length r = L
  ∧ ∀ i, (i < L)%nat →
      Js.get r i = if bool_decide (i ∈ positions) then Some 1%Z else Js.get steps i.
Proof.
  revert steps. induction positions as [|s positions IH]; intros steps Hlen; cbn [foldl].
  - split; [done|]. intros i Hi. rewrite bool_decide_eq_false_2; [done|].
    apply not_elem_of_nil.
  - case_bool_decide as Hs.
    + destruct (IH (Js.set steps s 1)) as [Hl Hget]; [rewrite length_set; lia|].
      split; [done|]. intros i Hi. rewrite (Hget i Hi).
      destruct (decide (i = s)) as [->|Hne].
      * rewrite get_set_eq. rewrite (bool_decide_eq_true_2 (s ∈ s :: positions));
          [by case_bool_decide | apply list_elem_of_here].
      * rewrite get_set_ne by done.
        apply (f_equal (λ b : bool, if b then Some 1%Z else Js.get steps i)).
        apply bool_decide_ext. rewrite elem_of_cons.
        split; [by right | by intros [?|?]].
    + destruct (IH steps Hlen) as [Hl Hget]. split; [done|]. intros i Hi.
      rewrite (Hget i Hi).
      apply (f_equal (λ b : bool, if b then Some 1%Z else Js.get steps i)).
      apply bool_decide_ext. rewrite elem_of_cons. split; [auto|]. intros [->|]; [lia|done].
Qed.

Lemma strideLoop_closed (from stride L : nat) :
  (from < stride)%nat →
  length (strideLoop L from stride L (Js.zeros L)) = L
  ∧ ∀ i, (i < L)%nat →
      Js.get (strideLoop L from stride L (Js.zeros L)) i
      = Some (if Nat.eqb (i mod stride) from then 1%Z else 0%Z).
Proof.
  intros Hf.
  destruct (strideLoop_spec L from stride L (Js.zeros L)) as [Hl Hget];
    [lia | apply length_zeros | nia |].
  split; [done|]. intros i Hi. rewrite (Hget i Hi), (get_zeros L i Hi).
  destruct (Nat.eqb_spec (i mod stride) from) as [Heq|Hne].
  - rewrite bool_decide_eq_true_2; [done|]. by apply stride_closed.
  - rewrite bool_decide_eq_false_2; [done|]. by rewrite stride_closed.
Qed.

Section Generated.
Context (random : nat → Qc).

Lemma generateMidiPattern_closed (pattern : MidiPattern) (length' : nat) :
  pattern ≠ TrapHiHat →
  length (generateMidiPattern random pattern length') = length'
  ∧ ∀ i, (i < length')%nat →
      Js.get (generateMidiPattern random pattern length') i = Some (hitValue pattern i).
Proof.
  intros Hp. unfold hitValue. destruct pattern; try done; cbn [generateMidiPattern hitAt].
  - apply (strideLoop_closed 0 2). lia.
  - apply (strideLoop_closed 4 8). lia.
  - apply (strideLoop_closed 0 4). lia.
  - apply (strideLoop_closed 8 16). lia.
  - destruct (setEach_spec [4; 12; 20; 31]%nat length' (Js.zeros length')) as [Hl Hget];
      [apply length_zeros|].
    split; [done|]. intros i Hi. rewrite (Hget i Hi), (get_zeros _ _ Hi).
    by case_bool_decide.
  - split; [apply length_zeros|]. intros i Hi. by apply get_zeros.
Qed.

(** X9.  Every generated pattern but the trap hi-hat has a closed form
    that does not depend on the random source: the array has the length
    asked for, and step [i] is 1 where the pattern has a hit (every 2nd
    step for the hi-hat, steps 4 mod 8 for the clap, every 4th step for
    four on the floor, steps 8 mod 16 for the first half-time clap, steps
    4, 12, 20 and 31 for the second) and 0 elsewhere; the erase pattern is
    all zero. *)
Theorem generated_pattern_closed_form (pattern : MidiPattern) (length' : nat) :
  pattern ≠ TrapHiHat →
  length (generateMidiPattern random pattern length') = length'
  ∧ ∀ i, (i < length')%nat →
      Js.get (generateMidiPattern random pattern length') i = Some (hitValue pattern i).
Proof. apply generateMidiPattern_closed. Qed.

Lemma rollLoop_spec (fuel i calls L : nat) (steps : list (option Z)) :
  length steps = L →
  length (rollLoop random fuel i calls L steps) = L
  ∧ (∀ k, (k < i)%nat →
       Js.get (rollLoop random fuel i calls L steps) k = Js.get steps k)
  ∧ (∀ k, (i ≤ k < L)%nat →
       Js.get (rollLoop random fuel i calls L steps) k = Js.get steps k
       ∨ ∃ v, isRoll v
           ∧ Js.get (rollLoop random fuel i calls L steps) k = Some v
           ∧ Js.get (rollLoop random fuel i calls L steps) (S k) = Js.get steps (S k)).
Proof.
  revert i calls steps. induction fuel as [|fuel IH]; intros i calls steps Hlen.
  - simpl. split; [done|]. split; [done|]. intros k Hk. by left.
  - cbn [rollLoop]. case_bool_decide as Hi; [|split; [done|]; split; [done|]; by left].
    case_bool_decide as Hroll.
    + set (roll := if bool_decide (random (calls + 1)%nat < Q2Qc (1 # 2))%Qc then 2%Z
                   else if bool_decide (random (calls + 1)%nat < Q2Qc (85 # 100))%Qc
                        then 3%Z else 4%Z).
      assert (Hr : isRoll roll).
      { unfold roll, isRoll. repeat case_bool_decide; auto. }
      destruct (IH (i + 1 + 1)%nat (calls + 2)%nat (Js.set steps i roll))
        as (Hl & Hbelow & Hfrom); [rewrite length_set; lia|].
      split; [done|]. split.
      * intros k Hk. rewrite Hbelow by lia. apply get_set_ne. lia.
      * intros k Hk. destruct (decide (k = i)) as [->|Hne].
        -- right. exists roll. split; [done|]. split.
           ++ rewrite Hbelow by lia. apply get_set_eq.
           ++ rewrite Hbelow by lia. apply get_set_ne. lia.
        -- destruct (decide (k = S i)) as [->|Hne'].
           ++ left. rewrite Hbelow by lia. apply get_set_ne. lia.
           ++ destruct (Hfrom k) as [Hsame|(v & Hv & Hk1 & Hk2)]; [lia|..].
              ** left. rewrite Hsame. apply get_set_ne. lia.
              ** right. exists v. split; [done|]. split; [done|].
                 rewrite Hk2. apply get_set_ne. lia.
    + destruct (IH (i + 1)%nat (calls + 1)%nat steps Hlen) as (Hl & Hbelow & Hfrom).
      split; [done|]. split.
      * intros k Hk. apply Hbelow. lia.
      * intros k Hk. destruct (decide (k = i)) as [->|Hne].
        -- left. apply Hbelow. lia.
        -- apply Hfrom. lia.
Qed.

Lemma rollLoop_fuel (fuel extra i calls L : nat) (steps : list (option Z)) :
  (L ≤ i + fuel)%nat →
  rollLoop random (fuel + extra) i calls L steps = rollLoop random fuel i calls L steps.
Proof.
  revert i calls steps. induction fuel as [|fuel IH]; intros i calls steps Hfuel.
  - destruct extra as [|extra]; [done|]. cbn [Nat.add rollLoop].
    rewrite bool_decide_eq_false_2; [done|lia].
  - cbn [Nat.add rollLoop]. case_bool_decide; [|done].
    case_bool_decide; apply IH; lia.
Qed.

Lemma rollLoop_quiet (fuel i calls L : nat) (steps : list (option Z)) :
  (∀ n, ¬ (random n < Q2Qc (15 # 100))%Qc) →
  rollLoop random fuel i calls L steps = steps.
Proof.
  intros Hq. revert i calls. induction fuel as [|fuel IH]; intros i calls; [done|].
  cbn [rollLoop]. case_bool_decide; [|done].
  rewrite bool_decide_eq_false_2 by apply Hq. apply IH.
Qed.

(** X10.  The trap hi-hat has the length asked for; every step holds
    either a roll (2, 3 or 4) or the value of the plain hi-hat (1 on even
    steps, 0 on odd ones), and the step after a roll is never a roll: it
    keeps the hi-hat value.  Running the roll loop for more iterations
    than the length changes nothing, and a random source that never falls
    below 0.15 gives the plain hi-hat. *)
Theorem trap_hihat_rolls (length' : nat) :
  length (generateMidiPattern random TrapHiHat length') = length'
  ∧ (∀ i, (i < length')%nat →
       Js.get (generateMidiPattern random TrapHiHat length') i
         = Some (hitValue TrapHiHat i)
       ∨ ∃ v, isRoll v
           ∧ Js.get (generateMidiPattern random TrapHiHat length') i = Some v
           ∧ ((S i < length')%nat →
              Js.get (generateMidiPattern random TrapHiHat length') (S i)
              = Some (hitValue TrapHiHat (S i))))
  ∧ (∀ extra,
       rollLoop random (length' + extra) 0 0 length'
         (generateMidiPattern random HiHat length')
       = generateMidiPattern random TrapHiHat length')
  ∧ ((∀ n, ¬ (random n < Q2Qc (15 # 100))%Qc) →
     generateMidiPattern random TrapHiHat length'
     = generateMidiPattern random HiHat length').
Proof.
  cbn [generateMidiPattern].
  destruct (strideLoop_closed 0 2 length') as [Hbl Hbase]; [lia|].
  set (base := strideLoop length' 0 2 length' (Js.zeros length')) in *.
  destruct (rollLoop_spec length' 0 0 length' base Hbl) as (Hl & _ & Hfrom).
  split; [done|]. split; [|split].
  - intros i Hi. destruct (Hfrom i) as [Hsame|(v & Hv & Hi1 & Hi2)]; [lia|..].
    + left. by rewrite Hsame, Hbase.
    + right. exists v. split; [done|]. split; [done|]. intros HSi.
      by rewrite Hi2, Hbase.
  - intros extra. apply rollLoop_fuel. lia.
  - intros Hq. by apply rollLoop_quiet.
Qed.

End Generated.

Lemma generated_pattern_closed_form_witness :
  Clap ≠ TrapHiHat
  ∧ Js.get (generateMidiPattern (λ _, 0%Qc) Clap 16) 12 = Some 1%Z.
Proof.
  assert (Hne : Clap ≠ TrapHiHat) by discriminate.
  split; [exact Hne|].
  exact (proj2 (generated_pattern_closed_form (λ _, 0%Qc) Clap 16 Hne) 12%nat
           (proj1 (Nat.leb_le 13 16) eq_refl)).
Defined.

(** ** Applying a generated pattern *)

Lemma copySteps_spec (fuel i n : nat) (generatedPart steps : list (option Z)) :
  (n ≤ i + fuel)%nat →
  (∀ k, Js.get (copySteps fuel i n generatedPart steps) k
        = if bool_decide (i ≤ k < n)%nat
          then Some (default 0%Z (Js.get generatedPart k)) else Js.get steps k)
  ∧ length (copySteps fuel i n generatedPart steps)
    = if bool_decide (i < n)%nat then Nat.max (length steps) n else length steps.
Proof.
  revert i steps. induction fuel as [|fuel IH]; intros i steps Hfuel.
  - simpl. rewrite bool_decide_eq_false_2 by lia. split; [|done].
    intros k. rewrite bool_decide_eq_false_2; [done|lia].
  - cbn [copySteps]. case_bool_decide as Hi.
    + destruct (IH (i + 1)%nat
                  (Js.set steps i (default 0%Z (Js.get generatedPart i)))) as [Hget Hlen];
        [lia|].
      split.
      * intros k. rewrite Hget. destruct (decide (k = i)) as [->|Hne].
        -- rewrite bool_decide_eq_false_2 by lia. rewrite bool_decide_eq_true_2 by lia.
           apply get_set_eq.
        -- rewrite get_set_ne by done.
           apply (f_equal (λ b : bool,
                    if b then Some (default 0%Z (Js.get generatedPart k))
                    else Js.get steps k)).
           apply bool_decide_ext. lia.
      * rewrite Hlen, length_set. case_bool_decide; lia.
    + split; [|done]. intros k. rewrite bool_decide_eq_false_2; [done|lia].
Qed.

Section Applied.
Context (random : nat → Qc).

(** X11.  Applying a generated pattern to the channel a step edit
    addresses writes the generated values to the steps below the pattern
    length (for the fixed patterns: the closed form), leaves the steps
    from the pattern length on as they were, makes the array at least as
    long as the pattern, empties the notes and keeps every other field of
    the channel; the channels the edit does not address are unchanged. *)
Theorem midi_pattern_applied (activePatternId channelId : string) (pattern : MidiPattern)
    (patternLength : nat) (patterns : list Pattern) (i j : nat) :
  targets patterns i j activePatternId channelId →
  let patterns' :=
    applyMidiPattern random activePatternId channelId pattern patternLength patterns in
  (∀ k, stepAt patterns' i j k
        = if bool_decide (k < patternLength)%nat
          then Some (default 0%Z
                       (Js.get (generateMidiPattern random pattern patternLength) k))
          else stepAt patterns i j k)
  ∧ (pattern ≠ TrapHiHat →
     ∀ k, (k < patternLength)%nat → stepAt patterns' i j k = Some (hitValue pattern k))
  ∧ (∃ ch ch', channelAt patterns i j = Some ch ∧ channelAt patterns' i j = Some ch'
       ∧ ch' = withStepsNotes ch (steps ch') []
       ∧ length (steps ch') = Nat.max (length (steps ch)) patternLength)
  ∧ (∀ i' j', ¬ targets patterns i' j' activePatternId channelId →
       channelAt patterns' i' j' = channelAt patterns i' j').
Proof.
  intros (p & ch & Hp & Hch & Hpid & Hcid) patterns'.
  set (gen := generateMidiPattern random pattern patternLength).
  destruct (copySteps_spec patternLength 0 patternLength gen (steps ch)) as [Hget Hlen];
    [lia|].
  assert (Hat : channelAt patterns' i j
    = Some (withStepsNotes ch (copySteps patternLength 0 patternLength gen (steps ch)) [])).
  { unfold channelAt, patterns', applyMidiPattern. rewrite lookup_map, Hp. simpl.
    rewrite Hpid, String.eqb_refl. simpl. rewrite lookup_map, Hch. simpl.
    by rewrite Hcid, String.eqb_refl. }
  assert (Hstep : ∀ k, stepAt patterns' i j k
    = if bool_decide (k < patternLength)%nat
      then Some (default 0%Z (Js.get gen k)) else stepAt patterns i j k).
  { intros k. unfold channelAt in Hat. unfold stepAt.
    destruct (patterns' !! i) as [p'|]; [|done]. simpl in Hat |- *. rewrite Hat. simpl.
    rewrite Hp. simpl. rewrite Hch. simpl. rewrite Hget.
    apply (f_equal (λ b : bool,
             if b then Some (default 0%Z (Js.get gen k)) else Js.get (steps ch) k)).
    apply bool_decide_ext. lia. }
  split_and!.
  - exact Hstep.
  - intros Hne k Hk. rewrite Hstep, bool_decide_eq_true_2 by done.
    unfold gen. by rewrite (proj2 (generateMidiPattern_closed random pattern
                                     patternLength Hne) k Hk).
  - exists ch,
      (withStepsNotes ch (copySteps patternLength 0 patternLength gen (steps ch)) []).
    split; [unfold channelAt; by rewrite Hp; simpl|]. split; [done|]. split; [done|].
    cbn [steps withStepsNotes]. rewrite Hlen. case_bool_decide; lia.
  - intros i' j' Hnot. unfold channelAt, patterns', applyMidiPattern. rewrite lookup_map.
    destruct (patterns !! i') as [q|] eqn:Hq; [|done]. simpl.
    destruct (String.eqb_spec (pat_id q) activePatternId) as [Hqid|Hqid]; simpl; [|done].
    rewrite lookup_map. destruct (channels q !! j') as [c|] eqn:Hc; [|done]. simpl.
    destruct (String.eqb_spec (ch_id c) channelId) as [Hcid'|Hcid']; simpl; [|done].
    exfalso. apply Hnot. by exists q, c.
Qed.

End Applied.

Lemma midi_pattern_applied_witness :
  targets demoStore 1 0 "B" "ch-B-1"
  ∧ stepAt (applyMidiPattern (λ _, 0%Qc) "B" "ch-B-1" Clap 16 demoStore) 1 0 4
    = Some 1%Z.
Proof.
  assert (Ht : targets demoStore 1 0 "B" "ch-B-1").
  { exists patternB, (demoChannel "ch-B-1" snare (Some 1%Z :: Js.zeros 15)).
    repeat split; reflexivity. }
  split; [exact Ht|].
  assert (Hne : Clap ≠ TrapHiHat) by discriminate.
  exact (proj1 (proj2 (midi_pattern_applied (λ _, 0%Qc) "B" "ch-B-1" Clap 16
                         demoStore 1 0 Ht)) Hne 4%nat (proj1 (Nat.leb_le 5 16) eq_refl)).
Defined.
(** ** The history as a cursor on a timeline *)

Section HistoryCursor.
Context {T : Type}.
Implicit Types (h : HistoryState T).

Lemma history_eta h : h = {| past := past h; present := present h; future := future h |}.
Proof. by destruct h. Qed.

Lemma undo_at_start h : canUndo h = false → undo h = h.
Proof. intros H. unfold undo. by rewrite H. Qed.

Lemma redo_at_end h : canRedo h = false → redo h = h.
Proof. intros H. unfold redo. by rewrite H. Qed.

Lemma canUndo_snoc h :
  canUndo h = true → ∃ P x, past h = (P ++ [x])%list.
Proof.
  unfold canUndo. intros Hc%bool_decide_eq_true.
  destruct (past h) as [|y l] using rev_ind; [simpl in Hc; lia|]. by exists l, y.
Qed.

Lemma canRedo_cons h : canRedo h = true → ∃ x F, future h = x :: F.
Proof.
  unfold canRedo. intros Hc%bool_decide_eq_true.
  destruct (future h) as [|x F]; [simpl in Hc; lia|]. by exists x, F.
Qed.

Lemma undo_redo_split (P L : list T) (x : T) (F : list T) :
  let h := {| past := (P ++ L)%list; present := x; future := F |} in
  Nat.iter (length L) redo (Nat.iter (length L) undo h) = h
  ∧ length (past (Nat.iter (length L) undo h)) = length P
  ∧ timeline (Nat.iter (length L) undo h) = timeline h.
Proof.
  intros h. unfold h. split; [apply undo_redo_iter|]. rewrite undo_iter.
  unfold timeline. destruct L as [|y R]; simpl.
  - by rewrite app_nil_r.
  - split; [done|]. by rewrite <-!app_assoc.
Qed.

Lemma undo_redo_n (n : nat) h :
  (n ≤ length (past h))%nat →
  Nat.iter n redo (Nat.iter n undo h) = h
  ∧ length (past (Nat.iter n undo h)) = (length (past h) - n)%nat
  ∧ timeline (Nat.iter n undo h) = timeline h.
Proof.
  intros Hn. destruct h as [pa x F]. simpl in Hn |- *.
  assert (HPL : ∃ P L, pa = (P ++ L)%list ∧ length L = n ∧ length P = (length pa - n)%nat).
  { exists (take (length pa - n) pa), (drop (length pa - n) pa).
    rewrite take_drop, length_drop, length_take. split; [done|]. lia. }
  destruct HPL as (P & L & -> & <- & HP). rewrite <-HP.
  apply undo_redo_split.
Qed.

End HistoryCursor.

(** X12.  Undo and redo move a cursor along a fixed timeline: neither
    changes the sequence past, present, future; at the start of the
    timeline undo does nothing and at its end redo does nothing; elsewhere
    each takes back the other; and from any history, [n] undos followed by
    [n] redos give back the history, for every [n] up to the length of the
    past, the past getting [n] shorter on the way. *)
Theorem history_cursor {T : Type} (h : HistoryState T) :
  timeline (undo h) = timeline h
  ∧ timeline (redo h) = timeline h
  ∧ (canUndo h = false → undo h = h)
  ∧ (canRedo h = false → redo h = h)
  ∧ (canUndo h = true → redo (undo h) = h ∧ canRedo (undo h) = true)
  ∧ (canRedo h = true → undo (redo h) = h ∧ canUndo (redo h) = true)
  ∧ (∀ n, (n ≤ length (past h))%nat →
       Nat.iter n redo (Nat.iter n undo h) = h
       ∧ length (past (Nat.iter n undo h)) = (length (past h) - n)%nat
       ∧ timeline (Nat.iter n undo h) = timeline h).
Proof.
  assert (Hu : canUndo h = true →
    timeline (undo h) = timeline h ∧ redo (undo h) = h ∧ canRedo (undo h) = true).
  { intros (P & x & HP)%canUndo_snoc. rewrite (history_eta h), HP, undo_snoc.
    unfold timeline. simpl. by rewrite <-app_assoc. }
  assert (Hr : canRedo h = true →
    timeline (redo h) = timeline h ∧ undo (redo h) = h ∧ canUndo (redo h) = true).
  { intros (x & F & HF)%canRedo_cons. rewrite (history_eta h), HF, redo_cons, undo_snoc.
    unfold timeline, canUndo. simpl. rewrite <-app_assoc, length_app. simpl.
    split; [done|]. split; [done|]. apply bool_decide_eq_true_2. lia. }
  split_and!.
  - destruct (canUndo h) eqn:Hc; [by apply Hu | by rewrite undo_at_start].
  - destruct (canRedo h) eqn:Hc; [by apply Hr | by rewrite redo_at_end].
  - apply undo_at_start.
  - apply redo_at_end.
  - intros Hc. by destruct (Hu Hc) as (_ & ? & ?).
  - intros Hc. by destruct (Hr Hc) as (_ & ? & ?).
  - intros n. apply undo_redo_n.
Qed.
(** ** Rounding *)

Lemma floor_le (x : Qc) : (Qc_of_Z (Qfloor x) ≤ x)%Qc.
Proof.
  change (inject_Z (Qfloor x) <= x)%Q. apply Qfloor_le.
Qed.

Lemma floor_lt (x : Qc) : (x < Qc_of_Z (Qfloor x + 1))%Qc.
Proof.
  change (x < inject_Z (Qfloor x + 1))%Q. apply Qlt_floor.
Qed.

Lemma floor_mono (x y : Qc) : (x ≤ y)%Qc → (Qfloor x ≤ Qfloor y)%Z.
Proof. intros H. by apply Qfloor_resp_le. Qed.

Lemma floor_unique (x : Qc) (k : Z) :
  (Qc_of_Z k ≤ x)%Qc → (x < Qc_of_Z (k + 1))%Qc → Qfloor x = k.
Proof.
  intros Hlo Hhi.
  pose proof (Qcle_lt_trans _ _ _ (floor_le x) Hhi) as H1%Z2Qc_inj_lt.
  pose proof (Qcle_lt_trans _ _ _ Hlo (floor_lt x)) as H2%Z2Qc_inj_lt.
  lia.
Qed.

Lemma half_pos : (0 < Q2Qc (1 # 2))%Qc.
Proof. reflexivity. Qed.

Lemma round_Z (k : Z) : Js.round (Qc_of_Z k) = k.
Proof.
  unfold Js.round. apply floor_unique.
  - rewrite <-(Qcplus_0_r (Qc_of_Z k)) at 1.
    apply Qcplus_le_mono_l. by apply Qclt_le_weak.
  - rewrite Z2Qc_inj_add. apply Qcplus_lt_mono_l. reflexivity.
Qed.

Lemma round_mono (x y : Qc) : (x ≤ y)%Qc → (Js.round x ≤ Js.round y)%Z.
Proof. intros H. apply floor_mono. by apply Qcplus_le_mono_r. Qed.

Lemma round_nonneg (x : Qc) : (0 ≤ x)%Qc → (0 ≤ Js.round x)%Z.
Proof. intros H. rewrite <-(round_Z 0). by apply round_mono. Qed.

Lemma Qc_ne_0 (s : Qc) : (0 < s)%Qc → s ≠ 0%Qc.
Proof. intros Hs ->. exact (Qclt_not_eq _ _ Hs eq_refl). Qed.

Lemma div_mono (a b s : Qc) : (0 < s)%Qc → (a ≤ b)%Qc → (a / s ≤ b / s)%Qc.
Proof.
  intros Hs Hab. apply (Qcmult_le_mono_pos_r _ _ s Hs).
  by rewrite !test_field by (by apply Qc_ne_0).
Qed.

Lemma div_nonneg (a s : Qc) : (0 < s)%Qc → (0 ≤ a)%Qc → (0 ≤ a / s)%Qc.
Proof.
  intros Hs Ha. replace 0%Qc with (0 / s)%Qc by (field; by apply Qc_ne_0).
  by apply div_mono.
Qed.

Lemma round_multiple (k : Z) (s : Qc) :
  (0 < s)%Qc → Js.round (Qc_of_Z k * s / s) = k.
Proof. intros Hs. rewrite Qcdiv_mult_l by (by apply Qc_ne_0). apply round_Z. Qed.

(** ** Quantization, again *)

Lemma snap_nonzero (v s : Qc) :
  (0 < s)%Qc → PianoRoll.snap v s = (Qc_of_Z (Js.round (v / s)) * s)%Qc.
Proof.
  intros Hs. unfold PianoRoll.snap. rewrite bool_decide_eq_false_2; [done|].
  by apply Qc_ne_0.
Qed.

Lemma max_of_multiple (m : Z) (s : Qc) :
  (0 < s)%Qc → ∃ k : Z, Js.max s (Qc_of_Z m * s) = (Qc_of_Z k * s)%Qc ∧ (1 ≤ k)%Z.
Proof.
  intros Hs. unfold Js.max. case_bool_decide as Hlt.
  - exists m. split; [done|].
    rewrite <-(Qcmult_1_l s) in Hlt at 1.
    apply Qcmult_lt_mono_pos_r in Hlt; [|done].
    rewrite <-Z2Qc_inj_1 in Hlt. apply (proj2 (Z2Qc_inj_lt _ _)) in Hlt. lia.
  - exists 1%Z. split; [|done]. by rewrite Z2Qc_inj_1, Qcmult_1_l.
Qed.

Lemma max_multiple_fixed (k : Z) (s : Qc) :
  (0 < s)%Qc → (1 ≤ k)%Z → Js.max s (Qc_of_Z k * s) = (Qc_of_Z k * s)%Qc.
Proof.
  intros Hs Hk. unfold Js.max. case_bool_decide as Hlt; [done|].
  destruct (decide (k = 1%Z)) as [->|Hne].
  - by rewrite Z2Qc_inj_1, Qcmult_1_l.
  - exfalso. apply Hlt. rewrite <-(Qcmult_1_l s) at 1.
    apply Qcmult_lt_mono_pos_r; [done|].
    rewrite <-Z2Qc_inj_1. apply (proj1 (Z2Qc_inj_lt _ _)). lia.
Qed.

(** The quantization of one note at a positive step size. *)
Lemma quantizeNote_fixed (s : Qc) (k m : Z) (note : Note) :
  (0 < s)%Qc → (1 ≤ m)%Z →
  start note = (Qc_of_Z k * s)%Qc → duration note = (Qc_of_Z m * s)%Qc →
  withStartDuration note
    (Qc_of_Z (Js.round (start note / s)) * s)%Qc
    (Js.max s (Qc_of_Z (Js.round (duration note / s)) * s)%Qc)
  = note.
Proof.
  intros Hs Hm Hstart Hdur. rewrite Hstart, Hdur, !round_multiple by done.
  rewrite max_multiple_fixed by done. rewrite <-Hstart, <-Hdur. by destruct note.
Qed.

Lemma quantize_step_cases (snap : QuantizeSnapValue) :
  snap = SnapNone ∨ (0 < getSnapStepFromQuantizeValue snap)%Qc.
Proof. destruct snap; (by left) || (right; reflexivity). Qed.

Lemma quantizeNotes_positive (notes : list Note) (snap : QuantizeSnapValue) :
  (0 < getSnapStepFromQuantizeValue snap)%Qc →
  quantizeNotes notes snap
  = map (λ note,
      withStartDuration note
        (Qc_of_Z (Js.round (start note / getSnapStepFromQuantizeValue snap))
         * getSnapStepFromQuantizeValue snap)%Qc
        (Js.max (getSnapStepFromQuantizeValue snap)
           (Qc_of_Z (Js.round (duration note / getSnapStepFromQuantizeValue snap))
            * getSnapStepFromQuantizeValue snap))%Qc)
      notes.
Proof.
  intros Hs. unfold quantizeNotes. rewrite bool_decide_eq_false_2; [done|].
  by apply Qc_ne_0.
Qed.

Lemma handleQuantize_positive (notes : list Note) (snap : PianoRoll.SnapValue) :
  (0 < PianoRoll.getSnapStep snap)%Qc →
  PianoRoll.handleQuantize snap notes
  = map (λ note,
      withStartDuration note
        (Qc_of_Z (Js.round (start note / PianoRoll.getSnapStep snap))
         * PianoRoll.getSnapStep snap)%Qc
        (Js.max (PianoRoll.getSnapStep snap)
           (Qc_of_Z (Js.round (duration note / PianoRoll.getSnapStep snap))
            * PianoRoll.getSnapStep snap))%Qc)
      notes.
Proof.
  intros Hs. unfold PianoRoll.handleQuantize. rewrite bool_decide_eq_false_2;
    [|by apply Qc_ne_0].
  apply List.map_ext. intros note. by rewrite !snap_nonzero.
Qed.

Lemma quantize_map_idempotent (s : Qc) (notes : list Note) :
  (0 < s)%Qc →
  let q := λ note : Note,
    withStartDuration note
      (Qc_of_Z (Js.round (start note / s)) * s)%Qc
      (Js.max s (Qc_of_Z (Js.round (duration note / s)) * s))%Qc in
  map q (map q notes) = map q notes.
Proof.
  intros Hs q. rewrite List.map_map. apply List.map_ext. intros note.
  destruct (max_of_multiple (Js.round (duration note / s)) s Hs) as (m & Hmax & Hm).
  unfold q at 1. by apply (quantizeNote_fixed s (Js.round (start note / s)) m).
Qed.

(** X13.  Quantizing recorded notes is idempotent; it leaves alone every
    note that already starts on the grid and lasts a positive number of
    grid steps; it never reorders starts and never moves a start that is
    not negative below zero.  The piano roll's own Quantize button computes
    the same notes as the recording quantizer at the step sizes they share
    (1/8, 1/16, 1/32, and off), and is idempotent at every step size. *)
Theorem quantize_idempotent (notes : list Note) (snap : QuantizeSnapValue)
    (rollSnap : PianoRoll.SnapValue) :
  quantizeNotes (quantizeNotes notes snap) snap = quantizeNotes notes snap
  ∧ (∀ note k m,
       (1 ≤ m)%Z →
       start note = (Qc_of_Z k * getSnapStepFromQuantizeValue snap)%Qc →
       duration note = (Qc_of_Z m * getSnapStepFromQuantizeValue snap)%Qc →
       quantizeNotes [note] snap = [note])
  ∧ (∀ i j a b a' b',
       notes !! i = Some a → notes !! j = Some b →
       quantizeNotes notes snap !! i = Some a' → quantizeNotes notes snap !! j = Some b' →
       (start a ≤ start b)%Qc → (start a' ≤ start b')%Qc)
  ∧ (∀ i a a',
       notes !! i = Some a → quantizeNotes notes snap !! i = Some a' →
       (0 ≤ start a)%Qc → (0 ≤ start a')%Qc)
  ∧ (PianoRoll.handleQuantize PianoRoll.Eighth notes = quantizeNotes notes Snap8
     ∧ PianoRoll.handleQuantize PianoRoll.Sixteenth notes = quantizeNotes notes Snap16
     ∧ PianoRoll.handleQuantize PianoRoll.ThirtySecond notes = quantizeNotes notes Snap32
     ∧ PianoRoll.handleQuantize PianoRoll.SnapOff notes = quantizeNotes notes SnapNone)
  ∧ PianoRoll.handleQuantize rollSnap (PianoRoll.handleQuantize rollSnap notes)
    = PianoRoll.handleQuantize rollSnap notes.
Proof.
  destruct (quantize_step_cases snap) as [->|Hs].
  { assert (Hq : quantizeNotes notes SnapNone = notes) by done. rewrite !Hq.
    split; [done|]. split; [done|]. split.
    { intros i j a b a' b' Ha Hb Ha' Hb'. by simplify_eq. }
    split.
    { intros i a a' Ha Ha'. by simplify_eq. }
    split.
    - split_and!; [by rewrite handleQuantize_positive, quantizeNotes_positive..|done].
    - destruct rollSnap; try done;
        rewrite !handleQuantize_positive by reflexivity;
        by apply quantize_map_idempotent. }
  split_and!.
  - rewrite !quantizeNotes_positive by done. by apply quantize_map_idempotent.
  - intros note k m Hm Hstart Hdur. rewrite quantizeNotes_positive by done.
    cbn [map]. f_equal. by apply (quantizeNote_fixed _ k m).
  - intros i j a b a' b' Ha Hb. rewrite quantizeNotes_positive by done.
    rewrite !lookup_map, Ha, Hb. intros [= <-] [= <-] Hab. cbn [start withStartDuration].
    apply Qcmult_le_mono_nonneg_r; [by apply Qclt_le_weak|].
    apply (proj1 (Z2Qc_inj_le _ _)), round_mono. by apply div_mono.
  - intros i a a' Ha. rewrite quantizeNotes_positive by done.
    rewrite lookup_map, Ha. intros [= <-] H0. cbn [start withStartDuration].
    apply Qcmult_nonneg_nonneg; [|by apply Qclt_le_weak].
    rewrite <-Z2Qc_inj_0. apply (proj1 (Z2Qc_inj_le _ _)), round_nonneg.
    by apply div_nonneg.
  - by rewrite handleQuantize_positive, quantizeNotes_positive.
  - by rewrite handleQuantize_positive, quantizeNotes_positive.
  - by rewrite handleQuantize_positive, quantizeNotes_positive.
  - done.
  - destruct rollSnap; try done;
      rewrite !handleQuantize_positive by reflexivity;
      by apply quantize_map_idempotent.
Qed.

(** ** Piano roll edits *)

Lemma rollStep_cases (snap : PianoRoll.SnapValue) :
  PianoRoll.getSnapStep snap = 0%Qc ∨ (0 < PianoRoll.getSnapStep snap)%Qc.
Proof. destruct snap; (by left) || (right; reflexivity). Qed.

Lemma snap_nonneg (v : Qc) (snap : PianoRoll.SnapValue) :
  (0 ≤ v)%Qc → (0 ≤ PianoRoll.snap v (PianoRoll.getSnapStep snap))%Qc.
Proof.
  intros Hv. destruct (rollStep_cases snap) as [->|Hs]; [done|].
  rewrite snap_nonzero by done.
  apply Qcmult_nonneg_nonneg; [|by apply Qclt_le_weak].
  rewrite <-Z2Qc_inj_0. apply (proj1 (Z2Qc_inj_le _ _)), round_nonneg. by apply div_nonneg.
Qed.

Lemma max_ge_r' (x y : Qc) : (y ≤ Js.max x y)%Qc.
Proof.
  unfold Js.max. case_bool_decide as H; [apply Qcle_refl | by apply Qcnot_lt_le].
Qed.

Lemma click_pitch (noteHeight y : Qc) :
  (0 < noteHeight)%Qc → (0 ≤ y)%Qc → (y < Qc_of_Z PianoRoll.NUM_NOTES * noteHeight)%Qc →
  (PianoRoll.MIN_PITCH ≤ PianoRoll.MAX_PITCH - Qfloor (y / noteHeight)%Qc
   ≤ PianoRoll.MAX_PITCH)%Z.
Proof.
  intros Hh Hy0 Hy.
  assert (H0 : (0 ≤ Qfloor (y / noteHeight)%Qc)%Z).
  { change 0%Z with (Qfloor (Qc_of_Z 0)). apply floor_mono.
    rewrite Z2Qc_inj_0. by apply div_nonneg. }
  assert (H1 : (Qfloor (y / noteHeight)%Qc < PianoRoll.NUM_NOTES)%Z).
  { apply (proj2 (Z2Qc_inj_lt _ _)).
    eapply Qcle_lt_trans; [apply floor_le|].
    apply (Qcmult_lt_mono_pos_r _ _ noteHeight Hh).
    by rewrite test_field by (by apply Qc_ne_0). }
  unfold PianoRoll.MAX_PITCH, PianoRoll.MIN_PITCH, PianoRoll.NUM_NOTES in *. lia.
Qed.

Lemma applyRollEdit_wellFormed (e : RollEdit) (notes : list Note) :
  inGrid e → Forall wellFormedNote notes → Forall wellFormedNote (applyRollEdit e notes).
Proof.
  intros He Hwf. destruct e as [s|stamp s L w h x y|id|d cx cy w h s]; cbn [applyRollEdit].
  - unfold PianoRoll.handleQuantize. case_bool_decide as Hs0; [done|].
    destruct (rollStep_cases s) as [?|Hs]; [done|].
    rewrite map_is_fmap. apply Forall_fmap. eapply list.Forall_impl; [exact Hwf|].
    intros n (Hst & Hd & Hp). unfold wellFormedNote, compose.
    cbn [start duration pitch withStartDuration].
    split; [by apply snap_nonneg|]. split; [|done].
    eapply Qclt_le_trans; [exact Hs | apply max_ge_l].
  - destruct He as (Hw & Hh & Hx & Hy0 & Hy).
    unfold PianoRoll.handleGridClick. case_bool_decide; [|done].
    unfold PianoRoll.addNote. apply Forall_app. split; [done|].
    apply Forall_singleton. unfold wellFormedNote. cbn [start duration pitch].
    split; [apply snap_nonneg; by apply div_nonneg|].
    split; [by case_bool_decide | by apply click_pitch].
  - unfold PianoRoll.deleteNote. apply list.Forall_forall. intros n [_ Hn]%list_elem_of_filter.
    by apply (proj1 (list.Forall_forall _ _) Hwf).
  - destruct He as (Hw & Hh). unfold PianoRoll.handleMouseMove.
    destruct d as [d|]; [|done].
    rewrite map_is_fmap. apply Forall_fmap. eapply list.Forall_impl; [exact Hwf|].
    intros n (Hst & Hd & Hp). unfold compose.
    destruct (negb (String.eqb (note_id n) (PianoRoll.drag_noteId d))); [done|].
    unfold wellFormedNote.
    destruct (PianoRoll.drag_type d);
      cbn [start duration pitch PianoRoll.withStartPitchDuration].
    + split; [apply snap_nonneg, max_ge_l|]. split; [done|].
      unfold PianoRoll.MAX_PITCH, PianoRoll.MIN_PITCH, PianoRoll.NUM_NOTES,
        PianoRoll.NUM_OCTAVES. lia.
    + split; [done|]. split; [|done].
      eapply Qclt_le_trans; [|apply max_ge_l].
      case_bool_decide as Hs0; [reflexivity|].
      by destruct (rollStep_cases s).
Qed.

Lemma notesFromSteps_elem (stamp : nat → string) (steps : list (option Z)) (n : Note) :
  n ∈ PianoRoll.notesFromSteps stamp steps
  ↔ ∃ i v, steps !! i = Some (Some v) ∧ (0 < v)%Z
      ∧ n = {| note_id := "note-from-step-" ++ Js.numToString i ++ "-" ++ stamp i;
               pitch := 48; start := num i; duration := 1; velocity := Q2Qc (3 # 4) |}.
Proof.
  unfold PianoRoll.notesFromSteps. rewrite elem_of_concat. split.
  - intros (l & Hl & Hn). apply elem_of_lookup_imap in Hl as (i & sv & -> & Hi).
    destruct sv as [v|]; [|by apply elem_of_nil in Hn].
    case_bool_decide; [|by apply elem_of_nil in Hn].
    apply list_elem_of_singleton in Hn as ->. by exists i, v.
  - intros (i & v & Hi & Hv & ->).
    refine (ex_intro _ _ (conj (elem_of_lookup_imap_2 _ steps (Some v) i Hi) _)).
    cbn. rewrite bool_decide_eq_true_2 by done. apply list_elem_of_here.
Qed.

(** X14.  The notes of the piano roll stay well formed: when the zoom is
    positive and every click lies within the grid, any sequence of
    quantize, click, delete and drag (move or resize) edits of notes that
    start at or after 0, have a positive duration and a pitch on one of the
    84 rows gives notes of the same kind; so are the notes the piano roll
    makes of the steps of a channel when it opens. *)
Theorem piano_roll_keeps_notes_well_formed (es : list RollEdit) (notes : list Note) :
  Forall inGrid es → Forall wellFormedNote notes →
  Forall wellFormedNote (applyRollEdits es notes)
  ∧ ∀ stamp steps, Forall wellFormedNote (PianoRoll.notesFromSteps stamp steps).
Proof.
  intros Hes Hwf. split.
  - revert notes Hwf. induction Hes as [|e es He Hes IH]; intros notes Hwf; [done|].
    cbn. apply IH. by apply applyRollEdit_wellFormed.
  - intros stamp steps. apply list.Forall_forall. intros n Hn.
    apply notesFromSteps_elem in Hn as (i & v & Hi & Hv & ->).
    unfold wellFormedNote. cbn [start duration pitch].
    split; [apply (num_le 0); lia | done].
Qed.

Lemma piano_roll_keeps_notes_well_formed_witness :
  Forall inGrid demoRollEdits
  ∧ Forall wellFormedNote []
  ∧ Forall wellFormedNote (applyRollEdits demoRollEdits []).
Proof.
  assert (Hes : Forall inGrid demoRollEdits).
  { repeat apply Forall_cons; try apply Forall_nil; cbn; repeat split; by_evaluation. }
  assert (Hwf : Forall wellFormedNote []) by apply Forall_nil.
  split; [exact Hes|]. split; [exact Hwf|].
  exact (proj1 (piano_roll_keeps_notes_well_formed demoRollEdits [] Hes Hwf)).
Defined.

(** ** Opening the piano roll *)

Lemma filter_ext_in {A} (P Q : A → Prop) `{∀ x, Decision (P x)} `{∀ x, Decision (Q x)}
    (l : list A) :
  (∀ x, x ∈ l → P x ↔ Q x) → filter P l = filter Q l.
Proof.
  induction l as [|x l IH]; [done|]. intros Hext.
  rewrite !filter_cons.
  rewrite IH by (intros y Hy; apply Hext; by apply list_elem_of_further).
  pose proof (Hext x (list_elem_of_here _ _)) as Hx.
  destruct (decide (P x)) as [Hp|Hp], (decide (Q x)) as [Hq|Hq]; try done; tauto.
Qed.

Lemma hitIndices_snoc (steps : list (option Z)) (sv : option Z) :
  hitIndices (steps ++ [sv])
  = (hitIndices steps
     ++ match sv with
        | Some v => if bool_decide (0 < v)%Z then [length steps] else []
        | None => []
        end)%list.
Proof.
  unfold hitIndices. rewrite length_app. cbn [length].
  rewrite Nat.add_1_r, seq_S, list.filter_app. cbn [Nat.add]. f_equal.
  - apply filter_ext_in. intros i Hi%elem_of_seq_0.
    unfold Js.get. by rewrite lookup_app_l.
  - rewrite filter_cons, filter_nil. unfold Js.get.
    rewrite lookup_app_r, Nat.sub_diag by done. cbn.
    destruct sv as [v|]; [|by destruct (decide _)].
    case_bool_decide; by destruct (decide _).
Qed.

Lemma notesFromSteps_snoc (stamp : nat → string) (steps : list (option Z)) (sv : option Z) :
  PianoRoll.notesFromSteps stamp (steps ++ [sv])
  = (PianoRoll.notesFromSteps stamp steps
     ++ match sv with
        | Some v =>
            if bool_decide (0 < v)%Z then
              [ {| note_id := "note-from-step-" ++ Js.numToString (length steps) ++ "-"
                              ++ stamp (length steps);
                   pitch := 48; start := num (length steps); duration := 1;
                   velocity := Q2Qc (3 # 4) |} ]
            else []
        | None => []
        end)%list.
Proof.
  unfold PianoRoll.notesFromSteps. rewrite imap_app, concat_app. f_equal.
  cbn. rewrite Nat.add_0_r, app_nil_r. done.
Qed.

Lemma notesFromSteps_starts (stamp : nat → string) (steps : list (option Z)) :
  start <$> PianoRoll.notesFromSteps stamp steps = num <$> hitIndices steps.
Proof.
  induction steps as [|sv steps IH] using rev_ind; [done|].
  rewrite notesFromSteps_snoc, hitIndices_snoc, !fmap_app, IH. f_equal.
  destruct sv as [v|]; [|done]. by case_bool_decide.
Qed.

Lemma findChannel_map (f : ChannelState → ChannelState) cs id :
  (∀ c, ch_id (f c) = ch_id c) →
  findChannel (map f cs) id = f <$> findChannel cs id.
Proof.
  intros Hf. unfold findChannel. induction cs as [|c cs IH]; simpl; [done|].
  rewrite Hf. by destruct (String.eqb (ch_id c) id).
Qed.

Lemma findChannel_Some cs id c :
  findChannel cs id = Some c → c ∈ cs ∧ ch_id c = id.
Proof.
  unfold findChannel. intros [Hin Hid]%List.find_some. split.
  - by apply list_elem_of_In.
  - by apply String.eqb_eq.
Qed.

(** X15.  Opening the piano roll on a channel of the active pattern that
    has no notes turns its steps into notes: the store becomes the one
    [handleUpdateChannelNotes] gives for the notes made of the steps, so
    the channel then holds these notes and an all-zero steps array of the
    old length.  There is one note for each step that holds a hit, in step
    order, starting at that step, with pitch 48, duration 1 and velocity
    0.75 whatever the roll value of the step was, and also for hits beyond
    the length of the pattern. *)
Theorem piano_roll_takes_over_steps (stamp : nat → string)
    (activePatternId editingChannelId : string) (patterns : list Pattern)
    (p : Pattern) (ch : ChannelState) :
  findPattern patterns activePatternId = Some p →
  findChannel (channels p) editingChannelId = Some ch →
  noNotes ch →
  let migrated := PianoRoll.notesFromSteps stamp (steps ch) in
  let patterns' := mountPianoRoll stamp activePatternId editingChannelId patterns in
  patterns' = handleUpdateChannelNotes activePatternId editingChannelId migrated patterns
  ∧ (∃ p', findPattern patterns' activePatternId = Some p'
       ∧ findChannel (channels p') editingChannelId
         = Some (withStepsNotes ch (Js.zeros (length (steps ch))) migrated))
  ∧ start <$> migrated = num <$> hitIndices (steps ch)
  ∧ Forall (λ n, pitch n = 48%Z ∧ duration n = 1%Qc ∧ velocity n = Q2Qc (3 # 4)) migrated.
Proof.
  intros Hp Hch Hno migrated patterns'.
  destruct (findChannel_Some _ _ _ Hch) as [_ Hcid].
  assert (Hinit : PianoRoll.initialNotes stamp ch = migrated).
  { unfold PianoRoll.initialNotes, noNotes in *.
    destruct (notes ch) as [ns|]; cbn; [|done].
    rewrite bool_decide_eq_false_2; [done | lia]. }
  assert (Hmount : patterns'
    = handleUpdateChannelNotes activePatternId editingChannelId migrated patterns).
  { unfold patterns', mountPianoRoll. by rewrite Hp, Hch, Hinit, Hcid. }
  split; [done|]. split; [|split].
  - rewrite Hmount. unfold handleUpdateChannelNotes.
    rewrite findPattern_map by (intros q; by destruct (negb _)).
    rewrite Hp. cbn [fmap option_fmap option_map]. eexists. split; [done|].
    destruct (findPattern_Some _ _ _ Hp) as [_ Hpid].
    rewrite Hpid, String.eqb_refl. cbn [negb channels withChannels].
    rewrite findChannel_map by (intros c; by destruct (String.eqb _ _)).
    rewrite Hch. cbn [fmap option_fmap option_map].
    by rewrite Hcid, String.eqb_refl.
  - apply notesFromSteps_starts.
  - apply list.Forall_forall. intros n Hn.
    by apply notesFromSteps_elem in Hn as (i & v & _ & _ & ->).
Qed.

Lemma piano_roll_takes_over_steps_witness :
  findPattern demoStore "A" = Some patternA
  ∧ findChannel (channels patternA) "ch-A-1"
    = Some (demoChannel "ch-A-1" kick (Some 1%Z :: Js.zeros 31))
  ∧ noNotes (demoChannel "ch-A-1" kick (Some 1%Z :: Js.zeros 31))
  ∧ start <$> PianoRoll.notesFromSteps (λ _, "r") (Some 1%Z :: Js.zeros 31)
    = num <$> hitIndices (Some 1%Z :: Js.zeros 31).
Proof.
  split; [reflexivity|]. split; [reflexivity|]. split; [reflexivity|].
  exact (proj1 (proj2 (proj2
    (piano_roll_takes_over_steps (λ _, "r") "A" "ch-A-1" demoStore patternA
       (demoChannel "ch-A-1" kick (Some 1%Z :: Js.zeros 31))
       eq_refl eq_refl eq_refl)))).
Defined.
(** ** Mute, solo and what sounds *)








(** ** Placing, playing and removing *)

Lemma lengthInBars_nonneg (p : Pattern) : (0 ≤ lengthInBars p)%Qc.
Proof.
  unfold lengthInBars. apply div_nonneg; [reflexivity|]. apply (num_le 0). lia.
Qed.

Lemma num_lt_add (a b : nat) (q : Qc) : (a < b)%nat → (0 ≤ q)%Qc → (num a < num b + q)%Qc.
Proof.
  intros Hab Hq. apply Qclt_le_trans with (num b).
  - unfold num. apply (proj1 (Z2Qc_inj_lt _ _)). lia.
  - rewrite <-(Qcplus_0_r (num b)) at 1. by apply Qcplus_le_mono_l.
Qed.

(** X17.  A pattern placed by a click is what song mode plays: after a
    click that places an existing pattern with a non-empty id at a bar of
    one of the 32 tracks, every bar the placement covers resolves to that
    pattern and that start bar, provided no lower track has an entry that
    matches at the bar. *)
Theorem clicked_pattern_plays (patterns : list Pattern) (brush : string) (p : Pattern)
    (playlist : gmap string string) (track bar x : nat) :
  findPattern patterns brush = Some p →
  brush ≠ EmptyString →
  (track < 32)%nat →
  covers bar p x →
  (∀ t s c, (t < track)%nat → ¬ entryMatches patterns playlist x t s c) →
  resolveActivePattern patterns (handleGridClick patterns brush playlist track bar) x
  = Some (p, bar).
Proof.
  intros Hfind Hne Htrack [Hbar Hx] Hbelow. unfold resolveActivePattern.
  apply scanTracks_Some. exists track. split; [lia|]. split; [split|].
  - exists brush. split; [by eapply click_new|]. by split_and!.
  - intros s c Hs (pid & Hlook & _ & Hc & _ & _).
    rewrite (click_lookup patterns brush p) in Hlook by done.
    rewrite decide_False in Hlook by lia.
    destruct (playlist !! playlistKey track s) as [pid'|]; [|done].
    rewrite deletesEntry_key, Nat.eqb_refl in Hlook.
    destruct (findPattern patterns pid') as [existing|] eqn:Hex.
    + rewrite (proj2 (overlaps_intersects bar p s existing)) in Hlook; [done|].
      split.
      * apply num_lt_add; [lia | apply lengthInBars_nonneg].
      * eapply Qcle_lt_trans; [apply num_le|exact Hx]. lia.
    + injection Hlook as ->. congruence.
  - intros t s c Ht (pid & Hlook & Hrest).
    rewrite (click_other_track patterns brush p) in Hlook by (done || lia).
    apply (Hbelow t s c); [lia|]. by exists pid.
Qed.

Lemma clicked_pattern_plays_witness :
  findPattern demoStore "A" = Some patternA
  ∧ covers 3 patternA 4
  ∧ resolveActivePattern demoStore (handleGridClick demoStore "A" demoPlaylist 0 3) 4
    = Some (patternA, 3%nat).
Proof.
  assert (Hc : covers 3 patternA 4) by (split; [lia | by_evaluation]).
  split; [reflexivity|]. split; [exact Hc|].
  apply (clicked_pattern_plays demoStore "A" patternA demoPlaylist 0 3 4 eq_refl).
  - discriminate.
  - lia.
  - exact Hc.
  - intros t s c Ht. lia.
Defined.


(** ** What the exports schedule, and when *)










Lemma release_not_scheduled bpm swing patternLength name startTime startStep
    (steps : list (option Z)) nm t :
  ReleaseAll nm t ∉ scheduleSteps bpm swing patternLength name startTime startStep steps.
Proof.
  unfold scheduleSteps. intros (l & Hl & Hin)%elem_of_concat.
  apply elem_of_lookup_imap in Hl as (i & sv & -> & Hi).
  destruct sv as [v|]; [|by apply elem_of_nil in Hin].
  destruct (_ || _); [by apply elem_of_nil in Hin|].
  unfold scheduleStep, rollHits in Hin. case_bool_decide.
  - by apply list_elem_of_singleton in Hin.
  - by apply elem_of_map in Hin as (j & ? & _).
Qed.

Lemma release_in_triggerStep audioNodes noteDuration time stepValue ch nm t :
  ReleaseAll nm t ∈ triggerStep audioNodes noteDuration time stepValue ch
  ↔ Js.truthy (isAudioClipChannel ch) = false
    ∧ noNotes ch
    ∧ (∃ v, stepValue = Some v ∧ (0 < v)%Z)
    ∧ sample_name (sample ch) ∈ audioNodes
    ∧ cutItself ch = true
    ∧ nm = sample_name (sample ch) ∧ t = time.
Proof.
  unfold triggerStep, noNotes. destruct (Js.truthy (isAudioClipChannel ch)).
  { split; [by intros ?%elem_of_nil | by intros [? _]]. }
  destruct (notes ch) as [ns|].
  - case_bool_decide as Hns.
    + split; [by intros ?%elem_of_nil | intros (_ & ? & _); lia].
    + destruct stepValue as [v|].
      * case_bool_decide as Hv; [|split; [by intros ?%elem_of_nil|];
          intros (_ & _ & (w & [= <-] & ?) & _); lia].
        case_bool_decide as Hnode; [|split; [by intros ?%elem_of_nil|];
          by intros (_ & _ & _ & ? & _)].
        rewrite elem_of_app. split.
        -- intros [Hin|Hin].
           ++ destruct (cutItself ch); [|by apply elem_of_nil in Hin].
              apply list_elem_of_singleton in Hin as [= -> ->].
              split_and!; try done; [lia | by exists v].
           ++ exfalso. case_bool_decide.
              ** by apply list_elem_of_singleton in Hin.
              ** unfold rollHits in Hin. by apply elem_of_map in Hin as (j & ? & _).
        -- intros (_ & _ & _ & _ & -> & -> & ->). left. apply list_elem_of_here.
      * split; [by intros ?%elem_of_nil | by intros (_ & _ & (w & ? & _) & _)].
  - destruct stepValue as [v|].
    + case_bool_decide as Hv; [|split; [by intros ?%elem_of_nil|];
        intros (_ & _ & (w & [= <-] & ?) & _); lia].
      case_bool_decide as Hnode; [|split; [by intros ?%elem_of_nil|];
        by intros (_ & _ & _ & ? & _)].
      rewrite elem_of_app. split.
      * intros [Hin|Hin].
        -- destruct (cutItself ch); [|by apply elem_of_nil in Hin].
           apply list_elem_of_singleton in Hin as [= -> ->].
           split_and!; try done. by exists v.
        -- exfalso. case_bool_decide.
           ++ by apply list_elem_of_singleton in Hin.
           ++ unfold rollHits in Hin. by apply elem_of_map in Hin as (j & ? & _).
      * intros (_ & _ & _ & _ & -> & -> & ->). left. apply list_elem_of_here.
    + split; [by intros ?%elem_of_nil | by intros (_ & _ & (w & ? & _) & _)].
Qed.

(** X20.  Cut-itself is a live feature only.  Neither export ever asks a
    sampler to release, whatever the tempo and the swing, while live
    pattern playback releases the sampler of a channel at every step at
    which a sampled channel without notes, with cut-itself on and a loaded
    sampler, holds a hit, and at no other time. *)
Theorem export_ignores_cut_itself (patterns : list Pattern) (playlist : gmap string string)
    (audioClips : list AudioClip) (p : Pattern) (bpm swing : Qc) (nm : string) (t : Qc) :
  (ReleaseAll nm t ∉ exportPatternToWav p bpm swing)
  ∧ (ReleaseAll nm t ∉ renderSongToBuffer patterns playlist audioClips bpm swing)
  ∧ (ReleaseAll nm t ∈ livePattern p bpm
     ↔ ∃ k ch v, (k < pat_length p)%nat ∧ ch ∈ channels p
         ∧ Js.truthy (isAudioClipChannel ch) = false ∧ noNotes ch
         ∧ Js.get (steps ch) k = Some v ∧ (0 < v)%Z
         ∧ sample_name (sample ch) ∈ patternSamplers p
         ∧ cutItself ch = true
         ∧ nm = sample_name (sample ch) ∧ t = stepTime bpm k).
Proof.
  split; [|split].
  - unfold exportPatternToWav. case_bool_decide; [apply not_elem_of_nil|].
    intros (ch & Hch & Hin)%elem_of_flat_map.
    case_bool_decide; [|by apply elem_of_nil in Hin].
    by apply release_not_scheduled in Hin.
  - unfold renderSongToBuffer. case_bool_decide; [apply not_elem_of_nil|].
    intros ([key pid] & _ & Hin)%elem_of_flat_map. unfold renderEntry in Hin.
    destruct (keyParts key).2 as [bar|]; [|by apply elem_of_nil in Hin].
    destruct (findPattern patterns pid) as [q|]; [|by apply elem_of_nil in Hin].
    apply elem_of_flat_map in Hin as (ch & Hch & Hin).
    destruct (Js.truthy _); [by apply elem_of_nil in Hin|].
    case_bool_decide; [|by apply elem_of_nil in Hin].
    by apply release_not_scheduled in Hin.
  - unfold livePattern, patternSequenceCallback. rewrite elem_of_flat_map. split.
    + intros (k & Hk%elem_of_seq_0 & (ch & Hch & Hin)%elem_of_flat_map).
      apply release_in_triggerStep in Hin
        as (Hclip & Hno & (v & Hv & Hpos) & Hnode & Hcut & -> & ->).
      exists k, ch, v. by split_and!.
    + intros (k & ch & v & Hk & Hch & Hclip & Hno & Hv & Hpos & Hnode & Hcut & -> & ->).
      exists k. split; [by apply elem_of_seq_0|]. apply elem_of_flat_map.
      exists ch. split; [done|]. apply release_in_triggerStep.
      split_and!; try done. by exists v.
Qed.
(** Linear arithmetic on canonical rationals, through [Q]. *)
Ltac qc_to_q :=
  repeat progress
    (unfold Qcle, Qclt, Qcplus, Qcminus, Qcopp, Qcmult, Q2Qc, Qc_of_Z, num in *;
     cbn [this] in *);
  repeat match goal with
  | H : context [Qred _] |- _ => rewrite !Qred_correct in H
  end;
  rewrite ?Qred_correct;
  rewrite ?inject_Z_plus, ?inject_Z_mult, ?inject_Z_opp in *;
  repeat match goal with
  | |- context [Z.of_nat (S ?n)] =>
      let v := eval compute in (Z.of_nat (S n)) in change (Z.of_nat (S n)) with v in *
  | H : context [Z.of_nat (S ?n)] |- _ =>
      let v := eval compute in (Z.of_nat (S n)) in change (Z.of_nat (S n)) with v in *
  end;
  repeat match goal with
  | |- context [inject_Z (Zpos ?p)] => change (inject_Z (Zpos p)) with (Zpos p # 1)%Q in *
  | H : context [inject_Z (Zpos ?p)] |- _ =>
      change (inject_Z (Zpos p)) with (Zpos p # 1)%Q in *
  | |- context [inject_Z (Zneg ?p)] => change (inject_Z (Zneg p)) with (Zneg p # 1)%Q in *
  | H : context [inject_Z (Zneg ?p)] |- _ =>
      change (inject_Z (Zneg p)) with (Zneg p # 1)%Q in *
  end;
  change (inject_Z 0) with 0%Q in *;
  repeat match goal with
  | |- context [inject_Z ?z] =>
      let q := fresh "q" in set (q := inject_Z z) in *; clearbody q
  | H : context [inject_Z ?z] |- _ =>
      let q := fresh "q" in set (q := inject_Z z) in *; clearbody q
  end.

Ltac qc_lra := qc_to_q; lra.

(** ** Trimming audio clips *)

Lemma Qc_minus_move (a b c : Qc) : (a - b = c)%Qc ↔ (a = c + b)%Qc.
Proof. split; intros H; [rewrite <-H | rewrite H]; ring. Qed.

(** X21.  Trimming keeps a clip within its audio file.  For a clip whose
    trim is valid and a trim drag that began on it, whatever the snap
    function: an update of the start keeps the end bar of the clip and the
    position of the audio on the time line, and an update of the end keeps
    the start bar and the trim start; either way the trimmed clip is valid
    again (trim start at or after 0, more than 0.01 bars shown, trim
    within the file).  The song export then starts a valid clip with an
    offset and a duration that lie within the audio file. *)
Theorem clip_trim_stays_in_file (clip : AudioClip) (snap : Qc → Qc)
    (type : SongMode.TrimType) (mouseDownX clientX : Qc) (update : SongMode.ClipPartial) :
  validClip clip →
  SongMode.handleTrimMouseMove clip snap
    (Some (SongMode.handleTrimMouseDown type clip mouseDownX)) clientX = Some update →
  let clip' := spreadClip clip update in
  validClip clip'
  ∧ durationInBars clip' = durationInBars clip ∧ track clip' = track clip
  ∧ (type = SongMode.trimStart →
     (startBar clip' + trimDurationBars clip' = startBar clip + trimDurationBars clip)%Qc
     ∧ (startBar clip' - trimStartBars clip' = startBar clip - trimStartBars clip)%Qc)
  ∧ (type = SongMode.trimEnd →
     startBar clip' = startBar clip ∧ trimStartBars clip' = trimStartBars clip)
  ∧ (∀ bpm total, (0 < total)%Qc →
       ∃ offsetSeconds durationSeconds,
         clipStart bpm total clip'
         = Some ((startBar clip' * secondsPerBar bpm)%Qc, offsetSeconds, durationSeconds)
         ∧ (0 ≤ offsetSeconds)%Qc ∧ (0 < durationSeconds)%Qc
         ∧ (offsetSeconds + durationSeconds ≤ total)%Qc).
Proof.
  intros (Hts & Htd & Hfit) Hmove clip'.
  assert (Hvalid : validClip clip'
    ∧ (type = SongMode.trimStart →
       (startBar clip' + trimDurationBars clip' = startBar clip + trimDurationBars clip)%Qc
       ∧ (startBar clip' - trimStartBars clip' = startBar clip - trimStartBars clip)%Qc)
    ∧ (type = SongMode.trimEnd →
       startBar clip' = startBar clip ∧ trimStartBars clip' = trimStartBars clip)).
  { unfold SongMode.handleTrimMouseMove, SongMode.handleTrimMouseDown in Hmove.
    cbn [SongMode.trim_type SongMode.trim_startX SongMode.initialStartBar
         SongMode.initialTrimStartBars SongMode.initialTrimDurationBars] in Hmove.
    destruct type.
    - set (snapped := snap (startBar clip + (clientX - mouseDownX) / SongMode.BAR_WIDTH_PX)%Qc)
        in Hmove.
      case_bool_decide as Hneg.
      + case_bool_decide as Hshort; [done|]. injection Hmove as <-.
        unfold clip', validClip, spreadClip. cbn.
        apply Qcnot_le_lt in Hshort.
        split_and!; try done.
        * replace (0 + (startBar clip + trimDurationBars clip
                        - (snapped + - (trimStartBars clip + (snapped - startBar clip)))))%Qc
            with (trimStartBars clip + trimDurationBars clip)%Qc by ring.
          done.
        * intros _. split; ring.
      + case_bool_decide as Hshort; [done|]. injection Hmove as <-.
        unfold clip', validClip, spreadClip. cbn.
        apply Qcnot_le_lt in Hshort. apply Qcnot_lt_le in Hneg.
        split_and!; try done.
        * replace (trimStartBars clip + (snapped - startBar clip)
                   + (startBar clip + trimDurationBars clip - snapped))%Qc
            with (trimStartBars clip + trimDurationBars clip)%Qc by ring.
          done.
        * intros _. split; ring.
    - set (snapped := snap (startBar clip + trimDurationBars clip
                            + (clientX - mouseDownX) / SongMode.BAR_WIDTH_PX)%Qc) in Hmove.
      case_bool_decide as Hshort; [done|]. injection Hmove as <-.
      unfold clip', validClip, spreadClip. cbn.
      apply Qcnot_le_lt in Hshort.
      split_and!; try done.
      + case_bool_decide as Hover; [|done].
        eapply Qclt_le_trans; [exact Htd|].
        apply (Qcplus_le_mono_l _ _ (trimStartBars clip)).
        by replace (trimStartBars clip + (durationInBars clip - trimStartBars clip))%Qc
          with (durationInBars clip) by ring.
      + case_bool_decide as Hover.
        * replace (trimStartBars clip + (durationInBars clip - trimStartBars clip))%Qc
            with (durationInBars clip) by ring.
          apply Qcle_refl.
        * by apply Qcnot_lt_le. }
  destruct Hvalid as ((Hts' & Htd' & Hfit') & Hstart & Hend).
  assert (Hdur : durationInBars clip' = durationInBars clip) by done.
  assert (Htrack : track clip' = track clip).
  { unfold SongMode.handleTrimMouseMove in Hmove. cbn in Hmove.
    destruct type; repeat case_bool_decide; try done; by injection Hmove as <-. }
  split; [done|]. split; [done|]. split; [done|]. split; [done|]. split; [done|].
  intros bpm total Htotal.
  assert (Hd : (0 < durationInBars clip')%Qc).
  { eapply Qclt_le_trans; [|exact Hfit'].
    eapply Qclt_le_trans; [|apply (Qcplus_le_mono_r 0); exact Hts'].
    rewrite Qcplus_0_l. eapply Qclt_trans; [|exact Htd']. reflexivity. }
  assert (Htd0 : (0 < trimDurationBars clip')%Qc).
  { eapply Qclt_trans; [|exact Htd']. reflexivity. }
  assert (Hpos : (0 < trimDurationBars clip' / durationInBars clip' * total)%Qc).
  { apply Qcmult_pos_pos; [|done].
    apply (Qcmult_lt_mono_pos_r _ _ (durationInBars clip') Hd).
    rewrite Qcmult_0_l, test_field by (by apply Qc_ne_0). done. }
  unfold clipStart. rewrite bool_decide_eq_true_2 by done.
  eexists _, _. split; [done|]. split; [|split; [done|]].
  - apply Qcmult_nonneg_nonneg; [|by apply Qclt_le_weak].
    by apply div_nonneg.
  - rewrite <-Qcmult_plus_distr_l.
    rewrite <-(Qcmult_1_l total) at 2. apply Qcmult_le_mono_nonneg_r; [by apply Qclt_le_weak|].
    apply (Qcmult_le_mono_pos_r _ _ (durationInBars clip') Hd).
    rewrite Qcmult_1_l, Qcmult_plus_distr_l, !test_field by (by apply Qc_ne_0). done.
Qed.

Lemma clip_trim_stays_in_file_witness :
  validClip demoClip
  ∧ ∃ update,
      SongMode.handleTrimMouseMove demoClip (SongMode.snapToGrid SongMode.bar)
        (Some (SongMode.handleTrimMouseDown SongMode.trimStart demoClip 0%Qc)) (num 80)
      = Some update
      ∧ validClip (spreadClip demoClip update).
Proof.
  assert (Hv : validClip demoClip) by (repeat split; by_evaluation).
  eassert (Hm : SongMode.handleTrimMouseMove demoClip (SongMode.snapToGrid SongMode.bar)
      (Some (SongMode.handleTrimMouseDown SongMode.trimStart demoClip 0%Qc)) (num 80)
    = Some _) by (vm_compute; reflexivity).
  split; [exact Hv|]. eexists. split; [exact Hm|].
  exact (proj1 (clip_trim_stays_in_file demoClip (SongMode.snapToGrid SongMode.bar)
                  SongMode.trimStart 0%Qc (num 80) _ Hv Hm)).
Defined.

(** ** Snapping on the song grid *)

Lemma round_error (x : Qc) :
  (- Q2Qc (1 # 2) ≤ Qc_of_Z (Js.round x) - x)%Qc
  ∧ (Qc_of_Z (Js.round x) - x ≤ Q2Qc (1 # 2))%Qc.
Proof.
  pose proof (floor_le (x + Q2Qc (1 # 2))%Qc) as Hlo.
  pose proof (floor_lt (x + Q2Qc (1 # 2))%Qc) as Hhi.
  unfold Js.round. set (r := Qfloor (x + Q2Qc (1 # 2))%Qc) in *. clearbody r.
  split; qc_lra.
Qed.

Lemma div_16_mul (x : Qc) : (x / num 16 * num 16)%Qc = x.
Proof. field. apply num_16_ne. Qed.

(** X22.  The snap of the song grid is idempotent, monotone and keeps a
    bar position that is not negative from becoming negative; it moves a
    position by at most half a bar in bar mode and by at most a 32nd of a
    bar in grid mode, and not at all when off; a position snapped to
    whole bars is left alone by the grid snap. *)
Theorem song_snap_to_grid (mode : SongMode.SnapMode) (x y : Qc) :
  SongMode.snapToGrid mode (SongMode.snapToGrid mode x) = SongMode.snapToGrid mode x
  ∧ (Qcabs (SongMode.snapToGrid mode x - x)
     ≤ match mode with
       | SongMode.bar => Q2Qc (1 # 2)
       | SongMode.grid => Q2Qc (1 # 32)
       | SongMode.none => 0
       end)%Qc
  ∧ ((x ≤ y)%Qc → (SongMode.snapToGrid mode x ≤ SongMode.snapToGrid mode y)%Qc)
  ∧ ((0 ≤ x)%Qc → (0 ≤ SongMode.snapToGrid mode x)%Qc)
  ∧ SongMode.snapToGrid SongMode.grid (SongMode.snapToGrid SongMode.bar x)
    = SongMode.snapToGrid SongMode.bar x.
Proof.
  assert (Hmono : ∀ a b, (a ≤ b)%Qc →
    (SongMode.snapToGrid mode a ≤ SongMode.snapToGrid mode b)%Qc).
  { intros a b Hab. destruct mode; cbn [SongMode.snapToGrid]; [| |done].
    - apply (proj1 (Z2Qc_inj_le _ _)), round_mono, Hab.
    - apply div_mono; [apply num_16_pos|].
      apply (proj1 (Z2Qc_inj_le _ _)), round_mono.
      apply Qcmult_le_mono_nonneg_r; [by apply Qclt_le_weak, num_16_pos | done]. }
  split_and!.
  - destruct mode; cbn [SongMode.snapToGrid]; [by rewrite round_Z | | done].
    by rewrite div_16_mul, round_Z.
  - apply Qcabs_Qcle_condition. destruct mode; cbn [SongMode.snapToGrid].
    + destruct (round_error x). by split.
    + destruct (round_error (x * num 16)) as [Hlo Hhi].
      set (r := Js.round (x * num 16)) in *. clearbody r.
      assert (Hx : (Qc_of_Z r / num 16 - x = (Qc_of_Z r - x * num 16) / num 16)%Qc)
        by (field; apply num_16_ne).
      rewrite Hx. split.
      * apply (Qcmult_le_mono_pos_r _ _ (num 16) num_16_pos).
        rewrite div_16_mul. eapply Qcle_trans; [|exact Hlo]. by vm_compute.
      * apply (Qcmult_le_mono_pos_r _ _ (num 16) num_16_pos).
        rewrite div_16_mul. eapply Qcle_trans; [exact Hhi|]. by vm_compute.
    + replace (x - x)%Qc with 0%Qc by ring. by split.
  - apply Hmono.
  - intros Hx. assert (H0 : SongMode.snapToGrid mode 0 = 0%Qc)
      by (destruct mode; by_evaluation).
    rewrite <-H0. by apply Hmono.
  - cbn [SongMode.snapToGrid]. unfold num.
    rewrite <-Z2Qc_inj_mul, round_Z, Z2Qc_inj_mul.
    apply Qcdiv_mult_l. exact num_16_ne.
Qed.
(** ** Channel edits from the rack of an added pattern *)

Lemma findIndex_None cs id : (∀ c, c ∈ cs → ch_id c ≠ id) → findIndex cs id = None.
Proof.
  induction cs as [|c cs IH]; [done|]. intros Hall. simpl.
  rewrite eqb_neq_false by (apply Hall, list_elem_of_here).
  rewrite IH; [done|]. intros c' Hc'. by apply Hall, list_elem_of_further.
Qed.

(** X23.  The channel rack of an added pattern cannot change the mixer.
    The channels of a pattern made by [handleAddPattern] carry new ids,
    while a property update and a mute or solo toggle look the id up in the
    first pattern; so, unless the first pattern happens to use one of the
    new ids, both handlers leave the store exactly as it is for every
    channel id of the added pattern. *)
Theorem added_pattern_rack_edits_are_lost (stamp activePatternId : string)
    (first : Pattern) (rest : list Pattern) (p : Pattern)
    (newProps : ChannelPartial) (type : MuteSoloType) :
  findPattern (first :: rest) activePatternId = Some p →
  (∀ c j, c ∈ channels first →
     ch_id c ≠ "ch-" ++ ("pattern-" ++ stamp) ++ "-" ++ Js.numToString (j + 1)) →
  let store := handleAddPattern stamp activePatternId (first :: rest) in
  ∃ np, store = (first :: rest ++ [np])%list
    ∧ length (channels np) = length (channels p)
    ∧ ∀ ch, ch ∈ channels np →
        handleChannelChange (ch_id ch) newProps store = Some store
        ∧ handleChannelMuteSoloChange (ch_id ch) type store = Some store.
Proof.
  intros Hfind Hfresh store. unfold store, handleAddPattern. rewrite Hfind.
  cbn [fmap option_fmap option_map]. eexists. split; [done|].
  unfold createNewPattern. cbn [channels]. split; [unfold mapi; apply length_imap|].
  intros ch (j & Hj)%list_elem_of_lookup. rewrite lookup_cloneChannel in Hj.
  destruct (channels p !! j) as [c|]; [|done]. injection Hj as <-.
  assert (Hnone : findIndex (channels first)
                    (ch_id (cloneChannel ("pattern-" ++ stamp) j c)) = None).
  { apply findIndex_None. intros c' Hc'. by apply Hfresh. }
  split.
  - rewrite handleChannelChange_spec. cbn [app masterIndex]. by rewrite Hnone.
  - rewrite handleChannelMuteSoloChange_spec. cbn [app masterIndex]. by rewrite Hnone.
Qed.

Lemma added_pattern_rack_edits_are_lost_witness :
  findPattern (patternA :: [patternB]) "A" = Some patternA
  ∧ ∃ np, handleAddPattern "7" "A" (patternA :: [patternB])
          = (patternA :: [patternB] ++ [np])%list
      ∧ ∀ ch, ch ∈ channels np →
          handleChannelChange (ch_id ch) louder (handleAddPattern "7" "A" demoStore)
          = Some (handleAddPattern "7" "A" demoStore).
Proof.
  split; [reflexivity|].
  assert (Hfresh : ∀ c j, c ∈ channels patternA →
     ch_id c ≠ "ch-" ++ ("pattern-" ++ "7") ++ "-" ++ Js.numToString (j + 1)).
  { intros c j Hc. apply list_elem_of_singleton in Hc as ->. discriminate. }
  destruct (added_pattern_rack_edits_are_lost "7" "A" patternA [patternB] patternA
              louder mute eq_refl Hfresh) as (np & Hstore & _ & Hlost).
  exists np. split; [exact Hstore|]. intros ch Hch. exact (proj1 (Hlost ch Hch)).
Defined.
(** ** Recording from the typing keyboard *)

Lemma mapGet_Some (m : list (Z * NoteOn)) (k : Z) (v : NoteOn) :
  mapGet m k = Some v → (k, v) ∈ m.
Proof.
  unfold mapGet. destruct (List.find _ m) as [[k' v']|] eqn:Hfind; [|done].
  intros [= <-]. apply List.find_some in Hfind as [Hin Hk]. cbn in Hk.
  apply Z.eqb_eq in Hk as ->. by apply list_elem_of_In.
Qed.

Lemma mapSet_length (m : list (Z * NoteOn)) (k : Z) (v : NoteOn) :
  (length (mapSet m k v) ≤ S (length m))%nat.
Proof.
  unfold mapSet. case_bool_decide.
  - rewrite length_map. lia.
  - rewrite length_app. simpl. lia.
Qed.

Lemma mapSet_Forall (P : NoteOn → Prop) (m : list (Z * NoteOn)) (k : Z) (v : NoteOn) :
  Forall (λ e, P e.2) m → P v → Forall (λ e, P e.2) (mapSet m k v).
Proof.
  intros Hm Hv. unfold mapSet. case_bool_decide.
  - rewrite map_is_fmap. apply Forall_fmap. eapply list.Forall_impl; [exact Hm|].
    intros e He. cbn. by destruct (Z.eqb e.1 k).
  - apply Forall_app. split; [done|]. by apply Forall_singleton.
Qed.

Lemma mapDelete_length (m : list (Z * NoteOn)) (k : Z) (v : NoteOn) :
  mapGet m k = Some v → (length (mapDelete m k) < length m)%nat.
Proof.
  intros Hget%mapGet_Some. unfold mapDelete.
  eapply length_filter_lt; [exact Hget|]. cbn. by rewrite Z.eqb_refl.
Qed.

Lemma mapDelete_Forall (P : Z * NoteOn → Prop) (m : list (Z * NoteOn)) (k : Z) :
  Forall P m → Forall P (mapDelete m k).
Proof.
  intros Hm. apply list.Forall_forall. intros e [_ He]%list_elem_of_filter.
  by apply (proj1 (list.Forall_forall _ _) Hm).
Qed.

Lemma max_tenth_pos (x : Qc) : (0 < Js.max (Q2Qc (1 # 10)) x)%Qc.
Proof. eapply Qclt_le_trans; [|apply max_ge_l]. reflexivity. Qed.

Lemma keyEvent_inv patterns s e n r :
  recorderInv n r →
  recorderInv (if isKeyDown e then S n else n) (keyEvent patterns s e r).
Proof.
  intros (Ha & Hr & Hn).
  assert (Hsame : recorderInv (if isKeyDown e then S n else n) r).
  { split; [done|]. split; [done|]. destruct (isKeyDown e); lia. }
  destruct e as [seconds cid pitch' vel|seconds now cid pitch']; cbn [keyEvent isKeyDown] in *.
  - unfold triggerTypingNote. destruct patterns as [|first rest]; [done|].
    destruct (findChannel _ _); [|done]. destruct (_ && _); [|done].
    case_bool_decide as Hstart; [|done].
    split; [|split]; cbn [activeNotes recordedNotes].
    + by apply (mapSet_Forall (λ v, 0 ≤ noteOn_startTime v)%Qc).
    + done.
    + pose proof (mapSet_length (activeNotes r) pitch'
        {| noteOn_startTime :=
             ((seconds - recordingStartTime s) / (num 60 / session_bpm s / num 4))%Qc;
           noteOn_velocity := vel |}). lia.
  - unfold releaseTypingNote. destruct patterns as [|first rest]; [done|].
    destruct (findChannel _ _); [|done]. destruct (_ && _); [|done].
    destruct (mapGet (activeNotes r) pitch') as [noteOn|] eqn:Hget; [|done].
    split; [|split]; cbn [activeNotes recordedNotes].
    + by apply mapDelete_Forall.
    + apply Forall_app. split; [done|]. apply Forall_singleton. cbn. split.
      * apply mapGet_Some in Hget.
        exact (proj1 (list.Forall_forall _ _) Ha _ Hget).
      * apply max_ge_l.
    + pose proof (mapDelete_length _ _ _ Hget). rewrite length_app. simpl. lia.
Qed.

Lemma keyDowns_cons (e : KeyEvent) (es : list KeyEvent) :
  keyDowns (e :: es) = ((if isKeyDown e then 1 else 0) + keyDowns es)%nat.
Proof.
  unfold keyDowns. rewrite filter_cons.
  destruct (isKeyDown e); by destruct (decide _).
Qed.

Lemma recordEvents_inv patterns s es n r :
  recorderInv n r → recorderInv (n + keyDowns es) (recordEvents patterns s es r).
Proof.
  revert n r. induction es as [|e es IH]; intros n r Hinv.
  - unfold keyDowns. simpl. by rewrite Nat.add_0_r.
  - rewrite keyDowns_cons.
    pose proof (keyEvent_inv patterns s e n r Hinv) as Hstep.
    apply IH in Hstep. unfold recordEvents in *. cbn [foldl].
    destruct (isKeyDown e).
    + by replace (n + (1 + keyDowns es))%nat with (S n + keyDowns es)%nat by lia.
    + done.
Qed.

Lemma quantize_wellTimed (notes : list Note) (snap : QuantizeSnapValue) :
  Forall wellTimed notes → Forall wellTimed (quantizeNotes notes snap).
Proof.
  intros Hwt. destruct (quantize_step_cases snap) as [->|Hs]; [done|].
  rewrite quantizeNotes_positive by done.
  rewrite map_is_fmap. apply Forall_fmap. eapply list.Forall_impl; [exact Hwt|].
  intros n [Hst Hd]. split; cbn.
  - apply Qcmult_nonneg_nonneg; [|by apply Qclt_le_weak].
    rewrite <-Z2Qc_inj_0. apply (proj1 (Z2Qc_inj_le _ _)), round_nonneg.
    by apply div_nonneg.
  - eapply Qclt_le_trans; [exact Hs | apply max_ge_l].
Qed.

(** X24.  The notes a take ends with are well timed: whatever keys are
    pressed and released and whenever, and whenever the recording stops,
    every note handed to the store starts at or after 0 and lasts, for at
    least a tenth of a step when quantization is off; there are no more
    notes than keys were pressed.  A key event whose channel id the first
    pattern does not have records nothing, so a take played on such a
    channel only ends without notes. *)
Theorem recorded_take_is_well_timed (patterns : list Pattern) (s : Session)
    (es : list KeyEvent) (stopTimeInSeconds : Qc) (now : string)
    (quantizeSnapValue : QuantizeSnapValue) :
  let notes :=
    stopPlaybackNotes s stopTimeInSeconds now quantizeSnapValue
      (recordEvents patterns s es emptyRecorder) in
  Forall wellTimed notes
  ∧ (quantizeSnapValue = SnapNone →
     Forall (λ n, (Q2Qc (1 # 10) ≤ duration n)%Qc) notes)
  ∧ (length notes ≤ keyDowns es)%nat
  ∧ ((∀ e, e ∈ es → masterChannel patterns (eventChannel e) = None) → notes = []).
Proof.
  intros notes.
  assert (Hinv : recorderInv (0 + keyDowns es) (recordEvents patterns s es emptyRecorder)).
  { apply recordEvents_inv. by repeat split. }
  destruct Hinv as (Ha & Hr & Hn). rewrite Nat.add_0_l in Hn.
  set (r := recordEvents patterns s es emptyRecorder) in *.
  set (final := stopPlaybackNotes s stopTimeInSeconds now SnapNone r).
  assert (Hfinal : Forall (λ n, (0 ≤ start n)%Qc ∧ (Q2Qc (1 # 10) ≤ duration n)%Qc) final).
  { unfold final, stopPlaybackNotes. apply Forall_app. split; [done|].
    rewrite map_is_fmap. apply Forall_fmap. eapply list.Forall_impl; [exact Ha|].
    intros [k v] Hv. cbn in *. split; [done | apply max_ge_l]. }
  assert (Hlen : length final = (length (recordedNotes r) + length (activeNotes r))%nat).
  { unfold final, stopPlaybackNotes. by rewrite length_app, length_map. }
  assert (Hwt : Forall wellTimed final).
  { eapply list.Forall_impl; [exact Hfinal|]. intros n [Hst Hd]. split; [done|].
    eapply Qclt_le_trans; [|exact Hd]. reflexivity. }
  assert (Hnotes : notes = quantizeNotes final quantizeSnapValue).
  { unfold notes, final, stopPlaybackNotes. by destruct quantizeSnapValue. }
  split_and!.
  - rewrite Hnotes. by apply quantize_wellTimed.
  - intros ->. eapply list.Forall_impl; [exact Hfinal|]. by intros n [_ ?].
  - rewrite Hnotes.
    assert (Hq : length (quantizeNotes final quantizeSnapValue) = length final).
    { unfold quantizeNotes. case_bool_decide; [done|]. by rewrite length_map. }
    rewrite Hq, Hlen. lia.
  - intros Hnone.
    assert (Hr0 : r = emptyRecorder).
    { unfold r, recordEvents. clear -Hnone.
      generalize dependent es. intros es. induction es as [|e es IH] using rev_ind;
        intros Hnone; [done|].
      rewrite foldl_app. cbn [foldl]. rewrite IH; cycle 1.
      { intros e' He'. apply Hnone, elem_of_app. by left. }
      assert (He : masterChannel patterns (eventChannel e) = None).
      { apply Hnone, elem_of_app. right. apply list_elem_of_here. }
      unfold masterChannel in He.
      destruct e; cbn [keyEvent eventChannel] in *;
        unfold triggerTypingNote, releaseTypingNote;
        destruct patterns as [|first rest]; try done; by rewrite He. }
    rewrite Hnotes. unfold final, stopPlaybackNotes. rewrite Hr0. cbn.
    unfold quantizeNotes. by case_bool_decide.
Qed.
(** ** The times of piano-roll notes *)

Lemma Qc_eq_Qeq (x y : Qc) : x = y → (x == y)%Q.
Proof. by intros ->. Qed.

Lemma floor_div_bounds (x m : Qc) :
  (0 < m)%Qc →
  (Qc_of_Z (Qfloor (x / m)%Qc) * m ≤ x)%Qc
  ∧ (x < Qc_of_Z (Qfloor (x / m)%Qc + 1) * m)%Qc.
Proof.
  intros Hm. pose proof (floor_le (x / m)%Qc) as Hlo. pose proof (floor_lt (x / m)%Qc) as Hhi.
  split.
  - apply (Qcmult_le_mono_pos_r _ _ m Hm) in Hlo.
    by rewrite test_field in Hlo by (by apply Qc_ne_0).
  - apply (Qcmult_lt_mono_pos_r _ _ m Hm) in Hhi.
    by rewrite test_field in Hhi by (by apply Qc_ne_0).
Qed.

Lemma remainder_nonneg (x m : Qc) :
  (0 ≤ x)%Qc → (0 < m)%Qc →
  remainder x m = (x - m * Qc_of_Z (Qfloor (x / m)%Qc))%Qc.
Proof.
  intros Hx Hm. unfold remainder, truncate.
  rewrite bool_decide_eq_true_2; [done|]. by apply div_nonneg.
Qed.

Lemma ceiling_Qc (y : Qc) : Qceiling y = (- Qfloor (- y)%Qc)%Z.
Proof.
  unfold Qceiling. f_equal. apply Qfloor_comp. symmetry. apply Qred_correct.
Qed.

Lemma remainder_small_neg (x m : Qc) :
  (x < 0)%Qc → (- m < x)%Qc → remainder x m = x.
Proof.
  intros Hx Hm. unfold remainder, truncate.
  assert (Hm0 : (0 < m)%Qc) by qc_lra.
  assert (Hdiv : (x / m * m)%Qc = x) by (apply test_field; by apply Qc_ne_0).
  rewrite bool_decide_eq_false_2; cycle 1.
  { intros H0. apply (Qcmult_le_mono_pos_r _ _ m Hm0) in H0.
    rewrite Hdiv, Qcmult_0_l in H0. by apply Qcle_not_lt in H0. }
  rewrite ceiling_Qc.
  assert (Hfl : Qfloor (- (x / m))%Qc = 0%Z).
  { apply floor_unique.
    - rewrite Z2Qc_inj_0. apply (Qcmult_le_mono_pos_r _ _ m Hm0).
      replace (- (x / m) * m)%Qc with (- x)%Qc by (rewrite <-Hdiv at 1; ring).
      rewrite Qcmult_0_l. qc_lra.
    - change (0 + 1)%Z with 1%Z. rewrite Z2Qc_inj_1.
      apply (Qcmult_lt_mono_pos_r _ _ m Hm0).
      replace (- (x / m) * m)%Qc with (- x)%Qc by (rewrite <-Hdiv at 1; ring).
      rewrite Qcmult_1_l. qc_lra. }
  rewrite Hfl. change (- 0)%Z with 0%Z. rewrite Z2Qc_inj_0. ring.
Qed.

Lemma floor_small_neg (x m : Qc) :
  (x < 0)%Qc → (- m < x)%Qc → Qfloor (x / m)%Qc = (-1)%Z.
Proof.
  intros Hx Hm.
  assert (Hm0 : (0 < m)%Qc) by qc_lra.
  assert (Hdiv : (x / m * m)%Qc = x) by (apply test_field; by apply Qc_ne_0).
  apply floor_unique.
  - apply (Qcmult_le_mono_pos_r _ _ m Hm0). rewrite Hdiv.
    replace (Qc_of_Z (-1) * m)%Qc with (- m)%Qc by (apply Qc_is_canon; qc_lra).
    by apply Qclt_le_weak.
  - change (-1 + 1)%Z with 0%Z. rewrite Z2Qc_inj_0.
    apply (Qcmult_lt_mono_pos_r _ _ m Hm0). by rewrite Hdiv, Qcmult_0_l.
Qed.

Lemma floor_shift (y : Qc) (k : Z) : Qfloor (y - Qc_of_Z k)%Qc = (Qfloor y - k)%Z.
Proof.
  pose proof (floor_le y) as Hlo. pose proof (floor_lt y) as Hhi.
  apply floor_unique.
  - rewrite Z2Qc_inj_sub. by apply Qcplus_le_mono_r.
  - replace (Qfloor y - k + 1)%Z with (Qfloor y + 1 - k)%Z by lia.
    rewrite Z2Qc_inj_sub. by apply Qcplus_lt_mono_r.
Qed.

Lemma num_4_pos : (0 < num 4)%Qc.
Proof. reflexivity. Qed.

Lemma noteEvent_position (bpm : Qc) (note : Note) :
  (0 ≤ start note)%Qc →
  positionIn16ths (noteEvent bpm note) = start note
  ∧ (0 ≤ event_bars (noteEvent bpm note))%Z
  ∧ (0 ≤ event_quarters (noteEvent bpm note) ≤ 3)%Z
  ∧ (0 ≤ event_sixteenths (noteEvent bpm note))%Qc
  ∧ (event_sixteenths (noteEvent bpm note) < num 4)%Qc.
Proof.
  intros Hx. unfold positionIn16ths, noteEvent.
  cbn [event_bars event_quarters event_sixteenths].
  set (x := start note) in *. clearbody x.
  rewrite !remainder_nonneg by (done || reflexivity).
  destruct (floor_div_bounds x (num 16) num_16_pos) as [Hb1 Hb2].
  destruct (floor_div_bounds x (num 4) num_4_pos) as [Hs1 Hs2].
  set (b := Qfloor (x / num 16)%Qc) in *.
  set (f := Qfloor (x / num 4)%Qc) in *.
  assert (Hq : Qfloor ((x - num 16 * Qc_of_Z b) / num 4)%Qc = (f - 4 * b)%Z).
  { replace ((x - num 16 * Qc_of_Z b) / num 4)%Qc
      with (x / num 4 - Qc_of_Z (4 * b))%Qc.
    - apply floor_shift.
    - rewrite Z2Qc_inj_mul. change (Qc_of_Z 4) with (num 4).
      assert (H16 : num 16 = (num 4 * num 4)%Qc) by by_evaluation.
      rewrite H16. field. by_evaluation. }
  rewrite Hq. clearbody b f.
  assert (Hb0 : (0 ≤ b)%Z).
  { assert (Hb' : (-1 < b)%Z); [|lia].
    apply (proj2 (Z2Qc_inj_lt (-1) b)). rewrite Z2Qc_inj_add in Hb2. qc_lra. }
  assert (H1 : (16 * b < 4 * (f + 1))%Z).
  { apply (proj2 (Z2Qc_inj_lt _ _)).
    rewrite !Z2Qc_inj_mul, Z2Qc_inj_add in *. qc_lra. }
  assert (H2 : (4 * f < 16 * (b + 1))%Z).
  { apply (proj2 (Z2Qc_inj_lt _ _)).
    rewrite !Z2Qc_inj_mul, Z2Qc_inj_add in *. qc_lra. }
  rewrite Z2Qc_inj_add, Z2Qc_inj_1 in Hb2, Hs2.
  split_and!.
  - rewrite Z2Qc_inj_sub, Z2Qc_inj_mul. change (Qc_of_Z 4) with (num 4).
    assert (H16 : num 16 = (num 4 * num 4)%Qc) by by_evaluation.
    rewrite H16. ring.
  - done.
  - lia.
  - lia.
  - qc_lra.
  - qc_lra.
Qed.

(** X25.  The time of a piano-roll note.  For a note that starts at or
    after 0, the bars, quarters and sixteenths of its part event denote
    exactly its start, with 0 to 3 quarters and at least 0 and less than 4
    sixteenths; so the part of a channel whose notes all start at or after
    0 has one event per note, in order, at the start of the note.  A start
    between -4 and 0 would be placed 20 sixteenths too early.  The note
    name of a pitch that is not negative is the entry of the pitch class
    in the table followed by the octave, and pitch 48, which the notes
    made of steps carry, is the C3 the samplers are loaded at. *)
Theorem note_event_time (loaded : gset string) (bpm : Qc) (channel : ChannelState)
    (note : Note) :
  ((0 ≤ start note)%Qc →
   positionIn16ths (noteEvent bpm note) = start note
   ∧ (0 ≤ event_bars (noteEvent bpm note))%Z
   ∧ (0 ≤ event_quarters (noteEvent bpm note) ≤ 3)%Z
   ∧ (0 ≤ event_sixteenths (noteEvent bpm note))%Qc
   ∧ (event_sixteenths (noteEvent bpm note) < num 4)%Qc)
  ∧ ((start note < 0)%Qc → (- num 4 < start note)%Qc →
     positionIn16ths (noteEvent bpm note) = (start note - num 20)%Qc)
  ∧ (∀ ns events,
       notes channel = Some ns → Forall (λ n, (0 ≤ start n)%Qc) ns →
       partEvents loaded bpm channel = Some events →
       positionIn16ths <$> events = start <$> ns)
  ∧ ((0 ≤ pitch note)%Z →
     ∃ name, NOTE_NAMES !! Z.to_nat (pitch note mod 12) = Some name
       ∧ event_note (noteEvent bpm note)
         = name ++ intToString (pitch note / 12 - 1))
  ∧ midiToNoteName 48 = "C3".
Proof.
  split_and!.
  - apply noteEvent_position.
  - intros Hneg Hlow. unfold positionIn16ths, noteEvent.
    cbn [event_bars event_quarters event_sixteenths].
    set (x := start note) in *. clearbody x.
    assert (Hlow16 : (- num 16 < x)%Qc) by qc_lra.
    rewrite (remainder_small_neg x (num 16) Hneg Hlow16).
    rewrite (remainder_small_neg x (num 4) Hneg Hlow).
    pose proof (floor_small_neg x (num 16) Hneg Hlow16) as Hf16.
    pose proof (floor_small_neg x (num 4) Hneg Hlow) as Hf4.
    set (b := Qfloor (x / num 16)%Qc) in *. set (q := Qfloor (x / num 4)%Qc) in *.
    clearbody b q. subst b q.
    apply Qc_is_canon. qc_lra.
  - intros ns events Hns Hstart. unfold partEvents. rewrite Hns.
    case_bool_decide; [|done]. case_bool_decide; [|done]. intros [= <-].
    rewrite (map_is_fmap (noteEvent bpm)).
    rewrite <-(list_fmap_compose (noteEvent bpm) positionIn16ths).
    apply Forall_fmap_ext_1.
    eapply list.Forall_impl; [exact Hstart|]. intros n Hn. cbn.
    by apply noteEvent_position.
  - intros Hp. cbn [noteEvent event_note]. unfold midiToNoteName.
    rewrite Z.rem_mod_nonneg by lia.
    pose proof (Z.mod_pos_bound (pitch note) 12 ltac:(lia)) as Hm.
    rewrite bool_decide_eq_true_2 by lia.
    destruct (NOTE_NAMES !! Z.to_nat (pitch note mod 12)) as [name|] eqn:Hname.
    + by exists name.
    + apply lookup_ge_None in Hname. cbn in Hname. lia.
  - reflexivity.
Qed.
(** * WAV encoding *)

Lemma littleEndian_S k v :
  Wav.littleEndian (S k) v = ((v mod 256) :: Wav.littleEndian k (v / 256))%Z.
Proof.
  unfold Wav.littleEndian. cbn [seq map]. f_equal.
  - change (256 ^ Z.of_nat 0)%Z with 1%Z. by rewrite Z.div_1_r.
  - rewrite <-seq_shift, map_map. apply map_ext. intros i.
    rewrite Nat2Z.inj_succ, Z.pow_succ_r by lia.
    rewrite Z.div_div by lia. done.
Qed.

Lemma littleEndian_length k v : length (Wav.littleEndian k v) = k.
Proof. unfold Wav.littleEndian. by rewrite length_map, length_seq. Qed.

Lemma littleEndian_bytes k v : Forall isByte (Wav.littleEndian k v).
Proof.
  revert v. induction k as [|k IH]; intros v; [constructor|].
  rewrite littleEndian_S. constructor; [|apply IH].
  apply Z.mod_pos_bound. lia.
Qed.

Lemma littleEndian_value k v :
  foldr (λ b acc, b + 256 * acc)%Z 0%Z (Wav.littleEndian k v) = (v mod 256 ^ Z.of_nat k)%Z.
Proof.
  revert v. induction k as [|k IH]; intros v.
  - cbn. by rewrite Z.mod_1_r.
  - rewrite littleEndian_S. cbn [foldr]. rewrite IH.
    rewrite Nat2Z.inj_succ, Z.pow_succ_r by lia.
    rewrite Z.rem_mul_r by lia. done.
Qed.

Lemma readUint_chunk pre k v post bytes offset :
  bytes = (pre ++ Wav.littleEndian k v ++ post)%list →
  offset = length pre →
  readUint k bytes offset = (v mod 256 ^ Z.of_nat k)%Z.
Proof.
  intros -> ->. unfold readUint. rewrite drop_app_length.
  rewrite <-(littleEndian_length k v) at 1. rewrite take_app_length.
  apply littleEndian_value.
Qed.

Lemma readText_chunk pre text post bytes offset :
  bytes = (pre ++ text ++ post)%list →
  offset = length pre →
  readText (length text) bytes offset = text.
Proof.
  intros -> ->. unfold readText. by rewrite drop_app_length, take_app_length.
Qed.

Lemma writeBytes_zeros pre bs k n m :
  Forall isByte bs → k = length pre → n = (length bs + m)%nat →
  Wav.writeBytes (pre ++ replicate n 0%Z) k bs = Some ((pre ++ bs) ++ replicate m 0%Z)%list.
Proof.
  intros Hb -> ->. revert pre. induction Hb as [|b bs Hb _ IH]; intros pre.
  - cbn. by rewrite app_nil_r.
  - cbn [Wav.writeBytes length Nat.add replicate]. unfold Wav.setUint8.
    rewrite bool_decide_eq_true_2 by (rewrite length_app; cbn; lia).
    cbn [mbind option_bind].
    replace (<[length pre:=(b mod 256)%Z]> (pre ++ 0%Z :: replicate (length bs + m) 0%Z)%list)
      with ((pre ++ [b]) ++ replicate (length bs + m) 0%Z)%list.
    + replace (S (length pre)) with (length (pre ++ [b])%list) by (rewrite length_app; cbn; lia).
      rewrite IH. by rewrite <-!app_assoc.
    + rewrite insert_app_r_alt by lia. rewrite Nat.sub_diag. cbn.
      rewrite Z.mod_small by apply Hb. by rewrite <-app_assoc.
Qed.

Lemma charCodes_bytes str : Forall isByte (Wav.charCodes str).
Proof.
  unfold Wav.charCodes. apply list.Forall_forall. intros b Hb.
  apply list_elem_of_In, in_map_iff in Hb as (c & <- & _).
  pose proof (nat_ascii_bounded c). unfold isByte. lia.
Qed.

Lemma writeSamples_zeros result pre k n :
  k = length pre → n = (2 * length result)%nat →
  Wav.writeSamples (pre ++ replicate n 0%Z) k result
  = Some (pre ++ flat_map encodeSample result)%list.
Proof.
  revert pre k n. induction result as [|C rest IH]; intros pre k n -> ->.
  - cbn. by rewrite !app_nil_r.
  - cbn [Wav.writeSamples flat_map]. unfold Wav.setInt16.
    fold (encodeSample C).
    rewrite (writeBytes_zeros pre (encodeSample C) (length pre)
               (2 * length (C :: rest)) (2 * length rest));
      [|apply littleEndian_bytes|done|unfold encodeSample; rewrite littleEndian_length; cbn; lia].
    cbn [mbind option_bind].
    rewrite (IH (pre ++ encodeSample C)%list); [by rewrite <-app_assoc| |done].
    rewrite length_app. unfold encodeSample. by rewrite littleEndian_length.
Qed.

Lemma interleaveLoop_spec inputL inputR n fuel k result :
  length result = (2 * n)%nat → (k ≤ n)%nat → (n - k ≤ fuel)%nat →
  let r := Wav.interleaveLoop fuel (2 * k) k (2 * n) inputL inputR result in
  length r = (2 * n)%nat
  ∧ (∀ j, (k ≤ j < n)%nat →
       r !! (2 * j)%nat = Some (Wav.read inputL j)
       ∧ r !! (2 * j + 1)%nat = Some (Wav.read inputR j))
  ∧ (∀ i, (i < 2 * k)%nat → r !! i = result !! i).
Proof.
  revert k result. induction fuel as [|fuel IH]; intros k result Hlen Hk Hfuel.
  - cbn. split_and!; [done| intros j ?; lia | done].
  - cbn [Wav.interleaveLoop]. case_bool_decide as Hlt.
    + replace (2 * k + 1 + 1)%nat with (2 * (k + 1))%nat by lia.
      set (result' := <[(2 * k + 1)%nat := _]> (<[(2 * k)%nat := _]> result)).
      assert (Hlen' : length result' = (2 * n)%nat)
        by (unfold result'; by rewrite !length_insert).
      destruct (IH (k + 1)%nat result' Hlen' ltac:(lia) ltac:(lia)) as (Hl & Hj & Hi).
      split_and!; [done| |].
      * intros j Hjk. destruct (decide (j = k)) as [->|Hne]; [|apply Hj; lia].
        rewrite !Hi by lia. unfold result'. split.
        -- rewrite list_lookup_insert_ne by lia.
           apply list_lookup_insert_eq. lia.
        -- apply list_lookup_insert_eq. rewrite length_insert. lia.
      * intros i Hik. rewrite Hi by lia. unfold result'.
        rewrite !list_lookup_insert_ne by lia. done.
    + split_and!; [done| intros j ?; lia | done].
Qed.

Lemma interleave_lookup inputL inputR n :
  length inputL = n → length inputR = n →
  length (Wav.interleave inputL inputR) = (2 * n)%nat
  ∧ ∀ j l r, inputL !! j = Some l → inputR !! j = Some r →
      Wav.interleave inputL inputR !! (2 * j)%nat = Some l
      ∧ Wav.interleave inputL inputR !! (2 * j + 1)%nat = Some r.
Proof.
  intros HL HR. unfold Wav.interleave. rewrite HL, HR.
  replace (n + n)%nat with (2 * n)%nat by lia.
  destruct (interleaveLoop_spec inputL inputR n (2 * n) 0 (replicate (2 * n) (Some 0%Qc)))
    as (Hl & Hj & _); [by rewrite length_replicate|lia|lia|].
  change (2 * 0)%nat with 0%nat in *. split; [done|].
  intros j l r Hjl Hjr.
  assert (j < n)%nat by (rewrite <-HL; by eapply lookup_lt_Some).
  destruct (Hj j ltac:(lia)) as [-> ->]. unfold Wav.read.
  by rewrite Hjl, Hjr.
Qed.

Lemma bufferToWav_layout buffer frames :
  wellFormedBuffer buffer frames →
  ∃ result,
    samplesOf buffer result
    ∧ length result = writtenSamples buffer frames
    ∧ Wav.bufferToWav buffer
      = Some (headerLayout buffer (2 * length result) ++ flat_map encodeSample result)%list.
Proof.
  intros (Hone & Hlen & Hall).
  assert (Hres : ∃ result, samplesOf buffer result
            ∧ length result = writtenSamples buffer frames
            ∧ (if Nat.eqb (Wav.numberOfChannels buffer) 2 then
                 inputL ← Wav.getChannelData buffer 0;
                 inputR ← Wav.getChannelData buffer 1;
                 Some (Wav.interleave inputL inputR)
               else Wav.getChannelData buffer 0) = Some result).
  { unfold samplesOf, writtenSamples, Wav.getChannelData.
    destruct (Wav.channelData buffer) as [|c0 rest] eqn:Hcd; [cbn in Hlen; lia|].
    destruct (Nat.eqb (Wav.numberOfChannels buffer) 2) eqn:Htwo.
    - apply Nat.eqb_eq in Htwo. rewrite Htwo in Hlen.
      destruct rest as [|c1 rest]; [cbn in Hlen; lia|].
      apply list.Forall_cons in Hall as [H0 Hall]. apply list.Forall_cons in Hall as [H1 _].
      exists (Wav.interleave c0 c1). cbn. split_and!; [by exists c0, c1| |done].
      by destruct (interleave_lookup c0 c1 frames H0 H1) as [-> _].
    - apply list.Forall_cons in Hall as [H0 _]. exists c0. by cbn. }
  destruct Hres as (result & Hs & Hl & Hres). exists result. split_and!; [done..|].
  unfold Wav.bufferToWav. cbv zeta. rewrite Hres. cbn [mbind option_bind].
  change (16 / 8)%nat with 2%nat.
  unfold Wav.writeString, Wav.setUint32, Wav.setUint16.
  set (dl := (length result * 2)%nat).
  replace (2 * length result)%nat with dl by (unfold dl; lia).
  change (replicate (44 + dl) 0%Z) with ([] ++ replicate (44 + dl) 0%Z)%list.
  rewrite (writeBytes_zeros _ _ _ _ (40 + dl));
    [|apply charCodes_bytes|done|done]. cbn [mbind option_bind].
  rewrite (writeBytes_zeros _ _ _ _ (36 + dl));
    [|apply littleEndian_bytes|done|done]. cbn [mbind option_bind].
  rewrite (writeBytes_zeros _ _ _ _ (32 + dl));
    [|apply charCodes_bytes|done|done]. cbn [mbind option_bind].
  rewrite (writeBytes_zeros _ _ _ _ (28 + dl));
    [|apply charCodes_bytes|done|done]. cbn [mbind option_bind].
  rewrite (writeBytes_zeros _ _ _ _ (24 + dl));
    [|apply littleEndian_bytes|done|done]. cbn [mbind option_bind].
  rewrite (writeBytes_zeros _ _ _ _ (22 + dl));
    [|apply littleEndian_bytes|done|done]. cbn [mbind option_bind].
  rewrite (writeBytes_zeros _ _ _ _ (20 + dl));
    [|apply littleEndian_bytes|done|done]. cbn [mbind option_bind].
  rewrite (writeBytes_zeros _ _ _ _ (16 + dl));
    [|apply littleEndian_bytes|done|done]. cbn [mbind option_bind].
  rewrite (writeBytes_zeros _ _ _ _ (12 + dl));
    [|apply littleEndian_bytes|done|done]. cbn [mbind option_bind].
  rewrite (writeBytes_zeros _ _ _ _ (10 + dl));
    [|apply littleEndian_bytes|done|done]. cbn [mbind option_bind].
  rewrite (writeBytes_zeros _ _ _ _ (8 + dl));
    [|apply littleEndian_bytes|done|done]. cbn [mbind option_bind].
  rewrite (writeBytes_zeros _ _ _ _ (4 + dl));
    [|apply charCodes_bytes|done|done]. cbn [mbind option_bind].
  rewrite (writeBytes_zeros _ _ _ _ dl);
    [|apply littleEndian_bytes|done|done]. cbn [mbind option_bind].
  rewrite writeSamples_zeros; [|done|unfold dl; lia].
  unfold headerLayout. rewrite <-!app_assoc. done.
Qed.

Lemma truncate_bounds (x : Qc) :
  ((0 ≤ x)%Qc → (Qc_of_Z (truncate x) ≤ x)%Qc ∧ (x < Qc_of_Z (truncate x + 1))%Qc)
  ∧ ((x < 0)%Qc → (Qc_of_Z (truncate x - 1) < x)%Qc ∧ (x ≤ Qc_of_Z (truncate x))%Qc).
Proof.
  unfold truncate. split; intros Hx.
  - rewrite bool_decide_eq_true_2 by done. split; [apply floor_le|apply floor_lt].
  - rewrite bool_decide_eq_false_2 by (by apply Qclt_not_le).
    rewrite ceiling_Qc.
    pose proof (floor_le (- x)%Qc) as Hlo. pose proof (floor_lt (- x)%Qc) as Hhi.
    set (f := Qfloor (- x)%Qc) in *.
    rewrite Z2Qc_inj_add in Hhi. rewrite Z2Qc_inj_sub, Z2Qc_inj_opp.
    split; qc_lra.
Qed.

Lemma clampSample_cases (c : Qc) :
  ((Qc_of_Z (-1) ≤ c)%Qc → (c ≤ 1)%Qc → Wav.clampSample c = c)
  ∧ ((1 ≤ c)%Qc → Wav.clampSample c = 1%Qc)
  ∧ ((c ≤ Qc_of_Z (-1))%Qc → Wav.clampSample c = Qc_of_Z (-1)).
Proof.
  unfold Wav.clampSample, Js.max, Wav.minNumber.
  repeat case_bool_decide; split_and!; intros; try done;
    try (apply Qc_is_canon); qc_lra.
Qed.

Lemma readInt16_chunk pre v post bytes offset :
  bytes = (pre ++ Wav.littleEndian 2 v ++ post)%list →
  offset = length pre →
  (-32768 ≤ v < 32768)%Z →
  readInt16 bytes offset = v.
Proof.
  intros Hb Ho Hv. unfold readInt16.
  rewrite (readUint_chunk pre 2 v post bytes offset Hb Ho).
  change (256 ^ Z.of_nat 2)%Z with 65536%Z.
  destruct (decide (0 ≤ v)%Z).
  - rewrite Z.mod_small by lia. by rewrite bool_decide_eq_true_2 by lia.
  - replace (v mod 65536)%Z with (v + 65536)%Z.
    + rewrite bool_decide_eq_false_2 by lia. lia.
    + symmetry. rewrite <-(Z.mod_add v 1 65536) by lia.
      apply Z.mod_small. lia.
Qed.

Lemma flat_map_encodeSample_lookup result i C :
  result !! i = Some C →
  ∃ pre post, flat_map encodeSample result = (pre ++ encodeSample C ++ post)%list
    ∧ length pre = (2 * i)%nat.
Proof.
  intros Hi. exists (flat_map encodeSample (take i result)),
    (flat_map encodeSample (drop (S i) result)). split.
  - rewrite <-(take_drop_middle result i C Hi) at 1.
    by rewrite flat_map_app.
  - assert (Hlen : ∀ l, length (flat_map encodeSample l) = (2 * length l)%nat).
    { induction l as [|x l IH]; [done|]. cbn [flat_map]. rewrite length_app, IH.
      unfold encodeSample. rewrite littleEndian_length. cbn. lia. }
    rewrite Hlen, length_take. apply lookup_lt_Some in Hi. lia.
Qed.

Lemma headerLayout_length buffer dataLength :
  length (headerLayout buffer dataLength) = 44%nat.
Proof. reflexivity. Qed.

Lemma flat_map_encodeSample_bytes result : Forall isByte (flat_map encodeSample result).
Proof.
  induction result as [|C rest IH]; [constructor|]. cbn [flat_map].
  apply Forall_app. split; [apply littleEndian_bytes|done].
Qed.

Lemma headerLayout_bytes buffer dataLength : Forall isByte (headerLayout buffer dataLength).
Proof.
  unfold headerLayout.
  repeat (apply Forall_app; split);
    first [apply charCodes_bytes | apply littleEndian_bytes].
Qed.

(** X26.  The WAV file describes its own data.  For an audio buffer with at
    least one channel whose channel arrays all hold [frames] samples,
    [bufferToWav] raises no range error and returns 44 header bytes
    followed by two bytes for each sample written: twice [frames] samples
    for two channels, [frames] samples otherwise.  The header reads RIFF,
    the file length less 8, WAVE, fmt, a chunk size of 16, format 1, the
    channel count, the sample rate, the byte rate, the block size, 16 bits,
    data, and the number of bytes that follow the header; each number is
    stored modulo the width of its field. *)
Theorem wav_header_describes_data (buffer : Wav.AudioBuffer) (frames : nat) :
  wellFormedBuffer buffer frames →
  ∃ bytes,
    Wav.bufferToWav buffer = Some bytes
    ∧ length bytes = (44 + 2 * writtenSamples buffer frames)%nat
    ∧ Forall isByte bytes
    ∧ readText 4 bytes 0 = Wav.charCodes "RIFF"
    ∧ readUint 4 bytes 4 = ((Z.of_nat (length bytes) - 8) mod 2 ^ 32)%Z
    ∧ readText 4 bytes 8 = Wav.charCodes "WAVE"
    ∧ readText 4 bytes 12 = Wav.charCodes "fmt "
    ∧ readUint 4 bytes 16 = 16%Z
    ∧ readUint 2 bytes 20 = 1%Z
    ∧ readUint 2 bytes 22 = (Z.of_nat (Wav.numberOfChannels buffer) mod 2 ^ 16)%Z
    ∧ readUint 4 bytes 24 = (Wav.sampleRate buffer mod 2 ^ 32)%Z
    ∧ readUint 4 bytes 28
      = ((Wav.sampleRate buffer * Z.of_nat (Wav.numberOfChannels buffer) * 2) mod 2 ^ 32)%Z
    ∧ readUint 2 bytes 32 = ((Z.of_nat (Wav.numberOfChannels buffer) * 2) mod 2 ^ 16)%Z
    ∧ readUint 2 bytes 34 = 16%Z
    ∧ readText 4 bytes 36 = Wav.charCodes "data"
    ∧ readUint 4 bytes 40 = ((Z.of_nat (length bytes) - 44) mod 2 ^ 32)%Z.
Proof.
  intros Hwf.
  destruct (bufferToWav_layout buffer frames Hwf) as (result & _ & Hlen & Hbytes).
  eexists. split; [exact Hbytes|].
  set (bytes := (headerLayout buffer (2 * length result) ++ flat_map encodeSample result)%list).
  assert (Hl : length bytes = (44 + 2 * writtenSamples buffer frames)%nat).
  { unfold bytes. rewrite length_app, headerLayout_length, <-Hlen. f_equal.
    clear. induction result as [|C rest IH]; [done|]. cbn [flat_map].
    rewrite length_app, IH. unfold encodeSample. rewrite littleEndian_length.
    cbn [length]. lia. }
  assert (Hb : bytes = (headerLayout buffer (2 * length result)
                          ++ flat_map encodeSample result)%list) by done.
  unfold headerLayout in Hb. rewrite <-!app_assoc in Hb.
  rewrite Hl, Hlen in *. clearbody bytes.
  change (2 ^ 32)%Z with (256 ^ Z.of_nat 4)%Z.
  change (2 ^ 16)%Z with (256 ^ Z.of_nat 2)%Z.
  split; [done|]. split.
  { rewrite Hb. repeat (apply Forall_app; split);
      first [apply charCodes_bytes | apply littleEndian_bytes
            | apply flat_map_encodeSample_bytes]. }
  split; [by eapply (readText_chunk [] (Wav.charCodes "RIFF"))|].
  split.
  { replace (Z.of_nat (44 + 2 * writtenSamples buffer frames) - 8)%Z
      with (Z.of_nat (36 + 2 * writtenSamples buffer frames)) by lia.
    pose proof Hb as H. do 0 rewrite app_assoc in H.
    by eapply readUint_chunk. }
  split.
  { pose proof Hb as H. do 1 rewrite app_assoc in H.
    by eapply (readText_chunk _ (Wav.charCodes "WAVE")). }
  split.
  { pose proof Hb as H. do 2 rewrite app_assoc in H.
    by eapply (readText_chunk _ (Wav.charCodes "fmt ")). }
  split.
  { pose proof Hb as H. do 3 rewrite app_assoc in H.
    etrans; [eapply readUint_chunk; [exact H|reflexivity]|reflexivity]. }
  split.
  { pose proof Hb as H. do 4 rewrite app_assoc in H.
    etrans; [eapply readUint_chunk; [exact H|reflexivity]|reflexivity]. }
  split.
  { pose proof Hb as H. do 5 rewrite app_assoc in H.
    by eapply readUint_chunk. }
  split.
  { pose proof Hb as H. do 6 rewrite app_assoc in H.
    by eapply readUint_chunk. }
  split.
  { pose proof Hb as H. do 7 rewrite app_assoc in H.
    by eapply readUint_chunk. }
  split.
  { replace (Z.of_nat (Wav.numberOfChannels buffer) * 2)%Z
      with (Z.of_nat (Wav.numberOfChannels buffer * 2)) by lia.
    pose proof Hb as H. do 8 rewrite app_assoc in H.
    by eapply readUint_chunk. }
  split.
  { pose proof Hb as H. do 9 rewrite app_assoc in H.
    etrans; [eapply readUint_chunk; [exact H|reflexivity]|reflexivity]. }
  split.
  { pose proof Hb as H. do 10 rewrite app_assoc in H.
    by eapply (readText_chunk _ (Wav.charCodes "data")). }
  replace (Z.of_nat (44 + 2 * writtenSamples buffer frames) - 44)%Z
    with (Z.of_nat (2 * writtenSamples buffer frames)) by lia.
  pose proof Hb as H. do 11 rewrite app_assoc in H.
  by eapply readUint_chunk.
Qed.

Lemma wav_header_describes_data_witness :
  ∃ bytes, Wav.bufferToWav demoBuffer = Some bytes ∧ length bytes = 52%nat.
Proof.
  assert (Hwf : wellFormedBuffer demoBuffer 2).
  { split; [cbn; lia|]. split; [reflexivity|]. by repeat constructor. }
  destruct (wav_header_describes_data demoBuffer 2 Hwf) as (bytes & Hb & Hl & _).
  exists bytes. split; [exact Hb|exact Hl].
Defined.

Lemma sample_value_bounds (c : Qc) :
  let v := truncate (Wav.clampSample c * Qc_of_Z 32767)%Qc in
  (-32767 ≤ v ≤ 32767)%Z
  ∧ ((Qc_of_Z (-1) ≤ c)%Qc → (c ≤ 1)%Qc →
       (Qc_of_Z (v - 1) < c * Qc_of_Z 32767)%Qc ∧ (c * Qc_of_Z 32767 < Qc_of_Z (v + 1))%Qc)
  ∧ ((1 ≤ c)%Qc → v = 32767%Z)
  ∧ ((c ≤ Qc_of_Z (-1))%Qc → v = (-32767)%Z).
Proof.
  intros v.
  destruct (clampSample_cases c) as (Hin & Hhi & Hlo).
  assert (Hq : (Qc_of_Z (-1) ≤ Wav.clampSample c)%Qc ∧ (Wav.clampSample c ≤ 1)%Qc).
  { destruct (Qclt_le_dec c (Qc_of_Z (-1))) as [H1|H1].
    - rewrite Hlo by (by apply Qclt_le_weak). split; [apply Qcle_refl|]. qc_lra.
    - destruct (Qclt_le_dec 1 c) as [H2|H2].
      + rewrite Hhi by (by apply Qclt_le_weak). split; [qc_lra|apply Qcle_refl].
      + by rewrite Hin. }
  destruct Hq as [Hq1 Hq2].
  destruct (truncate_bounds (Wav.clampSample c * Qc_of_Z 32767)%Qc) as [Hpos Hneg].
  fold v in Hpos, Hneg.
  assert (Hcases :
    ((Qc_of_Z (v - 1) < Wav.clampSample c * Qc_of_Z 32767)%Qc
     ∧ (Wav.clampSample c * Qc_of_Z 32767 < Qc_of_Z (v + 1))%Qc)).
  { rewrite Z2Qc_inj_sub, Z2Qc_inj_add.
    destruct (Qclt_le_dec (Wav.clampSample c * Qc_of_Z 32767) 0) as [Hx|Hx].
    - destruct (Hneg Hx) as [Ha Hb]. rewrite Z2Qc_inj_sub in Ha. split; qc_lra.
    - destruct (Hpos Hx) as [Ha Hb]. rewrite Z2Qc_inj_add in Hb. split; qc_lra. }
  destruct Hcases as [Hc1 Hc2].
  assert (H1 : (v - 1 < 32767)%Z).
  { apply (proj2 (Z2Qc_inj_lt _ _)). rewrite Z2Qc_inj_sub in *. qc_lra. }
  assert (H2 : (-32767 < v + 1)%Z).
  { apply (proj2 (Z2Qc_inj_lt _ _)). rewrite Z2Qc_inj_add in *. qc_lra. }
  split_and!.
  - lia.
  - lia.
  - intros H3 H4. rewrite Hin in Hc1, Hc2 by done. done.
  - intros H3. rewrite Hhi in Hc1, Hc2 by done.
    assert ((32767 < v + 1)%Z); [|lia].
    apply (proj2 (Z2Qc_inj_lt _ _)). rewrite Z2Qc_inj_add in *. qc_lra.
  - intros H3. rewrite Hlo in Hc1, Hc2 by done.
    assert ((v - 1 < -32767)%Z); [|lia].
    apply (proj2 (Z2Qc_inj_lt _ _)). rewrite Z2Qc_inj_sub in *. qc_lra.
Qed.

(** X27.  Every sample of the buffer is in the file, to within one step of
    16 bits.  Under the hypotheses of X26, sample [j] of a channel that is
    written (either channel of two, the first channel otherwise) is stored
    as the signed 16-bit number at byte [44 + 2 * (2 * j + channel)] for
    two channels and [44 + 2 * j] otherwise.  That number is between
    -32767 and 32767; it is 0 for a [NaN]; it is less than one away from
    32767 times the sample when the sample is between -1 and 1; and it is
    32767 or -32767 when the sample is beyond 1 or -1. *)
Theorem wav_samples_within_one_step (buffer : Wav.AudioBuffer) (frames channel : nat)
    (input : list (option Qc)) (j : nat) (C : option Qc) :
  wellFormedBuffer buffer frames →
  (channel < (if Nat.eqb (Wav.numberOfChannels buffer) 2 then 2 else 1))%nat →
  Wav.channelData buffer !! channel = Some input →
  input !! j = Some C →
  ∃ bytes,
    Wav.bufferToWav buffer = Some bytes
    ∧ let position :=
        (44 + 2 * (if Nat.eqb (Wav.numberOfChannels buffer) 2
                   then 2 * j + channel else j))%nat in
      let v := readInt16 bytes position in
      (-32767 ≤ v ≤ 32767)%Z
      ∧ match C with
        | None => v = 0%Z
        | Some c =>
            ((Qc_of_Z (-1) ≤ c)%Qc → (c ≤ 1)%Qc →
               (Qc_of_Z (v - 1) < c * Qc_of_Z 32767)%Qc
               ∧ (c * Qc_of_Z 32767 < Qc_of_Z (v + 1))%Qc)
            ∧ ((1 ≤ c)%Qc → v = 32767%Z)
            ∧ ((c ≤ Qc_of_Z (-1))%Qc → v = (-32767)%Z)
        end.
Proof.
  intros Hwf Hch Hinput Hj.
  destruct (bufferToWav_layout buffer frames Hwf) as (result & Hs & Hlen & Hbytes).
  eexists. split; [exact Hbytes|]. cbv zeta.
  set (i := if Nat.eqb (Wav.numberOfChannels buffer) 2 then (2 * j + channel)%nat else j).
  assert (Hi : result !! i = Some C).
  { unfold samplesOf in Hs. unfold i.
    destruct (Nat.eqb (Wav.numberOfChannels buffer) 2).
    - destruct Hs as (inputL & inputR & HL & HR & ->).
      destruct Hwf as (_ & _ & Hall).
      assert (HlL : length inputL = frames).
      { eapply (proj1 (list.Forall_forall _ _) Hall). by eapply list_elem_of_lookup_2. }
      assert (HlR : length inputR = frames).
      { eapply (proj1 (list.Forall_forall _ _) Hall). by eapply list_elem_of_lookup_2. }
      destruct (interleave_lookup inputL inputR frames HlL HlR) as [_ Hlook].
      assert (Hjf : (j < frames)%nat).
      { apply lookup_lt_Some in Hj.
        assert (length input = frames); [|lia].
        eapply (proj1 (list.Forall_forall _ _) Hall). by eapply list_elem_of_lookup_2. }
      destruct (lookup_lt_is_Some_2 inputL j ltac:(lia)) as [l Hl].
      destruct (lookup_lt_is_Some_2 inputR j ltac:(lia)) as [r Hr].
      destruct (Hlook j l r Hl Hr) as [H0 H1].
      destruct channel as [|[|?]]; [| |lia].
      + rewrite Nat.add_0_r, H0. congruence.
      + rewrite H1. congruence.
    - assert (channel = 0%nat) as -> by lia. congruence. }
  destruct (flat_map_encodeSample_lookup result i C Hi) as (pre & post & Hfm & Hpre).
  set (v0 := from_option truncate 0%Z ((λ C, Wav.clampSample C * Qc_of_Z 32767)%Qc <$> C)).
  assert (Hv0 : (-32767 ≤ v0 ≤ 32767)%Z).
  { unfold v0. destruct C as [c|]; cbn; [|lia]. apply sample_value_bounds. }
  rewrite (readInt16_chunk (headerLayout buffer (2 * length result) ++ pre) v0 post);
    [| |rewrite length_app, headerLayout_length; lia|lia].
  - split; [done|]. unfold v0. destruct C as [c|]; cbn; [|done].
    apply sample_value_bounds.
  - rewrite Hfm, <-app_assoc. done.
Qed.

Lemma wav_samples_within_one_step_witness :
  ∃ bytes, Wav.bufferToWav demoBuffer = Some bytes ∧ readInt16 bytes 48 = (-32767)%Z.
Proof.
  assert (Hwf : wellFormedBuffer demoBuffer 2).
  { split; [cbn; lia|]. split; [reflexivity|]. by repeat constructor. }
  assert (Hch : (0 < (if Nat.eqb (Wav.numberOfChannels demoBuffer) 2 then 2 else 1))%nat)
    by (cbn; lia).
  destruct (wav_samples_within_one_step demoBuffer 2 0
              [Some (Q2Qc (1 # 2)); Some (Q2Qc (-3 # 2))] 1 (Some (Q2Qc (-3 # 2)))
              Hwf Hch eq_refl eq_refl) as (bytes & Hb & _ & _ & _ & Hlow).
  exists bytes. split; [exact Hb|]. apply Hlow. vm_compute. discriminate.
Defined.
